(** * MutationDiff: a shallow embedding of [enhanced_inputevents/mutation_diff.js]

    The development follows the layout of the JavaScript module:

    - [JsMap]: the insertion-ordered [Map] of the language;
    - [Js]: completion records (normal return or a thrown exception) and the
      state monad used for every method;
    - [Position], [MutatedNode], [PromiseObj], [IndexObj], [Tree]: the objects
      of the node-position tracker, and [SiblingIndex], [SiblingPromise],
      [TreeMutations]: the methods of its classes;
    - [Dom] and [Env]: the part of the live tree, of the console and of the
      embedder's callbacks that the module reads and writes (the operations
      of the DOM the module calls; they are not code of the module);
    - [PropertyCache] and [MutationDiff]: the property tracker and the facade;
    - [Observer]: the records a MutationObserver queues for a change;
    - [Spec] and [Ex]: the vocabulary of the properties and concrete inputs;
    - the properties.

    Objects that the source shares by reference ([MutatedNode] and
    [SiblingPromise] instances) live in a store and are named by their
    allocation index, so aliasing and stale references behave as in the
    source. A [while (true)] loop of the source is a recursion on a bound
    that a walk over an acyclic sibling chain does not reach; reaching it is
    the exception [Diverges].

    [TreeSync] holds [TreeMutations.synchronize], which reads the live tree.

    Not embedded: [MutationDiff.range] (it needs the ranges of
    [mutated_range.js]), the debug counter [DBG] and the console output of
    the assertion pass. *)

From Stdlib Require Import List Bool Arith ZArith Ascii String Lia.
Import ListNotations.

Set Implicit Arguments.

(** ** Decidable equality on keys *)

Class EqKey (K : Type) := {
  eqk : K -> K -> bool;
  eqk_spec : forall x y, reflect (x = y) (eqk x y)
}.

#[global] Instance EqKey_nat : EqKey nat :=
  {| eqk := Nat.eqb; eqk_spec := Nat.eqb_spec |}.

#[global] Instance EqKey_string : EqKey string :=
  {| eqk := String.eqb; eqk_spec := String.eqb_spec |}.

(** ** The JavaScript [Map]: an association list in insertion order.
    [set] on a present key keeps the key's place, [set] on a new key appends,
    [delete] removes the entry. Keys are unique. *)

Module JsMap.
Section Defs.
Context {K V : Type} `{EqKey K}.

Definition t := list (K * V).

Definition empty : t := [].

Fixpoint get (k : K) (m : t) : option V :=
  match m with
  | [] => None
  | (k', v) :: m' => if eqk k k' then Some v else get k m'
  end.

Definition has (k : K) (m : t) : bool :=
  match get k m with Some _ => true | None => false end.

Fixpoint set (k : K) (v : V) (m : t) : t :=
  match m with
  | [] => [(k, v)]
  | (k', v') :: m' => if eqk k k' then (k, v) :: m' else (k', v') :: set k v m'
  end.

Fixpoint delete (k : K) (m : t) : t :=
  match m with
  | [] => []
  | (k', v') :: m' => if eqk k k' then delete k m' else (k', v') :: delete k m'
  end.

Definition size (m : t) : nat := List.length m.
Definition keys (m : t) : list K := map fst m.
Definition values (m : t) : list V := map snd m.
Definition entries (m : t) : list (K * V) := m.
End Defs.
Arguments t : clear implicits.
End JsMap.

(** ** Completion records and the method monad *)

Module Js.

(** Exceptions the embedded code can raise. [Error_ msg] is [throw Error(msg)]
    of the source; [Diverges] marks a loop of the source that does not
    terminate on the given store (the walk ran out of fuel). *)
Inductive Exception :=
| TypeError (msg : string)
| ReferenceError (msg : string)
| Error_ (msg : string)
| HierarchyRequestError
| InvalidCharacterError
| Diverges.

Inductive Completion (S A : Type) :=
| Ok (a : A) (s : S)
| Throw (e : Exception) (s : S).
Arguments Ok {S A} a s.
Arguments Throw {S A} e s.

Definition M (S A : Type) := S -> Completion S A.

Definition ret {S A} (a : A) : M S A := fun s => Ok a s.
Definition bind {S A B} (m : M S A) (k : A -> M S B) : M S B :=
  fun s => match m s with
           | Ok a s' => k a s'
           | Throw e s' => Throw e s'
           end.
Definition throw {S A} (e : Exception) : M S A := fun s => Throw e s.
Definition get {S} : M S S := fun s => Ok s s.
Definition put {S} (s : S) : M S unit := fun _ => Ok tt s.
Definition gets {S A} (f : S -> A) : M S A := fun s => Ok (f s) s.
Definition modify {S} (f : S -> S) : M S unit := fun s => Ok tt (f s).

(** [for (const x of xs) body(x)] *)
Fixpoint for_each {S A} (xs : list A) (body : A -> M S unit) : M S unit :=
  match xs with
  | [] => ret tt
  | x :: xs' => bind (body x) (fun _ => for_each xs' body)
  end.

(** A loop that threads a local variable of the enclosing function. *)
Fixpoint fold {S A L} (xs : list A) (body : A -> L -> M S L) (l : L) : M S L :=
  match xs with
  | [] => ret l
  | x :: xs' => bind (body x l) (fold xs' body)
  end.

(** The state a call leaves behind, whether it returned or threw. *)
Definition state_of {S A} (c : Completion S A) : S :=
  match c with Ok _ s => s | Throw _ s => s end.

(** Run a method of a component on the component's part of a larger state. *)
Definition zoom {S T A} (proj : S -> T) (inj : T -> S -> S) (m : M T A) : M S A :=
  fun s => match m (proj s) with
           | Ok a t => Ok a (inj t s)
           | Throw e t => Throw e (inj t s)
           end.

End Js.

Declare Scope js_scope.
Delimit Scope js_scope with js.
Notation "x <- m ;; k" := (Js.bind m (fun x => k))
  (at level 61, m at next level, right associativity) : js_scope.
Notation "' pat <- m ;; k" := (Js.bind m (fun x => match x with pat => k end))
  (at level 61, pat pattern, m at next level, right associativity) : js_scope.
Notation "m ;;; k" := (Js.bind m (fun _ => k))
  (at level 61, right associativity) : js_scope.
Open Scope js_scope.

(** ** Values shared by all components *)

(** DOM nodes are compared by identity; a node is its identifier. *)
Definition Node := nat.

(** References into the object store. *)
Definition MnRef := nat.       (* a [MutatedNode] object *)
Definition PromiseRef := nat.  (* a [SiblingPromise] object *)

Inductive Side := Prev | Next.
Inductive Mode := Original | Mutated.

(** The content of a [prev]/[next] slot of a position:
    [undefined] (never observed), [null] (end of the parent), a node, or a
    [SiblingPromise]. *)
Inductive Sibling :=
| s_undefined
| s_null
| s_node (n : Node)
| s_promise (p : PromiseRef).

(** Strict equality [===] on slot contents. *)
Definition Sibling_eqb (a b : Sibling) : bool :=
  match a, b with
  | s_undefined, s_undefined => true
  | s_null, s_null => true
  | s_node n, s_node m => Nat.eqb n m
  | s_promise p, s_promise q => Nat.eqb p q
  | _, _ => false
  end.

(** [Node | null] arguments such as [previousSibling]. *)
Definition of_nullable (n : option Node) : Sibling :=
  match n with Some x => s_node x | None => s_null end.

(** [xs[i] || fallback] for an array of nodes. *)
Definition nth_or (xs : list Node) (i : Z) (fallback : option Node) : Sibling :=
  if (i <? 0)%Z then of_nullable fallback
  else match nth_error xs (Z.to_nat i) with
       | Some x => s_node x
       | None => of_nullable fallback
       end.

Definition option_eqb {A} (eqb : A -> A -> bool) (a b : option A) : bool :=
  match a, b with
  | Some x, Some y => eqb x y
  | None, None => true
  | _, _ => false
  end.


(** [MutatedNode | Node | null | undefined]: the hints passed to
    [SiblingPromise.resume] and [#revert_check]. *)
Inductive Ref :=
| r_undefined
| r_null
| r_node (n : Node)
| r_mn (m : MnRef).

(** [mn || node] where [mn] is a [MutatedNode] or [undefined] and [node] is
    [Node | null]. *)
Definition mn_or (mn : option MnRef) (node : option Node) : Ref :=
  match mn, node with
  | Some r, _ => r_mn r
  | None, Some n => r_node n
  | None, None => r_null
  end.

Definition list_set {A} (i : nat) (x : A) (l : list A) : list A :=
  firstn i l ++ match skipn i l with [] => [] | _ :: tl => x :: tl end.

Definition is_some {A} (o : option A) : bool :=
  match o with Some _ => true | None => false end.

(** ** Position triples [{parent, prev, next}] *)

Module Position.
Record t := mk { parent : option Node; prev : Sibling; next : Sibling }.

(** [op[side]] *)
Definition get (d : Side) (p : t) : Sibling :=
  match d with Prev => prev p | Next => next p end.

(** [op[side] = v] *)
Definition set (d : Side) (v : Sibling) (p : t) : t :=
  match d with
  | Prev => mk (parent p) v (next p)
  | Next => mk (parent p) (prev p) v
  end.

(** The object literal [{parent}]: both siblings absent. [None] is a parent
    that was passed as [undefined]. *)
Definition of_parent (p : option Node) : t := mk p s_undefined s_undefined.
End Position.

(** ** class MutatedNode *)

Module MutatedNode.
Record t := mk {
  node : Node;
  original : option Position.t;   (* [null] is [None] *)
  mutated : option Position.t
}.

(** [new MutatedNode(node)] *)
Definition new (n : Node) : t := mk n None None.

(** [mn[mode]] *)
Definition get (m : Mode) (x : t) : option Position.t :=
  match m with Original => original x | Mutated => mutated x end.

Definition set (m : Mode) (p : option Position.t) (x : t) : t :=
  match m with
  | Original => mk (node x) p (mutated x)
  | Mutated => mk (node x) (original x) p
  end.
End MutatedNode.

(** ** The fields of class SiblingPromise. The [tree] field always points to
    the one enclosing [TreeMutations]; [resume_with] is only used by
    [TreeMutations.synchronize]. *)

Module PromiseObj.
Record t := mk {
  mn : MnRef;            (* origin record, searching for its original sibling *)
  dir : Side;            (* which sibling is searched *)
  ptr : option MnRef     (* record whose mutated slot holds the promise *)
}.
End PromiseObj.

(** ** The fields of class SiblingIndex: two maps, sibling node => record *)

Module IndexObj.
Record t := mk {
  prev : JsMap.t Node MnRef;
  next : JsMap.t Node MnRef
}.
Definition empty : t := mk JsMap.empty JsMap.empty.

(** [this[side]] *)
Definition get (d : Side) (i : t) : JsMap.t Node MnRef :=
  match d with Prev => prev i | Next => next i end.

Definition set (d : Side) (m : JsMap.t Node MnRef) (i : t) : t :=
  match d with Prev => mk m (next i) | Next => mk (prev i) m end.
End IndexObj.

(** ** The state of a [TreeMutations] instance, with the objects it reaches *)

Module Tree.
Record t := mk {
  floating : JsMap.t Node MnRef;
  original : IndexObj.t;
  mutated : IndexObj.t;
  mns : list MutatedNode.t;          (* store of MutatedNode objects *)
  promises : list PromiseObj.t       (* store of SiblingPromise objects *)
}.

(** [new TreeMutations()] *)
Definition new : t := mk JsMap.empty IndexObj.empty IndexObj.empty [] [].

Definition index (m : Mode) (s : t) : IndexObj.t :=
  match m with Original => original s | Mutated => mutated s end.

Definition set_index (m : Mode) (i : IndexObj.t) (s : t) : t :=
  match m with
  | Original => mk (floating s) i (mutated s) (mns s) (promises s)
  | Mutated => mk (floating s) (original s) i (mns s) (promises s)
  end.

Definition set_floating (f : JsMap.t Node MnRef) (s : t) : t :=
  mk f (original s) (mutated s) (mns s) (promises s).

Definition set_mns (l : list MutatedNode.t) (s : t) : t :=
  mk (floating s) (original s) (mutated s) l (promises s).

Definition set_promises (l : list PromiseObj.t) (s : t) : t :=
  mk (floating s) (original s) (mutated s) (mns s) l.

(** Dereference a [MutatedNode]. References are only created by [alloc_mn],
    so the failure branch is not reached from [new]. *)
Definition read_mn (r : MnRef) : Js.M t MutatedNode.t :=
  fun s => match nth_error (mns s) r with
           | Some x => Js.Ok x s
           | None => Js.Throw (Js.TypeError "dangling MutatedNode") s
           end.

Definition write_mn (r : MnRef) (x : MutatedNode.t) : Js.M t unit :=
  Js.modify (fun s => set_mns (list_set r x (mns s)) s).

Definition alloc_mn (x : MutatedNode.t) : Js.M t MnRef :=
  fun s => Js.Ok (List.length (mns s)) (set_mns (mns s ++ [x]) s).

Definition read_promise (p : PromiseRef) : Js.M t PromiseObj.t :=
  fun s => match nth_error (promises s) p with
           | Some x => Js.Ok x s
           | None => Js.Throw (Js.TypeError "dangling SiblingPromise") s
           end.

Definition write_promise (p : PromiseRef) (x : PromiseObj.t) : Js.M t unit :=
  Js.modify (fun s => set_promises (list_set p x (promises s)) s).

Definition alloc_promise (x : PromiseObj.t) : Js.M t PromiseRef :=
  fun s => Js.Ok (List.length (promises s)) (set_promises (promises s ++ [x]) s).

(** [this.floating.get(key)]: only nodes are ever keys of the map, so any
    other key ([null], [undefined], a promise) is absent. *)
Definition floating_get (k : Sibling) : Js.M t (option MnRef) :=
  Js.gets (fun s => match k with
                    | s_node n => JsMap.get n (floating s)
                    | _ => None
                    end).

(** [mn[mode]], throwing like a property access on [null] would. *)
Definition position (m : Mode) (r : MnRef) (what : string) : Js.M t Position.t :=
  x <- read_mn r ;;
  match MutatedNode.get m x with
  | Some p => Js.ret p
  | None => Js.throw (Js.TypeError what)
  end.

(** [mn[mode][side] = v] *)
Definition set_slot (m : Mode) (r : MnRef) (d : Side) (v : Sibling) (what : string)
  : Js.M t unit :=
  x <- read_mn r ;;
  match MutatedNode.get m x with
  | Some p => write_mn r (MutatedNode.set m (Some (Position.set d v p)) x)
  | None => Js.throw (Js.TypeError what)
  end.

(** Bound on the length of a walk along sibling links that visits no record
    twice. *)
Definition fuel (s : t) : nat := 2 + List.length (mns s).

(** Bound on the length of a walk that takes records out of the floating
    set as it goes and visits no record twice between two removals. *)
Definition fuel_removing (s : t) : nat := fuel s * fuel s.
End Tree.

(** ** class SiblingIndex (methods) *)

Module SiblingIndex.

(** [#index(sibling)]: truthy and not a promise, that is, a node. *)
Definition index (s : Sibling) : option Node :=
  match s with s_node n => Some n | _ => None end.

(** [this[side].delete(key)] on the index of [mode] *)
Definition map_delete (mode : Mode) (d : Side) (k : Node) : Js.M Tree.t unit :=
  Js.modify (fun s =>
    let i := Tree.index mode s in
    Tree.set_index mode (IndexObj.set d (JsMap.delete k (IndexObj.get d i)) i) s).

(** [this[side].set(key, node)] *)
Definition map_set (mode : Mode) (d : Side) (k : Node) (r : MnRef) : Js.M Tree.t unit :=
  Js.modify (fun s =>
    let i := Tree.index mode s in
    Tree.set_index mode (IndexObj.set d (JsMap.set k r (IndexObj.get d i)) i) s).

(** [this[side].get(key)] *)
Definition map_get (mode : Mode) (d : Side) (k : Sibling) : Js.M Tree.t (option MnRef) :=
  Js.gets (fun s => match k with
                    | s_node n => JsMap.get n (IndexObj.get d (Tree.index mode s))
                    | _ => None
                    end).

Definition remove (mode : Mode) (r : MnRef) : Js.M Tree.t unit :=
  x <- Tree.read_mn r ;;
  match MutatedNode.get mode x with
  | None => Js.ret tt
  | Some op =>
      match index (Position.prev op) with
      | Some k => map_delete mode Prev k
      | None => Js.ret tt
      end ;;;
      match index (Position.next op) with
      | Some k => map_delete mode Next k
      | None => Js.ret tt
      end
  end.

Definition add (mode : Mode) (r : MnRef) : Js.M Tree.t unit :=
  x <- Tree.read_mn r ;;
  match MutatedNode.get mode x with
  | None => Js.ret tt
  | Some op =>
      match index (Position.prev op) with
      | Some k => map_set mode Prev k r
      | None => Js.ret tt
      end ;;;
      match index (Position.next op) with
      | Some k => map_set mode Next k r
      | None => Js.ret tt
      end
  end.

Definition update (mode : Mode) (r : MnRef) (sibling : Sibling) (side : Side)
    (parent : option Node) : Js.M Tree.t unit :=
  x <- Tree.read_mn r ;;
  op <- match MutatedNode.get mode x with
        | Some op => Js.ret op
        | None =>
            (* there was an untracked node insertion *)
            let op := Position.of_parent parent in
            Tree.write_mn r (MutatedNode.set mode (Some op) x) ;;; Js.ret op
        end ;;
  let old := Position.get side op in
  if Sibling_eqb old sibling then Js.ret tt
  else
    Tree.set_slot mode r side sibling "update" ;;;
    match index old with
    | Some k => map_delete mode side k
    | None => Js.ret tt
    end ;;;
    match index sibling with
    | Some k => map_set mode side k r
    | None => Js.ret tt
    end.

(** [clear()] empties both maps of both indexes; see [TreeMutations.clear]. *)
End SiblingIndex.

(** ** class SiblingPromise (methods) *)

Module SiblingPromise.

(** [new SiblingPromise(tree, mn, dir)] *)
Definition new (mn : MnRef) (dir : Side) : Js.M Tree.t PromiseRef :=
  Tree.alloc_promise (PromiseObj.mk mn dir None).

(** [get origin(){ return this.mn.node; }] *)
Definition origin (p : PromiseRef) : Js.M Tree.t Node :=
  o <- Tree.read_promise p ;;
  x <- Tree.read_mn (PromiseObj.mn o) ;;
  Js.ret (MutatedNode.node x).

(** [resolve(node)] *)
Definition resolve (p : PromiseRef) (node : Sibling) : Js.M Tree.t unit :=
  o <- Tree.read_promise p ;;
  SiblingIndex.update Original (PromiseObj.mn o) node (PromiseObj.dir o) None.

(** [discard()] *)
Definition discard (p : PromiseRef) : Js.M Tree.t unit :=
  o <- Tree.read_promise p ;;
  match PromiseObj.ptr o with
  | Some r => Tree.set_slot Mutated r (PromiseObj.dir o) s_undefined "discard"
  | None => Js.ret tt
  end.

(** The [while (true)] loop of [resume]: [smn] and [node] are the loop
    variables. When [smn] is a record, [node] is not read before it is
    assigned. *)
Fixpoint resume_loop (fuel : nat) (p : PromiseRef) (smn : option MnRef) (node : Sibling)
  : Js.M Tree.t bool :=
  match smn with
  | None =>
      (* resolve: promise -> fixed (node) *)
      resolve p node ;;; Js.ret true
  | Some r =>
      match fuel with
      | O => Js.throw Js.Diverges
      | S fuel' =>
          o <- Tree.read_promise p ;;
          x <- Tree.read_mn r ;;
          m <- match MutatedNode.mutated x with
               | Some m => Js.ret m
               | None =>
                   (* this node had an untracked add *)
                   op <- Tree.position Original (PromiseObj.mn o) "this.mn.original.parent" ;;
                   let m := Position.of_parent (Position.parent op) in
                   Tree.write_mn r (MutatedNode.set Mutated (Some m) x) ;;; Js.ret m
               end ;;
          let node' := Position.get (PromiseObj.dir o) m in
          match node' with
          | s_undefined =>
              Tree.set_slot Mutated r (PromiseObj.dir o) (s_promise p) "resume" ;;;
              Tree.write_promise p (PromiseObj.mk (PromiseObj.mn o) (PromiseObj.dir o) (Some r)) ;;;
              Js.ret false
          | s_null =>
              resolve p s_null ;;; Js.ret true
          | _ =>
              smn' <- Tree.floating_get node' ;;
              resume_loop fuel' p smn' node'
          end
      end
  end.

(** [resume(node)] *)
Definition resume (p : PromiseRef) (node : Ref) : Js.M Tree.t bool :=
  match node with
  | r_null => resolve p s_null ;;; Js.ret true
  | r_mn r => s <- Js.get ;; resume_loop (Tree.fuel s) p (Some r) s_undefined
  | r_node n =>
      smn <- Tree.floating_get (s_node n) ;;
      s <- Js.get ;; resume_loop (Tree.fuel s) p smn (s_node n)
  | r_undefined =>
      s <- Js.get ;; resume_loop (Tree.fuel s) p None s_undefined
  end.

End SiblingPromise.

(** ** class TreeMutations (methods) *)

Module TreeMutations.

(** [clear()] *)
Definition clear : Js.M Tree.t unit :=
  Js.modify (fun s =>
    Tree.mk JsMap.empty IndexObj.empty IndexObj.empty (Tree.mns s) (Tree.promises s)).

(** [get size()] *)
Definition size (s : Tree.t) : nat := JsMap.size (Tree.floating s).
(** [has(node)] *)
Definition has (node : Node) (s : Tree.t) : bool := JsMap.has node (Tree.floating s).
(** [get(node)] *)
Definition get (node : Node) (s : Tree.t) : option MnRef := JsMap.get node (Tree.floating s).
(** [nodes()] *)
Definition nodes (s : Tree.t) : list Node := JsMap.keys (Tree.floating s).
(** [mutations()] *)
Definition mutations (s : Tree.t) : list MnRef := JsMap.values (Tree.floating s).

(** *** [mutation(parent, removed, added, prev, next)] *)

(** The local variables of [mutation] that its closures assign. *)
Record Locals := mkLocals {
  revert_possible : bool;
  siblings_known : bool;
  candidates : list MnRef;
  resolved : JsMap.t MnRef Z;
  last_fixed : Sibling;                 (* [undefined], [null] or a node *)
  last_promise : option PromiseRef;     (* falsy is [None] *)
  prev_mn : option MnRef;
  fixed : list MnRef
}.

Definition init_locals : Locals :=
  mkLocals false false [] JsMap.empty s_undefined None None [].

Definition set_revert_possible (b : bool) (l : Locals) : Locals :=
  mkLocals b (siblings_known l) (candidates l) (resolved l) (last_fixed l)
    (last_promise l) (prev_mn l) (fixed l).
Definition set_siblings_known (b : bool) (l : Locals) : Locals :=
  mkLocals (revert_possible l) b (candidates l) (resolved l) (last_fixed l)
    (last_promise l) (prev_mn l) (fixed l).
Definition set_candidates (c : list MnRef) (l : Locals) : Locals :=
  mkLocals (revert_possible l) (siblings_known l) c (resolved l) (last_fixed l)
    (last_promise l) (prev_mn l) (fixed l).
Definition set_resolved (r : JsMap.t MnRef Z) (l : Locals) : Locals :=
  mkLocals (revert_possible l) (siblings_known l) (candidates l) r (last_fixed l)
    (last_promise l) (prev_mn l) (fixed l).
Definition set_last_fixed (f : Sibling) (l : Locals) : Locals :=
  mkLocals (revert_possible l) (siblings_known l) (candidates l) (resolved l) f
    (last_promise l) (prev_mn l) (fixed l).
Definition set_last_promise (p : option PromiseRef) (l : Locals) : Locals :=
  mkLocals (revert_possible l) (siblings_known l) (candidates l) (resolved l)
    (last_fixed l) p (prev_mn l) (fixed l).
Definition set_prev_mn (m : option MnRef) (l : Locals) : Locals :=
  mkLocals (revert_possible l) (siblings_known l) (candidates l) (resolved l)
    (last_fixed l) (last_promise l) m (fixed l).
Definition set_fixed (f : list MnRef) (l : Locals) : Locals :=
  mkLocals (revert_possible l) (siblings_known l) (candidates l) (resolved l)
    (last_fixed l) (last_promise l) (prev_mn l) f.

(** [resolved.set(promise.mn, 0)] *)
Definition resolved_set (p : PromiseRef) (l : Locals) : Js.M Tree.t Locals :=
  o <- Tree.read_promise p ;;
  Js.ret (set_resolved (JsMap.set (PromiseObj.mn o) 0%Z (resolved l)) l).

(** The [handle_prev] block of [handle_promises]. [m] is [mn.mutated] read on
    entry; the [prev] slot of [m] is not written by any call made here, so the
    promise read first is the one the later [m.prev] expressions denote. *)
Definition handle_prev_block (r : MnRef) (l : Locals) : Js.M Tree.t Locals :=
  x <- Tree.read_mn r ;;
  match MutatedNode.mutated x with
  | None => Js.ret l
  | Some m =>
      match Position.prev m with
      | s_undefined => Js.ret (set_siblings_known true l)
      | s_promise p =>
          match last_promise l with
          | Some lp =>
              (* joint resolve: promise -> <- promise *)
              po <- SiblingPromise.origin p ;;
              SiblingPromise.resolve lp (s_node po) ;;;
              lpo <- SiblingPromise.origin lp ;;
              SiblingPromise.resolve p (s_node lpo) ;;;
              l <- resolved_set lp l ;;
              l <- resolved_set p l ;;
              Js.ret (set_last_promise None l)
          | None =>
              match last_fixed l with
              | s_undefined =>
                  (* resume: floating node <- first promise *)
                  b <- SiblingPromise.resume p
                         (match prev_mn l with Some q => r_mn q | None => r_undefined end) ;;
                  if b then resolved_set p l else Js.ret l
              | lf =>
                  (* resolve: fixed node <- promise *)
                  SiblingPromise.resolve p lf ;;;
                  resolved_set p l
              end
          end
      | _ => Js.ret l
      end
  end.

(** The [handle_next] block and its [else if (last_promise)] branch.
    [m_set] tells whether [m] was non-null on entry of [handle_promises]. *)
Definition handle_next_block (r : MnRef) (handle_next m_set : bool) (l : Locals)
  : Js.M Tree.t Locals :=
  if handle_next then
    if m_set then
      m <- Tree.position Mutated r "m.next" ;;
      match Position.next m with
      | s_undefined => Js.ret (set_siblings_known true l)
      | s_promise q => Js.ret (set_last_promise (Some q) l)
      | _ => Js.ret l
      end
    else Js.ret l
  else
    match last_promise l with
    | Some lp =>
        (* resume: last promise -> floating node *)
        b <- SiblingPromise.resume lp (r_mn r) ;;
        if b then resolved_set lp l else Js.ret l
    | None => Js.ret l
    end.

(** [handle_promises(node, handle_prev, handle_next)] *)
Definition handle_promises (node : option Node) (handle_prev handle_next : bool)
    (l : Locals) : Js.M Tree.t (option MnRef * Locals) :=
  mn <- Tree.floating_get (of_nullable node) ;;
  match mn with
  | Some r =>
      x <- Tree.read_mn r ;;
      let m_set := is_some (MutatedNode.mutated x) in
      l <- (if handle_prev then handle_prev_block r l else Js.ret l) ;;
      l <- handle_next_block r handle_next m_set l ;;
      Js.ret (Some r, l)
  | None =>
      let l := set_last_fixed (of_nullable node) l in
      match last_promise l with
      | Some lp =>
          (* resolve: promise -> fixed node *)
          SiblingPromise.resolve lp (of_nullable node) ;;;
          l <- resolved_set lp l ;;
          Js.ret (None, set_last_promise None l)
      | None => Js.ret (None, l)
      end
  end.

(** Body of [for (const node of removed)] *)
Definition ingest_removed (parent : Node) (node : Node) (l : Locals)
  : Js.M Tree.t Locals :=
  ' (mn, l) <- handle_promises (Some node) true true l ;;
  match mn with
  | Some r =>
      (* (floating) previously moved node *)
      SiblingIndex.remove Mutated r ;;;
      x <- Tree.read_mn r ;;
      match MutatedNode.original x with
      | None =>
          (* case: add + remove; ops cancel out *)
          Js.modify (fun s => Tree.set_floating (JsMap.delete node (Tree.floating s)) s) ;;;
          Js.ret l
      | Some o =>
          (* case: (remove + add)* + remove *)
          Tree.write_mn r (MutatedNode.set Mutated None x) ;;;
          if option_eqb Nat.eqb (Position.parent o) (Some parent)
          then Js.ret (set_revert_possible true l)
          else Js.ret l
      end
  | None =>
      (* (fixed) newly removed *)
      r <- Tree.alloc_mn (MutatedNode.mk node (Some (Position.of_parent (Some parent))) None) ;;
      Js.modify (fun s => Tree.set_floating (JsMap.set node r (Tree.floating s)) s) ;;;
      Js.ret (set_revert_possible true (set_fixed (fixed l ++ [r]) l))
  end.

(** [x?.mutated?.[side]] for [x] a record or [undefined] *)
Definition opt_mutated_slot (mn : option MnRef) (d : Side) : Js.M Tree.t Sibling :=
  match mn with
  | None => Js.ret s_undefined
  | Some r =>
      x <- Tree.read_mn r ;;
      Js.ret match MutatedNode.mutated x with
             | Some m => Position.get d m
             | None => s_undefined
             end
  end.

(** [for (const mn of resolved.keys()) if (mn.mutated?.parent !== parent)
    resolved.delete(mn)] *)
Definition filter_resolved (parent : Node) (l : Locals) : Js.M Tree.t Locals :=
  Js.fold (JsMap.keys (resolved l))
    (fun r l =>
       x <- Tree.read_mn r ;;
       let p := match MutatedNode.mutated x with
                | Some m => Position.parent m
                | None => None
                end in
       if option_eqb Nat.eqb p (Some parent) then Js.ret l
       else Js.ret (set_resolved (JsMap.delete r (resolved l)) l))
    l.

(** [original_promise_sibling(forward_dir, backward_dir, hint)], with the
    captured variable [fprev] passed as an argument. *)
Definition original_promise_sibling (fprev : MnRef) (forward_dir backward_dir : Side)
    (hint : Ref) : Js.M Tree.t unit :=
  x <- Tree.read_mn fprev ;;
  sibling <- SiblingIndex.map_get Original backward_dir (s_node (MutatedNode.node x)) ;;
  match sibling with
  | None =>
      p <- SiblingPromise.new fprev forward_dir ;;
      b <- SiblingPromise.resume p hint ;;
      (* returns true when it resolves immediately; original will be set *)
      if b then Js.ret tt
      else Tree.set_slot Original fprev forward_dir (s_promise p) "fprev.original"
  | Some sr =>
      sx <- Tree.read_mn sr ;;
      Tree.set_slot Original fprev forward_dir (s_node (MutatedNode.node sx)) "fprev.original"
  end.

(** Body of [for (let fi=1; fi<fixed.length; fi++)]; returns the new [fprev]. *)
Definition link_adjacent_fixed (fnext : MnRef) (fprev : MnRef) : Js.M Tree.t MnRef :=
  px <- Tree.read_mn fprev ;;
  nx <- Tree.read_mn fnext ;;
  sibling <- SiblingIndex.map_get Original Prev (s_node (MutatedNode.node px)) ;;
  match sibling with
  | Some sr =>
      (* original sibling(s) were removed from in between fprev-fnext *)
      sx <- Tree.read_mn sr ;;
      Tree.set_slot Original fprev Next (s_node (MutatedNode.node sx)) "fprev.original" ;;;
      other <- SiblingIndex.map_get Original Next (s_node (MutatedNode.node nx)) ;;
      match other with
      | Some orf =>
          ox <- Tree.read_mn orf ;;
          Tree.set_slot Original fnext Prev (s_node (MutatedNode.node ox)) "fnext.original"
      | None => Js.throw (Js.TypeError "this.original.next.get(fnext.node) is undefined")
      end
  | None =>
      (* fprev-fnext are eachother's original sibling *)
      Tree.set_slot Original fprev Next (s_node (MutatedNode.node nx)) "fprev.original" ;;;
      Tree.set_slot Original fnext Prev (s_node (MutatedNode.node px)) "fnext.original"
  end ;;;
  SiblingIndex.add Original fprev ;;;
  Js.ret fnext.

(** [if (fixed.length){ ... }]: original siblings of newly removed nodes *)
Definition set_original_siblings (prev next : option Node) (next_mn : option MnRef)
    (l : Locals) : Js.M Tree.t unit :=
  match fixed l with
  | [] => Js.ret tt
  | f0 :: rest =>
      original_promise_sibling f0 Prev Next (mn_or (prev_mn l) prev) ;;;
      fprev <- Js.fold rest link_adjacent_fixed f0 ;;
      original_promise_sibling fprev Next Prev (mn_or next_mn next) ;;;
      SiblingIndex.add Original fprev
  end.

(** Body of [for (let ai=0; ai<added.length; ai++)] *)
Definition ingest_added (parent : Node) (added : list Node) (prev next : option Node)
    (ai : nat) (l : Locals) : Js.M Tree.t Locals :=
  match nth_error added ai with
  | None => Js.ret l
  | Some node =>
      mn <- Tree.floating_get (s_node node) ;;
      ' (r, l) <-
        match mn with
        | None =>
            (* case: add *)
            r <- Tree.alloc_mn (MutatedNode.new node) ;;
            Js.modify (fun s => Tree.set_floating (JsMap.set node r (Tree.floating s)) s) ;;;
            Js.ret (r, l)
        | Some r =>
            (* case: remove + add *)
            o <- Tree.position Original r "mn.original.parent" ;;
            if option_eqb Nat.eqb (Position.parent o) (Some parent)
            then Js.ret (r, set_candidates (candidates l ++ [r]) l)
            else Js.ret (r, l)
        end ;;
      x <- Tree.read_mn r ;;
      Tree.write_mn r (MutatedNode.set Mutated
        (Some (Position.mk (Some parent)
                 (nth_or added (Z.of_nat ai - 1) prev)
                 (nth_or added (Z.of_nat ai + 1) next))) x) ;;;
      SiblingIndex.add Mutated r ;;;
      Js.ret l
  end.

(** [mark_reverted(mn, reverted, side)], the callback given to
    [#revert_check]; it updates the local map [resolved]. For the call
    [cbk(mn, true)] the [side] argument is [undefined] ([None]). *)
Definition mark_reverted (mn : MnRef) (reverted : bool) (side : option Side)
    (resolved : JsMap.t MnRef Z) : JsMap.t MnRef Z :=
  match JsMap.get mn resolved with
  | None => resolved
  | Some flags =>
      let bit := match side with Some Prev => 1%Z | _ => 2%Z end in
      let flags := Z.land flags bit in
      if reverted || (flags =? 3)%Z then JsMap.delete mn resolved
      else JsMap.set mn flags resolved
  end.

(** [mn.original?.parent === parent] *)
Definition originates_in (parent : Node) (x : MutatedNode.t) : bool :=
  match MutatedNode.original x with
  | Some o => option_eqb Nat.eqb (Position.parent o) (Some parent)
  | None => false
  end.

(** Result of [fixed_anchor]: [{fixed}] or [{floating}]; [undefined] is [None]. *)
Inductive Anchor :=
| a_fixed (s : Sibling)
| a_floating (mn : MnRef).

(** The [while (true)] loop of [fixed_anchor] *)
Fixpoint fixed_anchor_loop (fuel : nat) (parent : Node) (dir : Side) (mn : MnRef)
  : Js.M Tree.t (option Anchor) :=
  match fuel with
  | O => Js.throw Js.Diverges
  | S fuel' =>
      x <- Tree.read_mn mn ;;
      match MutatedNode.mutated x with
      | None => Js.ret None
      | Some m =>
          match Position.get dir m with
          | s_undefined | s_promise _ => Js.ret None
          | s_null => Js.ret (Some (a_fixed s_null))
          | s_node n =>
              mn' <- Tree.floating_get (s_node n) ;;
              match mn' with
              | None => Js.ret (Some (a_fixed (s_node n)))
              | Some r =>
                  y <- Tree.read_mn r ;;
                  if originates_in parent y then Js.ret (Some (a_floating r))
                  else fixed_anchor_loop fuel' parent dir r
              end
          end
      end
  end.

(** [fixed_anchor(mn, exclusive, dir)]; [exclusive] is an element of
    [candidates], [undefined] when the array is empty. *)
Definition fixed_anchor (parent : Node) (mn : Ref) (exclusive : option MnRef) (dir : Side)
  : Js.M Tree.t (option Anchor) :=
  match mn, exclusive with
  | r_undefined, None => Js.ret None                      (* mn === exclusive *)
  | r_mn r, Some e =>
      if Nat.eqb r e then Js.ret None                     (* mn === exclusive *)
      else
        x <- Tree.read_mn r ;;
        if originates_in parent x then Js.ret (Some (a_floating r))
        else s <- Js.get ;; fixed_anchor_loop (Tree.fuel s) parent dir r
  | r_mn r, None =>
      x <- Tree.read_mn r ;;
      if originates_in parent x then Js.ret (Some (a_floating r))
      else s <- Js.get ;; fixed_anchor_loop (Tree.fuel s) parent dir r
  | r_null, _ => Js.ret (Some (a_fixed s_null))
  | r_node n, _ => Js.ret (Some (a_fixed (s_node n)))
  | r_undefined, Some e =>
      s <- Js.get ;; fixed_anchor_loop (Tree.fuel s) parent dir e
  end.

(** [extend] argument of [propagate]: a boolean or a hint *)
Inductive Extend :=
| e_false
| e_true
| e_ref (r : Ref).

(** [mark_fixed()] inside [propagate], acting on the captured [mn]; returns
    the new value of the captured [fixed]. *)
Definition mark_fixed (forward_dir : Side) (mn : MnRef) (resolved : JsMap.t MnRef Z)
  : Js.M Tree.t (Sibling * JsMap.t MnRef Z) :=
  x <- Tree.read_mn mn ;;
  Js.modify (fun s =>
    Tree.set_floating (JsMap.delete (MutatedNode.node x) (Tree.floating s)) s) ;;;
  SiblingIndex.remove Original mn ;;;
  SiblingIndex.remove Mutated mn ;;;
  o <- Tree.position Original mn "mn.original[forward_dir]" ;;
  match Position.get forward_dir o with
  | s_promise fp => SiblingPromise.discard fp
  | _ => Js.ret tt
  end ;;;
  Js.ret (s_node (MutatedNode.node x), mark_reverted mn true None resolved).

(** Outcome of the first loop of [propagate]: it either executed
    [return idx] or ran to completion with these values of the captured
    variables. *)
Inductive CandLoop :=
| Stopped (idx : Z) (resolved : JsMap.t MnRef Z)
| Finished (fixed : Sibling) (mn : option MnRef) (resolved : JsMap.t MnRef Z).

(** [for (; idx != end_idx; idx += inc)]; [steps] is [|end_idx - idx|]. *)
Fixpoint propagate_candidates (steps : nat) (cands : list MnRef)
    (forward_dir backward_dir : Side) (idx inc : Z)
    (fixed : Sibling) (mn : option MnRef) (resolved : JsMap.t MnRef Z)
  : Js.M Tree.t CandLoop :=
  match steps with
  | O => Js.ret (Finished fixed mn resolved)
  | S steps' =>
      match (if (idx <? 0)%Z then None else nth_error cands (Z.to_nat idx)) with
      | None => Js.throw (Js.TypeError "candidates[idx] is undefined")
      | Some r =>
          o <- Tree.position Original r "mn.original[backward_dir]" ;;
          if negb (Sibling_eqb (Position.get backward_dir o) fixed) then
            (* incorrect sibling; can try from other side instead *)
            Js.ret (Stopped idx (mark_reverted r false (Some backward_dir) resolved))
          else
            ' (fixed, resolved) <- mark_fixed forward_dir r resolved ;;
            propagate_candidates steps' cands forward_dir backward_dir
              (idx + inc) inc fixed (Some r) resolved
      end
  end.

(** The [while (true)] loop of [propagate] together with its inner
    [do ... while]: one step reads [mn.mutated[forward_dir]], leaves both
    loops unless it is a floating node, skips it when it originates in
    another parent, and otherwise either stops or marks it fixed. *)
Fixpoint propagate_beyond (fuel : nat) (parent : Node) (forward_dir backward_dir : Side)
    (mn : MnRef) (fixed : Sibling) (resolved : JsMap.t MnRef Z)
  : Js.M Tree.t (JsMap.t MnRef Z) :=
  match fuel with
  | O => Js.throw Js.Diverges
  | S fuel' =>
      m <- Tree.position Mutated mn "mn.mutated[forward_dir]" ;;
      match Position.get forward_dir m with
      | s_node n =>
          mn' <- Tree.floating_get (s_node n) ;;
          match mn' with
          | None => Js.ret resolved
          | Some r =>
              y <- Tree.read_mn r ;;
              if originates_in parent y then
                o <- Tree.position Original r "mn.original[backward_dir]" ;;
                if negb (Sibling_eqb (Position.get backward_dir o) fixed) then
                  Js.ret (mark_reverted r false (Some backward_dir) resolved)
                else
                  ' (fixed, resolved) <- mark_fixed forward_dir r resolved ;;
                  propagate_beyond fuel' parent forward_dir backward_dir r fixed resolved
              else
                propagate_beyond fuel' parent forward_dir backward_dir r fixed resolved
          end
      | _ => Js.ret resolved
      end
  end.

(** [propagate(fixed, idx, end_idx, forward_dir, backward_dir, extend)];
    returns the index it stopped at ([null] is [None]) and [resolved]. *)
Definition propagate (parent : Node) (cands : list MnRef) (fixed : Sibling)
    (idx end_idx : Z) (forward_dir backward_dir : Side) (extend : Extend)
    (resolved : JsMap.t MnRef Z)
  : Js.M Tree.t (option Z * JsMap.t MnRef Z) :=
  let inc := Z.sgn (end_idx - idx) in
  c <- propagate_candidates (Z.to_nat (Z.abs (end_idx - idx))) cands
         forward_dir backward_dir idx inc fixed None resolved ;;
  match c with
  | Stopped i resolved => Js.ret (Some i, resolved)
  | Finished fixed mn resolved =>
      match extend with
      | e_false => Js.ret (None, resolved)
      | e_true =>
          match mn with
          | None => Js.throw (Js.TypeError "mn is undefined")
          | Some r =>
              s <- Js.get ;;
              resolved <- propagate_beyond (Tree.fuel_removing s) parent forward_dir backward_dir
                            r fixed resolved ;;
              Js.ret (None, resolved)
          end
      | e_ref (r_mn r) =>
          x <- Tree.read_mn r ;;
          if originates_in parent x then
            o <- Tree.position Original r "mn.original[backward_dir]" ;;
            if negb (Sibling_eqb (Position.get backward_dir o) fixed) then
              Js.ret (None, mark_reverted r false (Some backward_dir) resolved)
            else
              ' (fixed, resolved) <- mark_fixed forward_dir r resolved ;;
              s <- Js.get ;;
              resolved <- propagate_beyond (Tree.fuel_removing s) parent forward_dir backward_dir
                            r fixed resolved ;;
              Js.ret (None, resolved)
          else
            s <- Js.get ;;
            resolved <- propagate_beyond (Tree.fuel_removing s) parent forward_dir backward_dir
                          r fixed resolved ;;
            Js.ret (None, resolved)
      | e_ref _ =>
          (* other side is a fixed node *)
          Js.ret (None, resolved)
      end
  end.

(** [#revert_check(candidates, parent, cbk, prev, next)] with
    [cbk = mark_reverted]; returns the updated [resolved]. *)
Definition revert_check (cands : list MnRef) (parent : Node)
    (resolved : JsMap.t MnRef Z) (prev next : Ref)
  : Js.M Tree.t (JsMap.t MnRef Z) :=
  (* propagate next *)
  anchor <- fixed_anchor parent next (last (map Some cands) None) Next ;;
  ' (go_on, cands, next_end_idx, resolved) <-
    match anchor with
    | Some (a_fixed f) =>
        (* fixed anchor found *)
        ' (next_end_idx, resolved) <-
          propagate parent cands f (Z.of_nat (List.length cands) - 1) (-1) Prev Next
            (match prev with r_undefined => e_true | _ => e_ref prev end) resolved ;;
        Js.ret (is_some next_end_idx, cands, next_end_idx, resolved)
    | Some (a_floating r) =>
        (* floating node can be a candidate when propagating from prev side *)
        Js.ret (true, cands ++ [r], None, resolved)
    | None => Js.ret (true, cands, None, resolved)
    end ;;
  if negb go_on then Js.ret resolved
  else
    match cands with
    | [] => Js.ret resolved
    | c0 :: _ =>
        (* propagate prev *)
        anchor <- fixed_anchor parent prev (Some c0) Prev ;;
        match anchor with
        | Some (a_fixed f) =>
            ' (_, resolved) <-
              match next_end_idx with
              | None =>
                  propagate parent cands f 0 (Z.of_nat (List.length cands)) Next Prev
                    e_true resolved
              | Some i =>
                  propagate parent cands f 0 (i + 1) Next Prev e_false resolved
              end ;;
            Js.ret resolved
        | _ => Js.ret resolved
        end
    end.

(** *** [#assert_valid_state()] *)

(** Per-promise references collected by the first pass:
    [{mutated: [], original: []}] *)
Record PromiseRefs := mkRefs {
  refs_mutated : list MnRef;
  refs_original : list MnRef
}.

Definition refs_push (mode : Mode) (r : MnRef) (x : PromiseRefs) : PromiseRefs :=
  match mode with
  | Mutated => mkRefs (refs_mutated x ++ [r]) (refs_original x)
  | Original => mkRefs (refs_mutated x) (refs_original x ++ [r])
  end.

(** Body of [for (const dir of ["prev","next"])] in the first pass *)
Definition check_slot (mn : MnRef) (mode : Mode) (mnm : Position.t) (dir : Side)
    (promises : JsMap.t PromiseRef PromiseRefs)
  : Js.M Tree.t (JsMap.t PromiseRef PromiseRefs) :=
  let mval := Position.get dir mnm in
  gval <- SiblingIndex.map_get mode dir mval ;;
  (* save promises for checking them later *)
  let promises :=
    match mval with
    | s_promise p =>
        let store := match JsMap.get p promises with
                     | Some st => st
                     | None => mkRefs [] []
                     end in
        JsMap.set p (refs_push mode mn store) promises
    | _ => promises
    end in
  match mval with
  | s_node _ =>
      (* index correct? *)
      if option_eqb Nat.eqb gval (Some mn) then Js.ret promises
      else Js.throw (Js.Error_ "indexed sibling doesn't match MutatedNode")
  | _ =>
      (* these don't get indexed *)
      match gval with
      | None => Js.ret promises
      | Some _ => Js.throw (Js.Error_ "null/SiblingPromise sibling is being indexed")
      end
  end.

(** Body of [for (const mode of ["original","mutated"])] *)
Definition check_mode (mn : MnRef) (mode : Mode)
    (promises : JsMap.t PromiseRef PromiseRefs)
  : Js.M Tree.t (JsMap.t PromiseRef PromiseRefs) :=
  x <- Tree.read_mn mn ;;
  match MutatedNode.get mode x with
  | None => Js.ret promises
  | Some mnm =>
      promises <- check_slot mn mode mnm Prev promises ;;
      check_slot mn mode mnm Next promises
  end.

(** Body of [for (const [promise, refs] of promises.entries())] *)
Definition check_promise (entry : PromiseRef * PromiseRefs) : Js.M Tree.t unit :=
  let '(promise, refs) := entry in
  o <- Tree.read_promise promise ;;
  match PromiseObj.ptr o with
  | None => Js.throw (Js.Error_ "promise pointer is not MutatedNode")
  | Some ptr =>
      match refs_mutated refs with
      | [] => Js.throw (Js.Error_ "promise doesn't have a mutated pointer")
      | _ :: _ :: _ => Js.throw (Js.Error_ "promise has multiple mutated pointers")
      | [m0] =>
          if negb (Nat.eqb ptr m0) then Js.throw (Js.Error_ "promise pointer is incorrect")
          else
            match refs_original refs with
            | [] => Js.throw (Js.Error_ "promise origin was resolved, but pointer still set")
            | _ :: _ :: _ => Js.throw (Js.Error_ "promise has multiple origins")
            | [_] => Js.ret tt
            end
      end
  end.

(** The [while (true)] loop of [check_anchor]; [sibling] is the loop
    variable, [target] and [parent] are fixed. *)
Fixpoint check_anchor_loop (fuel : nat) (parent : option Node) (target : Sibling)
    (dir : Side) (sibling : Sibling) : Js.M Tree.t unit :=
  match fuel with
  | O => Js.throw Js.Diverges
  | S fuel' =>
      smn <- Tree.floating_get sibling ;;
      match smn with
      | None =>
          (* fixed found *)
          if Sibling_eqb target sibling then Js.throw (Js.Error_ "node position is reverted")
          else Js.ret tt
      | Some r =>
          y <- Tree.read_mn r ;;
          (* sibling is not fixed *)
          if match MutatedNode.original y with
             | Some o => option_eqb Nat.eqb (Position.parent o) parent
             | None => option_eqb Nat.eqb None parent
             end
          then Js.ret tt
          else
            (* can't traverse to get a fixed anchor *)
            match MutatedNode.mutated y with
            | None => Js.ret tt
            | Some m =>
                match Position.get dir m with
                | s_undefined | s_promise _ => Js.ret tt
                | sibling' => check_anchor_loop fuel' parent target dir sibling'
                end
            end
      end
  end.

(** [check_anchor(smn, dir)]; the caller has checked that [smn.original] and
    [smn.mutated] are set. *)
Definition check_anchor (smn : MnRef) (dir : Side) : Js.M Tree.t unit :=
  o <- Tree.position Original smn "smn.original" ;;
  m <- Tree.position Mutated smn "smn.mutated" ;;
  s <- Js.get ;;
  check_anchor_loop (Tree.fuel s) (Position.parent o) (Position.get dir o) dir
    (Position.get dir m).

(** Body of the last loop: [for (const mn of this.mutations())] *)
Definition check_reverted (mn : MnRef) : Js.M Tree.t unit :=
  x <- Tree.read_mn mn ;;
  match MutatedNode.mutated x, MutatedNode.original x with
  | Some m, Some o =>
      (* candidate for being reverted? *)
      if option_eqb Nat.eqb (Position.parent m) (Position.parent o) then
        check_anchor mn Prev ;;; check_anchor mn Next
      else Js.ret tt
  | _, _ => Js.ret tt
  end.

Definition assert_valid_state : Js.M Tree.t unit :=
  s <- Js.get ;;
  (* check SiblingIndex's *)
  promises <- Js.fold (mutations s)
                (fun mn promises =>
                   promises <- check_mode mn Original promises ;;
                   check_mode mn Mutated promises)
                JsMap.empty ;;
  (* check promises are valid *)
  Js.for_each (JsMap.entries promises) check_promise ;;;
  (* check that reverts have all been performed *)
  Js.for_each (mutations s) check_reverted.


(** Body of [for (const [mn, flags] of resolved.entries())]. The map is
    iterated while the callback deletes from it: an entry deleted before it
    is reached is not visited, and the flags are those current at the visit.
    The callback never adds a key. *)
Definition recheck_resolved (parent : Node) (mn : MnRef) (resolved : JsMap.t MnRef Z)
  : Js.M Tree.t (JsMap.t MnRef Z) :=
  match JsMap.get mn resolved with
  | None => Js.ret resolved
  | Some flags =>
      revert_check [mn] parent resolved
        (if (Z.land flags 1 =? 0)%Z then r_undefined else r_mn mn)
        (if (Z.land flags 2 =? 0)%Z then r_undefined else r_mn mn)
  end.

(** [mutation(parent, removed, added, prev, next)]. The module-level debug
    counter [DBG] and the console output of the final [catch] are not
    modelled; the [catch] rethrows. *)
Definition mutation (parent : Node) (removed added : list Node) (prev next : option Node)
  : Js.M Tree.t unit :=
  let l := init_locals in
  ' (prev_mn, l) <- handle_promises prev false true l ;;
  let l := set_prev_mn prev_mn l in
  l <- Js.fold removed (ingest_removed parent) l ;;
  ' (next_mn, l) <- handle_promises next true false l ;;
  let l := if Nat.eqb (JsMap.size (resolved l)) 0 then l else set_siblings_known true l in
  (* if we know there is another unknown sibling that would stop the revert check again *)
  pp <- opt_mutated_slot prev_mn Prev ;;
  nn <- opt_mutated_slot next_mn Next ;;
  let l := if siblings_known l && Sibling_eqb pp s_undefined && Sibling_eqb nn s_undefined
           then set_siblings_known false l else l in
  (* filter out resolved promises that are known to be in incorrect position *)
  l <- filter_resolved parent l ;;
  (* get original siblings to mark original position for newly removed nodes *)
  set_original_siblings prev next next_mn l ;;;
  match prev_mn with
  | Some r => SiblingIndex.update Mutated r (nth_or added 0 next) Next (Some parent)
  | None => Js.ret tt
  end ;;;
  match next_mn with
  | Some r =>
      SiblingIndex.update Mutated r
        (nth_or added (Z.of_nat (List.length added) - 1) prev) Prev (Some parent)
  | None => Js.ret tt
  end ;;;
  l <- Js.fold (seq 0 (List.length added)) (ingest_added parent added prev next) l ;;
  resolved <-
    (if revert_possible l || siblings_known l || negb (Nat.eqb (List.length (candidates l)) 0)
     then revert_check (candidates l) parent (resolved l)
            (mn_or prev_mn prev) (mn_or next_mn next)
     else Js.ret (resolved l)) ;;
  _ <- Js.fold (JsMap.keys resolved) (recheck_resolved parent) resolved ;;
  assert_valid_state.

End TreeMutations.

(** ** JavaScript values held by properties *)

Inductive Value :=
| v_undefined
| v_null
| v_string (s : string).

(** Strict equality [===] *)
Definition Value_eqb (a b : Value) : bool :=
  match a, b with
  | v_undefined, v_undefined => true
  | v_null, v_null => true
  | v_string s, v_string t => String.eqb s t
  | _, _ => false
  end.

Definition Value_eqb_spec (a b : Value) : reflect (a = b) (Value_eqb a b).
Proof.
  destruct a, b; simpl; try (constructor; congruence).
  destruct (String.eqb_spec s s0); constructor; congruence.
Defined.

#[global] Instance EqKey_Value : EqKey Value :=
  {| eqk := Value_eqb; eqk_spec := Value_eqb_spec |}.

(** [ToString] on these values *)
Definition to_string (v : Value) : string :=
  match v with
  | v_undefined => "undefined"
  | v_null => "null"
  | v_string s => s
  end.

(** Truthiness *)
Definition truthy (v : Value) : bool :=
  match v with
  | v_string s => negb (String.eqb s "")
  | _ => false
  end.

(** ** The live tree, as far as the module reads and writes it.

    Child lists, attribute lists and the [data] property of each node. An
    attribute has a namespace, a prefix and a local name; [getAttribute],
    [setAttribute] and [removeAttribute] address it by its qualified name.
    A string is a sequence of code units below 256. Names are compared as
    given, as for the elements of an XML document (an HTML document
    lower-cases the names given for its HTML elements); [setAttribute]
    rejects a name that is not a [Name] of XML, the rule of the DOM standard
    the module was written against. A name that matches it is accepted by
    the later versions of the standard too, and a name that holds [/] by
    none. *)

Module Attr.
Record t := mk {
  namespace : option string;
  prefix : option string;
  localName : string;
  value : string
}.

Definition qualifiedName (a : t) : string :=
  match prefix a with
  | Some p => String.append (String.append p ":") (localName a)
  | None => localName a
  end.

Definition named (q : string) (a : t) : bool := String.eqb (qualifiedName a) q.

Definition set_value (v : string) (a : t) : t :=
  mk (namespace a) (prefix a) (localName a) v.

(** Change the first attribute named [q], or append a new one without
    namespace. *)
Fixpoint assign (q v : string) (l : list t) : list t :=
  match l with
  | [] => [mk None None q v]
  | a :: tl => if named q a then set_value v a :: tl else a :: assign q v tl
  end.

(** Remove the first attribute named [q]. *)
Fixpoint drop (q : string) (l : list t) : list t :=
  match l with
  | [] => []
  | a :: tl => if named q a then tl else a :: drop q tl
  end.

(** [NameStartChar] of XML: [:], [_], a letter, or a code unit from 0xC0
    other than the signs 0xD7 and 0xF7. *)
Definition name_start_char (c : ascii) : bool :=
  let n := N_of_ascii c in
  ((n =? 58) || ((65 <=? n) && (n <=? 90)) || (n =? 95) || ((97 <=? n) && (n <=? 122))
   || ((192 <=? n) && (n <=? 214)) || ((216 <=? n) && (n <=? 246)) || (248 <=? n))%N.

(** [NameChar] of XML: a [NameStartChar], [-], [.], a digit or the middle
    dot 0xB7. *)
Definition name_char (c : ascii) : bool :=
  let n := N_of_ascii c in
  (name_start_char c || (n =? 45) || (n =? 46) || ((48 <=? n) && (n <=? 57))
   || (n =? 183))%N.

Fixpoint name_chars (q : string) : bool :=
  match q with
  | EmptyString => true
  | String c tl => name_char c && name_chars tl
  end.

(** [q] matches the production [Name]: a [NameStartChar] followed by
    [NameChar]s. *)
Definition valid_name (q : string) : bool :=
  match q with
  | EmptyString => false
  | String c tl => name_start_char c && name_chars tl
  end.
End Attr.

Module Dom.
Record t := mk {
  childNodes : JsMap.t Node (list Node);            (* absent: no children *)
  attributes : JsMap.t Node (list Attr.t);          (* absent: no attributes *)
  data : JsMap.t Node Value;                        (* absent: [undefined] *)
  character_data : list Node                        (* the CharacterData nodes *)
}.

Definition empty : t := mk JsMap.empty JsMap.empty JsMap.empty [].

Definition mem (n : Node) (l : list Node) : bool := existsb (Nat.eqb n) l.

Definition children (d : t) (n : Node) : list Node :=
  match JsMap.get n (childNodes d) with Some l => l | None => [] end.

Definition set_children (n : Node) (l : list Node) (d : t) : t :=
  mk (JsMap.set n l (childNodes d)) (attributes d) (data d) (character_data d).

(** [node.parentNode] *)
Definition parentNode (d : t) (n : Node) : option Node :=
  option_map fst (find (fun e => mem n (snd e)) (childNodes d)).

Fixpoint before_in (n : Node) (l : list Node) : option Node :=
  match l with
  | a :: ((b :: _) as tl) => if Nat.eqb b n then Some a else before_in n tl
  | _ => None
  end.

Fixpoint after_in (n : Node) (l : list Node) : option Node :=
  match l with
  | a :: tl => if Nat.eqb a n then hd_error tl else after_in n tl
  | [] => None
  end.

(** [node.previousSibling], [node.nextSibling] *)
Definition previousSibling (d : t) (n : Node) : option Node :=
  match parentNode d n with Some p => before_in n (children d p) | None => None end.
Definition nextSibling (d : t) (n : Node) : option Node :=
  match parentNode d n with Some p => after_in n (children d p) | None => None end.

(** [a] is an inclusive ancestor of [x] *)
Fixpoint inclusive_ancestor_fuel (fuel : nat) (d : t) (a x : Node) : bool :=
  Nat.eqb a x ||
  match fuel with
  | O => false
  | S fuel' =>
      match parentNode d x with
      | Some p => inclusive_ancestor_fuel fuel' d a p
      | None => false
      end
  end.

Definition inclusive_ancestor (d : t) (a x : Node) : bool :=
  inclusive_ancestor_fuel (List.length (childNodes d)) d a x.

(** [root.contains(x)], with [x] possibly [null] *)
Definition contains (d : t) (root : Node) (x : option Node) : bool :=
  match x with Some n => inclusive_ancestor d root n | None => false end.

(** [root.compareDocumentPosition(node) & Node.DOCUMENT_POSITION_CONTAINED_BY] as a
    truth value: [node] is a proper descendant of [root]. *)
Definition contained_by (d : t) (root node : Node) : bool :=
  negb (Nat.eqb root node) && inclusive_ancestor d root node.

(** Take [n] out of the child list it is in. *)
Definition detach (n : Node) (d : t) : t :=
  mk (map (fun e => (fst e, filter (fun c => negb (Nat.eqb c n)) (snd e))) (childNodes d))
     (attributes d) (data d) (character_data d).

(** [node.remove()] *)
Definition remove (n : Node) : Js.M t unit := Js.modify (detach n).

(** Converting [nodes] into a node: two or more nodes are first moved into a
    fresh fragment, which takes them out of the tree. *)
Definition convert (nodes : list Node) (d : t) : t :=
  match nodes with
  | _ :: _ :: _ => fold_left (fun d n => detach n d) nodes d
  | _ => d
  end.

Fixpoint insert_before (ref : option Node) (nodes l : list Node) : list Node :=
  match ref, l with
  | None, _ => l ++ nodes
  | Some r, [] => nodes
  | Some r, a :: tl => if Nat.eqb a r then nodes ++ a :: tl else a :: insert_before ref nodes tl
  end.

(** Pre-insert [nodes] into [parent] before the child [ref] ([None]: at the
    end). *)
Definition pre_insert (parent : Node) (nodes : list Node) (ref : option Node)
  : Js.M t unit :=
  d <- Js.get ;;
  if mem parent (character_data d) || existsb (fun n => inclusive_ancestor d n parent) nodes
  then Js.throw Js.HierarchyRequestError
  else
    let ref := match ref, nodes with
               | Some r, [n] => if Nat.eqb r n then nextSibling d n else ref
               | _, _ => ref
               end in
    let d := fold_left (fun d n => detach n d) nodes d in
    Js.put (set_children parent (insert_before ref nodes (children d parent)) d).

(** [parent.append(...nodes)]; CharacterData nodes have no such method. *)
Definition append (parent : Node) (nodes : list Node) : Js.M t unit :=
  d <- Js.get ;;
  if mem parent (character_data d)
  then Js.throw (Js.TypeError "parent.append is not a function")
  else
    Js.modify (convert nodes) ;;;
    pre_insert parent nodes None.

(** [parent.prepend(...nodes)]; CharacterData nodes have no such method. *)
Definition prepend (parent : Node) (nodes : list Node) : Js.M t unit :=
  d <- Js.get ;;
  if mem parent (character_data d)
  then Js.throw (Js.TypeError "parent.prepend is not a function")
  else
    Js.modify (convert nodes) ;;;
    d <- Js.get ;;
    pre_insert parent nodes (hd_error (children d parent)).

(** The siblings before [n], nearest first, and the siblings after it. *)
Fixpoint split_at (n : Node) (l : list Node) (acc : list Node)
  : list Node * list Node :=
  match l with
  | [] => (acc, [])
  | a :: tl => if Nat.eqb a n then (acc, tl) else split_at n tl (a :: acc)
  end.

(** [ref.before(...nodes)] *)
Definition before (ref : Node) (nodes : list Node) : Js.M t unit :=
  d <- Js.get ;;
  match parentNode d ref with
  | None => Js.ret tt
  | Some parent =>
      let '(rev_before, _) := split_at ref (children d parent) [] in
      let vps := find (fun a => negb (mem a nodes)) rev_before in
      Js.modify (convert nodes) ;;;
      d <- Js.get ;;
      pre_insert parent nodes
        (match vps with
         | None => hd_error (children d parent)
         | Some v => nextSibling d v
         end)
  end.

(** [ref.after(...nodes)] *)
Definition after (ref : Node) (nodes : list Node) : Js.M t unit :=
  d <- Js.get ;;
  match parentNode d ref with
  | None => Js.ret tt
  | Some parent =>
      let '(_, following) := split_at ref (children d parent) [] in
      let vns := find (fun a => negb (mem a nodes)) following in
      Js.modify (convert nodes) ;;;
      pre_insert parent nodes vns
  end.

Definition attribute_list (d : t) (node : Node) : list Attr.t :=
  match JsMap.get node (attributes d) with Some l => l | None => [] end.

(** [node.getAttribute(key)]; CharacterData nodes have no such method. *)
Definition getAttribute (node : Node) (key : string) : Js.M t Value :=
  d <- Js.get ;;
  if mem node (character_data d)
  then Js.throw (Js.TypeError "node.getAttribute is not a function")
  else
    Js.ret match find (Attr.named key) (attribute_list d node) with
           | Some a => v_string (Attr.value a)
           | None => v_null
           end.

(** [node.setAttribute(key, value)]; a [key] that is not a name is
    rejected with an [InvalidCharacterError]. *)
Definition setAttribute (node : Node) (key : string) (value : Value) : Js.M t unit :=
  d <- Js.get ;;
  if mem node (character_data d)
  then Js.throw (Js.TypeError "node.setAttribute is not a function")
  else if negb (Attr.valid_name key)
  then Js.throw Js.InvalidCharacterError
  else
    Js.put (mk (childNodes d)
              (JsMap.set node (Attr.assign key (to_string value) (attribute_list d node))
                 (attributes d))
              (data d) (character_data d)).

(** [node.removeAttribute(key)] *)
Definition removeAttribute (node : Node) (key : string) : Js.M t unit :=
  d <- Js.get ;;
  if mem node (character_data d)
  then Js.throw (Js.TypeError "node.removeAttribute is not a function")
  else
    Js.put (mk (childNodes d)
              (JsMap.set node (Attr.drop key (attribute_list d node)) (attributes d))
              (data d) (character_data d)).

(** [node.data] *)
Definition get_data (d : t) (node : Node) : Value :=
  match JsMap.get node (data d) with Some v => v | None => v_undefined end.

(** [node.data = value]: the setter of a CharacterData node stores a string,
    with [null] converted to the empty string; on another node the
    assignment creates an own property. *)
Definition set_data (node : Node) (value : Value) : Js.M t unit :=
  Js.modify (fun d =>
    let v := if mem node (character_data d)
             then match value with
                  | v_null => v_string ""
                  | _ => v_string (to_string value)
                  end
             else value in
    mk (childNodes d) (attributes d) (JsMap.set node v (data d)) (character_data d)).
End Dom.

(** ** What the module acts on besides its own state: the live tree, the
    console, and the embedder's callbacks (whose invocations can be logged
    in [calls]). A callback is code of the embedder that runs on the
    environment: it can read and change the live tree and the console, and
    it can throw. Callbacks that call the methods of the tracker they are
    called from are not part of this development. *)

Module Env.
Record t := mk {
  dom : Dom.t;
  console : list string;
  calls : list (Node * Value * Value)
}.

Definition of_dom (d : Dom.t) : t := mk d [] [].

Definition on_dom {A} (m : Js.M Dom.t A) : Js.M t A :=
  Js.zoom dom (fun d e => mk d (console e) (calls e)) m.

(** [console.warn(msg)] *)
Definition warn (msg : string) : Js.M t unit :=
  Js.modify (fun e => mk (dom e) (console e ++ [msg]) (calls e)).

(** A callback that only records its arguments. *)
Definition log_call (node : Node) (key value : Value) : Js.M t unit :=
  Js.modify (fun e => mk (dom e) (console e) (calls e ++ [(node, key, value)])).
End Env.

(** A name that no enclosing scope binds: evaluating it throws. *)
Definition unbound {S A} (name : string) : Js.M S A :=
  Js.throw (Js.ReferenceError (String.append name " is not defined")).

(** ** class PropertyCache *)

(** A cached property [{value, dirty}] *)
Module CachedProp.
Record t := mk { value : Value; dirty : bool }.
End CachedProp.

Inductive PropMode := m_native | m_custom.

Module PropertyCache.
Record t := mk {
  native : JsMap.t Value CachedProp.t;   (* key [null] is the node's data *)
  custom : JsMap.t Value CachedProp.t;
  _clean : Z;
  _dirty : Z
}.

(** [new PropertyCache()] *)
Definition new : t := mk JsMap.empty JsMap.empty 0 0.

(** [this[mode]] *)
Definition get_map (mode : PropMode) (c : t) : JsMap.t Value CachedProp.t :=
  match mode with m_native => native c | m_custom => custom c end.

Definition set_map (mode : PropMode) (m : JsMap.t Value CachedProp.t) (c : t) : t :=
  match mode with
  | m_native => mk m (custom c) (_clean c) (_dirty c)
  | m_custom => mk (native c) m (_clean c) (_dirty c)
  end.

(** [get size()] *)
Definition size (c : t) : Z :=
  Z.of_nat (JsMap.size (native c)) + Z.of_nat (JsMap.size (custom c)).
(** [get dirty()] *)
Definition dirty (c : t) : Z := _dirty c.
(** [get clean()] *)
Definition clean (c : t) : Z := _clean c.

(** [mark(mode, key, value, old_value)] *)
Definition mark (mode : PropMode) (key value old_value : Value) (c : t) : t :=
  let m := get_map mode c in
  match JsMap.get key m with
  | None =>
      (* unseen property *)
      let dirty := negb (Value_eqb value old_value) in
      let c := set_map mode (JsMap.set key (CachedProp.mk old_value dirty) m) c in
      if dirty then mk (native c) (custom c) (_clean c) (_dirty c + 1)
      else mk (native c) (custom c) (_clean c + 1) (_dirty c)
  | Some props =>
      (* previously cached; just update dirty flag *)
      let dirty := negb (Value_eqb value (CachedProp.value props)) in
      if negb (Bool.eqb dirty (CachedProp.dirty props)) then
        let c := set_map mode (JsMap.set key (CachedProp.mk (CachedProp.value props) dirty) m) c in
        let change := if dirty then 1 else -1 in
        mk (native c) (custom c) (_clean c - change) (_dirty c + change)
      else c
  end%Z.

(** Body of the first loop of [revert] *)
Definition revert_native (node : Node) (entry : Value * CachedProp.t) : Js.M Env.t unit :=
  let '(attr, o) := entry in
  if negb (CachedProp.dirty o) then Js.ret tt
  else
    match attr with
    | v_null => Env.on_dom (Dom.set_data node (CachedProp.value o))
    | _ =>
        match CachedProp.value o with
        | v_null => Env.on_dom (Dom.removeAttribute node (to_string attr))
        | v => Env.on_dom (Dom.setAttribute node (to_string attr) v)
        end
    end.

(** [revert(node, custom_revert)]. The second loop iterates [props.custom],
    and [props] is bound neither in the method nor in the class or module. *)
Definition revert (this : t) (node : Node)
    (custom_revert : option (Node -> Value -> Value -> Js.M Env.t unit))
  : Js.M Env.t unit :=
  Js.for_each (JsMap.entries (native this)) (revert_native node) ;;;
  match custom_revert with
  | Some cb =>
      props <- unbound "props" ;;
      Js.for_each (JsMap.entries (custom props))
        (fun '(key, o) =>
           if CachedProp.dirty o then cb node key (CachedProp.value o) else Js.ret tt)
  | None => Js.ret tt
  end.

(** The pattern [const [a, o] = x] applied to a cached property: a plain
    object is not iterable. *)
Definition destructure_pair {S} (x : CachedProp.t) : Js.M S (Value * CachedProp.t) :=
  Js.throw (Js.TypeError "object is not iterable").

(** [synchronize()]. Both loops iterate [values()] of the map and
    destructure each value as a pair. *)
Definition synchronize : Js.M t Z :=
  this <- Js.get ;;
  Js.for_each (JsMap.values (native this))
    (fun x =>
       ' (attr, o) <- destructure_pair x ;;
       if negb (CachedProp.dirty o)
       then Js.modify (fun c => set_map m_native (JsMap.delete attr (native c)) c)
       else Js.ret tt) ;;;
  this <- Js.get ;;
  Js.for_each (JsMap.values (custom this))
    (fun x =>
       ' (key, o) <- destructure_pair x ;;
       if negb (CachedProp.dirty o)
       then Js.modify (fun c => set_map m_custom (JsMap.delete key (custom c)) c)
       else Js.ret tt) ;;;
  Js.modify (fun c => mk (native c) (custom c) 0 (_dirty c)) ;;;
  Js.modify (fun c => mk (native c) (custom c) (_clean c) (size c)) ;;;
  Js.gets _dirty.
End PropertyCache.

(** ** [TreeMutations.synchronize()]

    The method reads the live tree ([d]) and writes the position tracker. *)

Module TreeSync.

(** The local collections of [synchronize]. [resume_with] is the property of
    that name that the method sets on promise objects and reads back. *)
Record Locals := mkLocals {
  candidates : list Node;                      (* a [Set], filled by [candidates.add(mn.node)] *)
  next_promises : list PromiseRef;
  prev_promises : JsMap.t MnRef PromiseRef;
  resume_with : JsMap.t PromiseRef Sibling
}.

Definition init_locals : Locals := mkLocals [] [] JsMap.empty JsMap.empty.

(** [candidates.add(n)] *)
Definition set_add (n : Node) (s : list Node) : list Node :=
  if Dom.mem n s then s else s ++ [n].

(** [collect_promises(mn, dir)]. The closure is created in the body of
    [synchronize], before the loop whose body declares [const node]; inside
    the closure [node] is a free name that no enclosing scope binds, so
    evaluating [node.previousSibling] or [node.nextSibling] throws. *)
Definition collect_promises (mn : MnRef) (dir : Side) (l : Locals) : Js.M Tree.t Locals :=
  m <- Tree.position Mutated mn "mn.mutated[dir]" ;;
  let promise := Position.get dir m in
  match promise with
  | s_null | s_node _ => Js.ret l              (* sibling known *)
  | _ =>
      (* sibling was unknown *)
      actual <- unbound "node" ;;
      l <- match promise with
           | s_promise p =>
               o <- Tree.read_promise p ;;
               let pmn := PromiseObj.mn o in
               (* candidate for reversion (mutated.parent will be set) *)
               po <- Tree.position Original pmn "mn.original.parent" ;;
               pm <- Tree.position Mutated pmn "mn.mutated.parent" ;;
               px <- Tree.read_mn pmn ;;
               let cands := if option_eqb Nat.eqb (Position.parent po) (Position.parent pm)
                            then set_add (MutatedNode.node px) (candidates l)
                            else candidates l in
               (* collect promises to be resolved later *)
               let rw := JsMap.set p actual (resume_with l) in
               Js.ret match dir with
                      | Prev => mkLocals cands (next_promises l)
                                  (JsMap.set pmn p (prev_promises l)) rw
                      | Next => mkLocals cands (next_promises l ++ [p])
                                  (prev_promises l) rw
                      end
           | _ => Js.ret l
           end ;;
      SiblingIndex.update Mutated mn actual dir None ;;;
      Js.ret l
  end.

(** Body of the first loop: [for (const mn of this.mutations())] *)
Definition sync_node (d : Dom.t) (mn : MnRef) (l : Locals) : Js.M Tree.t Locals :=
  x <- Tree.read_mn mn ;;
  let node := MutatedNode.node x in
  match MutatedNode.mutated x with
  | Some _ =>
      l <- collect_promises mn Prev l ;;
      collect_promises mn Next l
  | None =>
      (* an untracked add *)
      match Dom.parentNode d node with
      | Some p =>
          Tree.write_mn mn
            (MutatedNode.set Mutated
               (Some (Position.mk (Some p)
                        (of_nullable (Dom.previousSibling d node))
                        (of_nullable (Dom.nextSibling d node)))) x) ;;;
          SiblingIndex.add Mutated mn ;;;
          Js.ret l
      | None => Js.ret l
      end
  end.

(** [promise.resume_with] *)
Definition resume_node (p : PromiseRef) (l : Locals) : Sibling :=
  match JsMap.get p (resume_with l) with
  | Some v => v
  | None => s_undefined
  end.

(** Body of [for (const next of next_promises)], with its [while (true)]
    loop. The loop advances with [node = mn.next], and a [MutatedNode] has
    no property [next]: the second round starts with [node] undefined and
    resolves to it. *)
Definition resolve_next (next : PromiseRef) (l : Locals) : Js.M Tree.t Locals :=
  let node := resume_node next l in
  mn <- Tree.floating_get node ;;
  match mn with
  | None =>
      (* resolve: promise -> fixed *)
      SiblingPromise.resolve next node ;;; Js.ret l
  | Some r =>
      match JsMap.get r (prev_promises l) with
      | Some prev =>
          (* resolve: promise -> <- promise *)
          po <- SiblingPromise.origin prev ;;
          SiblingPromise.resolve next (s_node po) ;;;
          no <- SiblingPromise.origin next ;;
          SiblingPromise.resolve prev (s_node no) ;;;
          Js.ret (mkLocals (candidates l) (next_promises l)
                    (JsMap.delete r (prev_promises l)) (resume_with l))
      | None =>
          SiblingPromise.resolve next s_undefined ;;; Js.ret l
      end
  end.

(** Body of [for (const prev of prev_promises.values())]: the loop
    [while (node && (mn = this.floating.get(node))) node = mn.prev] ends
    after one round at the latest, [mn.prev] being undefined. *)
Definition resolve_prev (l : Locals) (prev : PromiseRef) : Js.M Tree.t unit :=
  let node := resume_node prev l in
  mn <- Tree.floating_get node ;;
  match mn with
  | None => SiblingPromise.resolve prev node
  | Some _ => SiblingPromise.resolve prev s_undefined
  end.

(** Body of [for (const mn of candidates)]. The set holds DOM nodes, and the
    body starts with [mn.original.parent]: a node has no property
    [original]. *)
Definition check_candidate (n : Node) : Js.M Tree.t unit :=
  Js.throw (Js.TypeError "mn.original is undefined").

(** [synchronize()]; the [catch] around the final assertion rethrows. *)
Definition synchronize (d : Dom.t) : Js.M Tree.t unit :=
  s <- Js.get ;;
  l <- Js.fold (TreeMutations.mutations s) (sync_node d) init_locals ;;
  (* resolve all next sibling promises *)
  l <- Js.fold (next_promises l) resolve_next l ;;
  (* resolve all previous sibling promises *)
  Js.for_each (JsMap.values (prev_promises l)) (resolve_prev l) ;;;
  (* check if resolved nodes are in their reverted position *)
  Js.for_each (candidates l) check_candidate ;;;
  TreeMutations.assert_valid_state.

End TreeSync.

(** ** class MutationDiff *)

(** A [MutationRecord] as delivered by a MutationObserver *)
Module MutationRecord.
Record t := mk {
  type : string;
  target : Node;
  attributeName : Value;
  attributeNamespace : Value;
  oldValue : Value;
  removedNodes : list Node;
  addedNodes : list Node;
  previousSibling : option Node;
  nextSibling : option Node
}.
End MutationRecord.

(** One value of a diff: [{original?, mutated?}]; an absent property is
    [None]. *)
Module Delta.
Record t (A : Type) := mk { original : option A; mutated : option A }.
Arguments mk {A} original mutated.
Arguments original {A} t.
Arguments mutated {A} t.
End Delta.

(** The per-node entry of [diff()]:
    [{data?, attribute?, custom?, children?}]. A position of the children
    delta is [null] ([None]) or a copy of the record's triple. *)
Module Log.
Record t := mk {
  data : option (Delta.t Value);
  attribute : option (JsMap.t string (Delta.t Value));
  custom : option (JsMap.t Value (Delta.t Value));
  children : option (Delta.t (option Position.t))
}.
Definition empty : t := mk None None None None.
End Log.

(** A group yielded by [diff_grouped_children]:
    [{nodes, parent, prev?, next?}]; an absent sibling is [undefined]. *)
Module Group.
Record t := mk {
  nodes : list Node;
  parent : option Node;      (* falsy ([null] or [undefined]) is [None] *)
  prev : Sibling;
  next : Sibling
}.

(** [group[dir] = v] *)
Definition set (d : Side) (v : Sibling) (g : t) : t :=
  match d with
  | Prev => mk (nodes g) (parent g) v (next g)
  | Next => mk (nodes g) (parent g) (prev g) v
  end.
Definition set_nodes (l : list Node) (g : t) : t := mk l (parent g) (prev g) (next g).
End Group.

Module MutationDiff.
Record t := mk {
  props : JsMap.t Node PropertyCache.t;
  tree : Tree.t
}.

(** [new MutationDiff()] *)
Definition new : t := mk JsMap.empty Tree.new.

(** The instance together with its environment *)
Record World := mkWorld {
  env : Env.t;
  this : t
}.

Definition on_env {A} (m : Js.M Env.t A) : Js.M World A :=
  Js.zoom env (fun e w => mkWorld e (this w)) m.
Definition on_tree {A} (m : Js.M Tree.t A) : Js.M World A :=
  Js.zoom (fun w => tree (this w)) (fun t w => mkWorld (env w) (mk (props (this w)) t)) m.
Definition set_props (p : JsMap.t Node PropertyCache.t) : Js.M World unit :=
  Js.modify (fun w => mkWorld (env w) (mk p (tree (this w)))).

(** *** Bitmask definitions for [diff()]: the static fields the class
    declares. A static that is not declared reads as [undefined]. *)
Definition ALL : Z := 0xFFFF.
Definition MUTATED : Z := 16.      (* 0b10000 *)
Definition ORIGINAL : Z := 32.     (* 0b100000 *)
Definition PROPERTY : Z := 7.      (* 0b111 *)
Definition DATA : Z := 1.
Definition ATTRIBUTE : Z := 2.
Definition CUSTOM : Z := 4.
Definition CHILDREN : Z := 8.

Definition statics : JsMap.t string Z :=
  [ ("ALL"%string, ALL); ("MUTATED"%string, MUTATED); ("ORIGINAL"%string, ORIGINAL);
    ("PROPERTY"%string, PROPERTY); ("DATA"%string, DATA); ("ATTRIBUTE"%string, ATTRIBUTE);
    ("CUSTOM"%string, CUSTOM); ("CHILDREN"%string, CHILDREN) ].

(** [MutationDiff.NAME] *)
Definition static (name : string) : option Z := JsMap.get name statics.

(** [filter & MutationDiff.NAME]; [undefined] converts to 0. *)
Definition band (filter : Z) (name : string) : Z :=
  match static name with
  | Some k => Z.land filter k
  | None => 0
  end.

(** Truthiness of a number *)
Definition nonzero (z : Z) : bool := negb (z =? 0)%Z.

(** [children(parent, removed, added, prev, next)] *)
Definition children (parent : Node) (removed added : list Node) (prev next : option Node)
  : Js.M World Value :=
  on_tree (TreeMutations.mutation parent removed added prev next) ;;;
  Js.ret v_undefined.

(** [#prop(node, mode, key, value, old_value)] *)
Definition prop (node : Node) (mode : PropMode) (key value old_value : Value)
  : Js.M World Value :=
  w <- Js.get ;;
  let cache := match JsMap.get node (props (this w)) with
               | Some c => c
               | None => PropertyCache.new
               end in
  set_props (JsMap.set node (PropertyCache.mark mode key value old_value cache)
               (props (this w))) ;;;
  Js.ret v_undefined.

(** [attribute(node, key, old_value)] *)
Definition attribute (node : Node) (key old_value : Value) : Js.M World Value :=
  value <- on_env (Env.on_dom (Dom.getAttribute node (to_string key))) ;;
  prop node m_native key value old_value.

(** [data(node, old_value)] *)
Definition data (node : Node) (old_value : Value) : Js.M World Value :=
  w <- Js.get ;;
  prop node m_native v_null (Dom.get_data (Env.dom (env w)) node) old_value.

(** [custom(node, key, value, old_value)] *)
Definition custom (node : Node) (key value old_value : Value) : Js.M World Value :=
  prop node m_custom key value old_value.

(** [record(r)]: the [switch] has no [default] case. *)
Definition record (r : MutationRecord.t) : Js.M World Value :=
  (if String.eqb (MutationRecord.type r) "attributes" then
     let name := MutationRecord.attributeName r in
     let name := if truthy (MutationRecord.attributeNamespace r)
                 then v_string (String.append
                                  (String.append
                                     (to_string (MutationRecord.attributeNamespace r)) ":")
                                  (to_string name))
                 else name in
     attribute (MutationRecord.target r) name (MutationRecord.oldValue r) ;;; Js.ret tt
   else if String.eqb (MutationRecord.type r) "characterData" then
     data (MutationRecord.target r) (MutationRecord.oldValue r) ;;; Js.ret tt
   else if String.eqb (MutationRecord.type r) "childList" then
     children (MutationRecord.target r) (MutationRecord.removedNodes r)
       (MutationRecord.addedNodes r) (MutationRecord.previousSibling r)
       (MutationRecord.nextSibling r) ;;; Js.ret tt
   else Js.ret tt) ;;;
  Js.ret v_undefined.

(** [mutated(root)] *)
Definition mutated (root : option Node) : Js.M World bool :=
  w <- Js.get ;;
  let d := Env.dom (env w) in
  match root with
  | Some root =>
      if existsb (fun '(node, c) =>
                    nonzero (PropertyCache.dirty c) && Dom.contained_by d root node)
           (JsMap.entries (props (this w)))
      then Js.ret true
      else
        hits <- on_tree (Js.fold (TreeMutations.mutations (tree (this w)))
                  (fun r acc =>
                     op <- Tree.read_mn r ;;
                     Js.ret (acc ||
                       (match MutatedNode.original op with
                        | Some o => Dom.contains d root (Position.parent o)
                        | None => false
                        end
                        || match Dom.parentNode d (MutatedNode.node op) with
                           | Some p => Dom.contains d root (Some p)
                           | None => false
                           end)))
                  false) ;;
        Js.ret hits
  | None =>
      if negb (Nat.eqb (TreeMutations.size (tree (this w))) 0) then Js.ret true
      else Js.ret (existsb (fun c => nonzero (PropertyCache.dirty c))
                     (JsMap.values (props (this w))))
  end.

(** [clear()] *)
Definition clear : Js.M World Value :=
  set_props JsMap.empty ;;;
  on_tree TreeMutations.clear ;;;
  Js.ret v_undefined.

(** [get storage_size()] *)
Definition storage_size (x : t) : nat :=
  JsMap.size (props x) + TreeMutations.size (tree x).

(** *** [diff(filter, custom_getter)] *)

(** The object [d] filled by [if (FORIGINAL) d.original = ...;
    if (FMUTATED) d.mutated = ...] *)
Definition delta {A} (FORIGINAL FMUTATED : Z) (original mutated : option A) : Delta.t A :=
  Delta.mk (if nonzero FORIGINAL then original else None)
           (if nonzero FMUTATED then mutated else None).

(** The [// data] block; returns the updated [(has_diff, log)]. *)
Definition diff_data (filter FORIGINAL FMUTATED : Z) (d : Dom.t) (node : Node)
    (cache : PropertyCache.t) (acc : bool * Log.t) : bool * Log.t :=
  if nonzero (band filter "DATA") then
    match JsMap.get v_null (PropertyCache.native cache) with
    | Some op =>
        if CachedProp.dirty op then
          (true, Log.mk (Some (delta FORIGINAL FMUTATED (Some (CachedProp.value op))
                                 (Some (Dom.get_data d node))))
                   (Log.attribute (snd acc)) (Log.custom (snd acc)) (Log.children (snd acc)))
        else acc
    | None => acc
    end
  else acc.

(** The [// attributes] block. The test reads the static [ATTRIBUTES]. The
    plain object [attrs] is kept as a map from property names. *)
Definition diff_attributes (filter FORIGINAL FMUTATED : Z) (node : Node)
    (cache : PropertyCache.t) (acc : bool * Log.t) : Js.M Env.t (bool * Log.t) :=
  if nonzero (band filter "ATTRIBUTES") then
    attrs <- Js.fold (JsMap.entries (PropertyCache.native cache))
               (fun '(key, op) attrs =>
                  if negb (CachedProp.dirty op) || Value_eqb key v_null then Js.ret attrs
                  else
                    m <- (if nonzero FMUTATED
                          then v <- Env.on_dom (Dom.getAttribute node (to_string key)) ;;
                               Js.ret (Some v)
                          else Js.ret None) ;;
                    Js.ret (JsMap.set (to_string key)
                              (Delta.mk (if nonzero FORIGINAL
                                         then Some (CachedProp.value op) else None) m)
                              attrs))
               JsMap.empty ;;
    match attrs with
    | [] => Js.ret acc
    | _ => Js.ret (true, Log.mk (Log.data (snd acc)) (Some attrs)
                           (Log.custom (snd acc)) (Log.children (snd acc)))
    end
  else Js.ret acc.

(** The [// custom properties] block. [custom_getter] is a callback of the
    embedder: a call of it runs on the environment, can change it and can
    throw. *)
Definition diff_custom (filter FORIGINAL FMUTATED : Z)
    (custom_getter : option (Node -> Value -> Js.M Env.t Value)) (node : Node)
    (cache : PropertyCache.t) (acc : bool * Log.t) : Js.M Env.t (bool * Log.t) :=
  if nonzero (band filter "CUSTOM") then
    custom <- Js.fold (JsMap.entries (PropertyCache.custom cache))
                (fun '(key, op) (custom : JsMap.t Value (Delta.t Value)) =>
                   if negb (CachedProp.dirty op) then Js.ret custom
                   else
                     m <- match custom_getter with
                          | Some g =>
                              if nonzero FMUTATED
                              then v <- g node key ;; Js.ret (Some v)
                              else Js.ret None
                          | None => Js.ret None
                          end ;;
                     Js.ret (JsMap.set key
                               (Delta.mk (if nonzero FORIGINAL
                                          then Some (CachedProp.value op) else None) m)
                               custom))
                JsMap.empty ;;
    match custom with
    | [] => Js.ret acc
    | _ => Js.ret (true, Log.mk (Log.data (snd acc)) (Log.attribute (snd acc))
                           (Some custom) (Log.children (snd acc)))
    end
  else Js.ret acc.

(** Body of [for (const [node, cache] of this.props.entries())] *)
Definition diff_props (filter FORIGINAL FMUTATED : Z)
    (custom_getter : option (Node -> Value -> Js.M Env.t Value))
    (entry : Node * PropertyCache.t) (out : JsMap.t Node Log.t)
  : Js.M Env.t (JsMap.t Node Log.t) :=
  let '(node, cache) := entry in
  if negb (nonzero (PropertyCache.dirty cache)) then Js.ret out
  else
    e <- Js.get ;;
    let acc := (false, Log.empty) in
    let acc := diff_data filter FORIGINAL FMUTATED (Env.dom e) node cache acc in
    acc <- diff_attributes filter FORIGINAL FMUTATED node cache acc ;;
    acc <- diff_custom filter FORIGINAL FMUTATED custom_getter node cache acc ;;
    if fst acc then Js.ret (JsMap.set node (snd acc) out) else Js.ret out.

(** Body of [for (const op of this.tree.mutations())] *)
Definition diff_children (FORIGINAL FMUTATED : Z) (r : MnRef) (out : JsMap.t Node Log.t)
  : Js.M Tree.t (JsMap.t Node Log.t) :=
  op <- Tree.read_mn r ;;
  let node := MutatedNode.node op in
  let log := match JsMap.get node out with Some l => l | None => Log.empty end in
  Js.ret (JsMap.set node
            (Log.mk (Log.data log) (Log.attribute log) (Log.custom log)
               (Some (delta FORIGINAL FMUTATED (Some (MutatedNode.original op))
                        (Some (MutatedNode.mutated op)))))
            out).

Definition diff (filter : Z) (custom_getter : option (Node -> Value -> Js.M Env.t Value))
  : Js.M World (JsMap.t Node Log.t) :=
  let out := JsMap.empty in
  let FORIGINAL := band filter "ORIGINAL" in
  let FMUTATED := band filter "MUTATED" in
  if nonzero FORIGINAL || nonzero FMUTATED then
    w <- Js.get ;;
    (* diffs from PropertyCache *)
    out <- (if nonzero (band filter "PROPERTY")
            then on_env (Js.fold (JsMap.entries (props (this w)))
                           (diff_props filter FORIGINAL FMUTATED custom_getter) out)
            else Js.ret out) ;;
    (* diffs from TreeMutations *)
    if nonzero (band filter "CHILDREN")
    then on_tree (Js.fold (TreeMutations.mutations (tree (this w)))
                    (diff_children FORIGINAL FMUTATED) out)
    else Js.ret out
  else Js.ret out.

(** *** [diff_grouped_children(mode, include_removed)] *)

(** [skip.add(n)] on a [Set] *)
Definition set_add (n : Node) (s : list Node) : list Node :=
  if Dom.mem n s then s else s ++ [n].

(** [link_siblings(group, op, dir, arrfn)]; [arrfn] is [unshift] for
    ["prev"] and [push] for ["next"]. Loop variable [bop]; the group and the
    set [skip] are updated. *)
Fixpoint link_siblings (fuel : nat) (mode : Mode) (dir : Side) (bop : Position.t)
    (acc : Group.t * list Node) : Js.M Tree.t (Group.t * list Node) :=
  match fuel with
  | O => Js.throw Js.Diverges
  | S fuel' =>
      let '(group, skip) := acc in
      let link := Position.get dir bop in
      bop_next <- Tree.floating_get link ;;
      match link, bop_next with
      | s_node n, Some r =>
          (* we'll take over handling the node *)
          let skip := set_add n skip in
          let group := Group.set_nodes
                         (match dir with
                          | Prev => n :: Group.nodes group
                          | Next => Group.nodes group ++ [n]
                          end) group in
          x <- Tree.read_mn r ;;
          match MutatedNode.get mode x with
          | Some bop' => link_siblings fuel' mode dir bop' (group, skip)
          | None =>
              (* broken sibling possible if synchronize hasn't been called *)
              Js.ret (group, skip)
          end
      | _, _ =>
          (* inherit the linked ops prev/next *)
          Js.ret (Group.set dir link group, skip)
      end
  end.

(** Body of [for (let op of this.tree.mutations())]; the accumulator holds
    the groups yielded so far, [skip] and [removed]. *)
Definition group_node (mode : Mode) (include_removed : bool) (r : MnRef)
    (acc : list Group.t * list Node * list Node)
  : Js.M Tree.t (list Group.t * list Node * list Node) :=
  let '(groups, skip, removed) := acc in
  x <- Tree.read_mn r ;;
  let node := MutatedNode.node x in
  if Dom.mem node skip then
    (* this node already grouped *)
    Js.ret (groups, filter (fun n => negb (Nat.eqb n node)) skip, removed)
  else
    match MutatedNode.get mode x with
    | None =>
        (* removed nodes *)
        Js.ret (groups, skip, if include_removed then removed ++ [node] else removed)
    | Some op =>
        let group := Group.mk [node] (Position.parent op) s_undefined s_undefined in
        s <- Js.get ;;
        ' (group, skip) <- link_siblings (Tree.fuel s) mode Prev op (group, skip) ;;
        ' (group, skip) <- link_siblings (Tree.fuel s) mode Next op (group, skip) ;;
        Js.ret (groups ++ [group], skip, removed)
    end.

(** The generator, run to completion: the list of the groups it yields. *)
Definition diff_grouped_children (mode : Z) (include_removed : bool)
  : Js.M Tree.t (list Group.t) :=
  match (if nonzero (band mode "ORIGINAL") then Some Original
         else if nonzero (band mode "MUTATED") then Some Mutated
         else None) with
  | None => Js.ret []
  | Some mode =>
      s <- Js.get ;;
      ' (groups, _, removed) <-
        Js.fold (TreeMutations.mutations s) (group_node mode include_removed) ([], [], []) ;;
      match removed with
      | [] => Js.ret groups
      | _ => Js.ret (groups ++ [Group.mk removed None s_undefined s_undefined])
      end
  end.

(** *** [static patch_grouped_children(groups)] *)

(** [!(s === undefined || s instanceof SiblingPromise)] *)
Definition sibling_set (s : Sibling) : bool :=
  match s with
  | s_undefined | s_promise _ => false
  | _ => true
  end.

(** Body of the first loop; [add] collects [{group, next}]. *)
Definition patch_detach (g : Group.t) (add : list (Group.t * bool))
  : Js.M Env.t (list (Group.t * bool)) :=
  Js.for_each (Group.nodes g) (fun n => Env.on_dom (Dom.remove n)) ;;;
  match Group.parent g with
  | Some _ =>
      (* sibling may be undefined for untracked adds; we'll just skip those nodes *)
      let next_set := sibling_set (Group.next g) in
      if negb next_set && negb (sibling_set (Group.prev g)) then
        Env.warn "MutationDiff: siblings unknown, can't patch" ;;;
        Js.ret add
      else Js.ret (add ++ [(g, next_set)])
  | None => Js.ret add
  end.

(** Body of the second loop: perform node movements *)
Definition patch_insert (op : Group.t * bool) : Js.M Env.t unit :=
  let '(g, next) := op in
  match Group.parent g with
  | None => Js.throw (Js.TypeError "g.parent is null")
  | Some parent =>
      if next then
        match Group.next g with
        | s_node n => Env.on_dom (Dom.before n (Group.nodes g))
        | _ => Env.on_dom (Dom.append parent (Group.nodes g))
        end
      else
        match Group.prev g with
        | s_node n => Env.on_dom (Dom.after n (Group.nodes g))
        | _ => Env.on_dom (Dom.prepend parent (Group.nodes g))
        end
  end.

Definition patch_grouped_children (groups : list Group.t) : Js.M Env.t Value :=
  add <- Js.fold groups patch_detach [] ;;
  Js.for_each add patch_insert ;;;
  Js.ret v_undefined.

(** *** [revert(custom_revert)]. The generator only reads the position
    tracker and its consumer only writes the tree, so the groups are all
    computed before they are patched. *)
Definition revert (custom_revert : option (Node -> Value -> Value -> Js.M Env.t unit))
  : Js.M World Value :=
  w <- Js.get ;;
  (* revert properties *)
  on_env (Js.for_each (JsMap.entries (props (this w)))
            (fun '(node, c) => PropertyCache.revert c node custom_revert)) ;;;
  set_props JsMap.empty ;;;
  groups <- on_tree (diff_grouped_children ORIGINAL true) ;;
  on_env (patch_grouped_children groups) ;;;
  on_tree TreeMutations.clear ;;;
  Js.ret v_undefined.

(** The first loop of [synchronize()]:
    [for (let [node,props] of this.props.entries())
       if (!props.synchronize()) this.props.delete(node);]
    It is followed by [this.tree.synchronize()]: see [synchronize]. *)
Definition synchronize_props : Js.M World unit :=
  w <- Js.get ;;
  Js.for_each (JsMap.keys (props (this w)))
    (fun node =>
       w <- Js.get ;;
       match JsMap.get node (props (this w)) with
       | None => Js.ret tt
       | Some c =>
           match PropertyCache.synchronize c with
           | Js.Ok n c' =>
               if (n =? 0)%Z then set_props (JsMap.delete node (props (this w)))
               else set_props (JsMap.set node c' (props (this w)))
           | Js.Throw e c' =>
               set_props (JsMap.set node c' (props (this w))) ;;; Js.throw e
           end
       end).

(** [synchronize()] *)
Definition synchronize : Js.M World Value :=
  synchronize_props ;;;
  w <- Js.get ;;
  on_tree (TreeSync.synchronize (Env.dom (env w))) ;;;
  Js.ret v_undefined.

End MutationDiff.

(** ** What a MutationObserver reports for a change of the live tree *)

Module Observer.

Fixpoint distinct (l : list Node) : bool :=
  match l with
  | [] => true
  | a :: tl => negb (Dom.mem a tl) && distinct tl
  end.

Definition nodes_eqb (a b : list Node) : bool :=
  if list_eq_dec Nat.eq_dec a b then true else false.

(** The tree after the change a [childList] record describes: [removed] is
    the run of children of [parent] between [prev] and [next], and the
    nodes of [added], which are outside the tree once [removed] is taken out,
    take its place. [None] when the record does not describe a change of
    this tree. *)
Definition child_list (parent : Node) (removed added : list Node)
    (prev next : option Node) (d : Dom.t) : option Dom.t :=
  let ch := Dom.children d parent in
  let start := match prev with
               | None => Some 0
               | Some p =>
                   match Dom.split_at p ch [] with
                   | (before, _) => if Dom.mem p ch then Some (S (List.length before)) else None
                   end
               end in
  match start with
  | None => None
  | Some i =>
      let pre := firstn i ch in
      let run := firstn (List.length removed) (skipn i ch) in
      let post := skipn (List.length removed) (skipn i ch) in
      let d1 := Dom.set_children parent (pre ++ post) d in
      if nodes_eqb run removed
         && option_eqb Nat.eqb (hd_error post) next
         && distinct added
         && forallb (fun n => negb (is_some (Dom.parentNode d1 n))) added
         && negb (existsb (fun n => Dom.inclusive_ancestor d1 n parent) added)
         && negb (Dom.mem parent (Dom.character_data d))
      then Some (Dom.set_children parent (pre ++ added ++ post) d)
      else None
  end.

(** The record queued when the value of the [i]-th attribute of [node]
    changes to [v], and the tree after the change: [attributeName] is the
    attribute's local name, [attributeNamespace] its namespace. *)
Definition set_attribute_value (node : Node) (i : nat) (v : string) (d : Dom.t)
  : option (Dom.t * MutationRecord.t) :=
  let l := Dom.attribute_list d node in
  match nth_error l i with
  | None => None
  | Some a =>
      Some (Dom.mk (Dom.childNodes d)
              (JsMap.set node (list_set i (Attr.set_value v a) l) (Dom.attributes d))
              (Dom.data d) (Dom.character_data d),
            MutationRecord.mk "attributes" node
              (v_string (Attr.localName a))
              (match Attr.namespace a with Some ns => v_string ns | None => v_null end)
              (v_string (Attr.value a)) [] [] None None)
  end.

(** A [childList] record with the given content *)
Definition child_list_record (parent : Node) (removed added : list Node)
    (prev next : option Node) : MutationRecord.t :=
  MutationRecord.mk "childList" parent v_null v_null v_null removed added prev next.

End Observer.

(** * Vocabulary of the properties *)

(** A place in the tree: a parent and the two siblings there. *)
Module Place.
Record t := mk {
  parent : Node;
  prev : option Node;
  next : option Node
}.

(** The position triple of a node at this place. *)
Definition position (c : t) : Position.t :=
  Position.mk (Some (parent c)) (of_nullable (prev c)) (of_nullable (next c)).
End Place.

Module Spec.

(** ** Dirty accounting of the property caches *)

Definition dirty_count (m : JsMap.t Value CachedProp.t) : Z :=
  Z.of_nat (List.length (filter CachedProp.dirty (JsMap.values m))).

(** The counter [_dirty] of a cache is the number of its dirty entries. *)
Definition cache_wf (c : PropertyCache.t) : Prop :=
  PropertyCache._dirty c
  = (dirty_count (PropertyCache.native c) + dirty_count (PropertyCache.custom c))%Z.

Definition props_wf (x : MutationDiff.t) : Prop :=
  forall node c, In (node, c) (MutationDiff.props x) -> cache_wf c.

(** Some entry of some node's cache is dirty. *)
Definition some_entry_dirty (x : MutationDiff.t) : Prop :=
  exists node c key p,
    In (node, c) (MutationDiff.props x)
    /\ (In (key, p) (PropertyCache.native c) \/ In (key, p) (PropertyCache.custom c))
    /\ CachedProp.dirty p = true.

Definition floating_nonempty (x : MutationDiff.t) : Prop :=
  Tree.floating (MutationDiff.tree x) <> [].

(** The states of a MutationDiff and its environment that calls of the
    public methods lead to, whether they return or throw. Other agents may
    change the environment at any time; [reach_tree] stands for the methods
    that only act on the position tracker. *)
Inductive reachable : MutationDiff.World -> Prop :=
| reach_new e :
    reachable (MutationDiff.mkWorld e MutationDiff.new)
| reach_env w e :
    reachable w -> reachable (MutationDiff.mkWorld e (MutationDiff.this w))
| reach_tree w t :
    reachable w ->
    reachable (MutationDiff.mkWorld (MutationDiff.env w)
                 (MutationDiff.mk (MutationDiff.props (MutationDiff.this w)) t))
| reach_record w r :
    reachable w -> reachable (Js.state_of (MutationDiff.record r w))
| reach_attribute w node key old :
    reachable w -> reachable (Js.state_of (MutationDiff.attribute node key old w))
| reach_data w node old :
    reachable w -> reachable (Js.state_of (MutationDiff.data node old w))
| reach_custom w node key value old :
    reachable w -> reachable (Js.state_of (MutationDiff.custom node key value old w))
| reach_children w parent removed added prev next :
    reachable w ->
    reachable (Js.state_of (MutationDiff.children parent removed added prev next w))
| reach_mutated w root :
    reachable w -> reachable (Js.state_of (MutationDiff.mutated root w))
| reach_diff w filter getter :
    reachable w -> reachable (Js.state_of (MutationDiff.diff filter getter w))
| reach_revert w cb :
    reachable w -> reachable (Js.state_of (MutationDiff.revert cb w))
| reach_clear w :
    reachable w -> reachable (Js.state_of (MutationDiff.clear w))
| reach_synchronize w :
    reachable w -> reachable (Js.state_of (MutationDiff.synchronize_props w)).

(** ** Positions of floating records *)

(** [x] is not a node of the floating set. *)
Definition not_floating (s : Tree.t) (x : Sibling) : Prop :=
  match x with
  | s_node n => JsMap.get n (Tree.floating s) = None
  | _ => True
  end.

(** No floating record that sits in its original parent has, on either
    side, a sibling outside the floating set that is also its original
    sibling on that side. *)
Definition no_reverted_record (s : Tree.t) : Prop :=
  forall n r x o m d,
    In (n, r) (Tree.floating s) ->
    nth_error (Tree.mns s) r = Some x ->
    MutatedNode.original x = Some o ->
    MutatedNode.mutated x = Some m ->
    Position.parent o = Position.parent m ->
    not_floating s (Position.get d m) ->
    Position.get d o <> Position.get d m.

(** Nothing is tracked: the floating set and both sibling indexes are
    empty. *)
Definition nothing_tracked (s : Tree.t) : Prop :=
  Tree.floating s = [] /\ Tree.original s = IndexObj.empty
  /\ Tree.mutated s = IndexObj.empty.

(** ** Moves of one node *)

(** The node [n] is not its own sibling at the place [c]. *)
Definition beside (n : Node) (c : Place.t) : Prop :=
  Place.prev c <> Some n /\ Place.next c <> Some n.

(** A node taken from the place [o] and put at the place [c] is back in its
    parent next to one of its two original siblings. *)
Definition back_in_place (o c : Place.t) : Prop :=
  Place.parent c = Place.parent o
  /\ (Place.prev c = Place.prev o \/ Place.next c = Place.next o).

(** The records of the moves of the node [n], which sits at [from], to each
    of [places] in turn: each move is the removal from where the node is
    and the insertion at the next place. *)
Fixpoint moves (n : Node) (from : Place.t) (places : list Place.t) : Js.M Tree.t unit :=
  match places with
  | [] => Js.ret tt
  | c :: rest =>
      TreeMutations.mutation (Place.parent from) [n] [] (Place.prev from) (Place.next from) ;;;
      TreeMutations.mutation (Place.parent c) [] [n] (Place.prev c) (Place.next c) ;;;
      moves n c rest
  end.

(** What a sibling index holds for the one record of a node at [c]. *)
Definition index_at (c : Place.t) : IndexObj.t :=
  IndexObj.mk (match Place.prev c with Some p => [(p, 0)] | None => [] end)
              (match Place.next c with Some q => [(q, 0)] | None => [] end).

(** The tracker that has seen [n] taken from [o], and the tracker that has
    then seen it put at [c]. *)
Definition taken_from (n : Node) (o : Place.t) : Tree.t :=
  Tree.mk [(n, 0)] (index_at o) IndexObj.empty
    [MutatedNode.mk n (Some (Place.position o)) None]
    [PromiseObj.mk 0 Prev None; PromiseObj.mk 0 Next None].

Definition moved_to (n : Node) (o c : Place.t) : Tree.t :=
  Tree.mk [(n, 0)] (index_at o) (index_at c)
    [MutatedNode.mk n (Some (Place.position o)) (Some (Place.position c))]
    [PromiseObj.mk 0 Prev None; PromiseObj.mk 0 Next None].

(** ** Placement of move groups *)

Definition warning : string := "MutationDiff: siblings unknown, can't patch".

(** A group that has a parent but no known sibling *)
Definition unplaceable (g : Group.t) : bool :=
  is_some (Group.parent g)
  && negb (MutationDiff.sibling_set (Group.next g))
  && negb (MutationDiff.sibling_set (Group.prev g)).

(** A group that has a parent and a known sibling on some side *)
Definition placeable (g : Group.t) : bool :=
  is_some (Group.parent g)
  && (MutationDiff.sibling_set (Group.next g) || MutationDiff.sibling_set (Group.prev g)).

(** The tree operation that puts a placeable group in place: next to a
    known sibling node, at the end of the parent when the next sibling is
    known to be [null], at its start when only the previous sibling is known
    and is [null]. *)
Definition placement (parent : Node) (g : Group.t) : Js.M Env.t unit :=
  match Group.next g, Group.prev g with
  | s_node n, _ => Env.on_dom (Dom.before n (Group.nodes g))
  | s_null, _ => Env.on_dom (Dom.append parent (Group.nodes g))
  | _, s_node p => Env.on_dom (Dom.after p (Group.nodes g))
  | _, _ => Env.on_dom (Dom.prepend parent (Group.nodes g))
  end.

(** A record type the [switch] of [record] knows *)
Definition known_type (ty : string) : bool :=
  String.eqb ty "attributes" || String.eqb ty "characterData" || String.eqb ty "childList".

(** What [patch_grouped_children] does to the tree first: every node of
    every group is taken out. *)
Definition detach_all (groups : list Group.t) (d : Dom.t) : Dom.t :=
  fold_left (fun d g => fold_left (fun d n => Dom.detach n d) (Group.nodes g) d) groups d.

(** Placing one group *)
Definition place (g : Group.t) : Js.M Env.t unit :=
  match Group.parent g with
  | Some p => placement p g
  | None => Js.ret tt
  end.

(** ** Caches built by [mark] *)

(** The caches that [new PropertyCache()] and calls of [mark] lead to *)
Inductive marked : PropertyCache.t -> Prop :=
| marked_new : marked PropertyCache.new
| marked_mark mode key value old c :
    marked c -> marked (PropertyCache.mark mode key value old c).

Definition clean_count (m : JsMap.t Value CachedProp.t) : Z :=
  Z.of_nat (List.length (filter (fun p => negb (CachedProp.dirty p)) (JsMap.values m))).

(** The original value the cache holds for [key] once [mark] has seen it
    with [old_value]: the one it held before, if any. *)
Definition original_value (mode : PropMode) (key old_value : Value) (c : PropertyCache.t)
  : Value :=
  match JsMap.get key (PropertyCache.get_map mode c) with
  | Some p => CachedProp.value p
  | None => old_value
  end.

(** ** Attributes of the live tree *)

(** What [node.getAttribute(k)] reads on an element *)
Definition attr_in (l : list Attr.t) (k : string) : Value :=
  match find (Attr.named k) l with
  | Some a => v_string (Attr.value a)
  | None => v_null
  end.

Definition attr_value (d : Dom.t) (node : Node) (k : string) : Value :=
  attr_in (Dom.attribute_list d node) k.

(** What [getAttribute] reads once [revert] has written back the original
    value [v]: [null] removes the attribute, any other value is stored as a
    string. *)
Definition written_back (v : Value) : Value :=
  match v with
  | v_null => v_null
  | _ => v_string (to_string v)
  end.

(** No two attributes of [node] have the same qualified name. *)
Definition unique_names (d : Dom.t) (node : Node) : Prop :=
  NoDup (map Attr.qualifiedName (Dom.attribute_list d node)).

(** Every attribute that [revert] has to set again (a dirty entry whose
    original value is not [null]) has a key that is a name. *)
Definition names_accepted (m : JsMap.t Value CachedProp.t) : Prop :=
  forall k p,
    In (v_string k, p) m ->
    CachedProp.dirty p = true ->
    CachedProp.value p <> v_null ->
    Attr.valid_name k = true.

(** ** Known and unknown positions *)

(** A record with a mutated position one sibling of which is unknown
    ([undefined] or a promise) *)
Definition unknown_sibling (x : MutatedNode.t) : bool :=
  match MutatedNode.mutated x with
  | Some m => negb (MutationDiff.sibling_set (Position.prev m))
              || negb (MutationDiff.sibling_set (Position.next m))
  | None => false
  end.

(** The mutated position of a record is settled with respect to the live
    tree [d]: both of its siblings are known, or it has none and its node
    has no parent. *)
Definition position_settled (d : Dom.t) (x : MutatedNode.t) : Prop :=
  match MutatedNode.mutated x with
  | Some m => MutationDiff.sibling_set (Position.prev m) = true
              /\ MutationDiff.sibling_set (Position.next m) = true
  | None => Dom.parentNode d (MutatedNode.node x) = None
  end.

(** Every reference of the floating set names a stored record. *)
Definition floating_stored (s : Tree.t) : Prop :=
  forall n r, In (n, r) (Tree.floating s) -> exists x, nth_error (Tree.mns s) r = Some x.

(** A cache with at least one entry *)
Definition cache_nonempty (c : PropertyCache.t) : Prop :=
  PropertyCache.native c <> [] \/ PropertyCache.custom c <> [].

(** Every cache of the tracker satisfies [Q]. *)
Definition props_all (Q : PropertyCache.t -> Prop) (w : MutationDiff.World) : Prop :=
  forall node c, In (node, c) (MutationDiff.props (MutationDiff.this w)) -> Q c.

(** Every entry [n => r] of the floating set names a stored record whose
    node is [n], and no node has two entries. *)
Definition floating_agrees (s : Tree.t) : Prop :=
  NoDup (JsMap.keys (Tree.floating s))
  /\ forall n r, In (n, r) (Tree.floating s) ->
                 exists x, nth_error (Tree.mns s) r = Some x /\ MutatedNode.node x = n.

(** ** The custom getter of [diff] *)

(** Every call of the getter leaves the environment as it is, whether it
    returns or throws. *)
Definition getter_reads (g : option (Node -> Value -> Js.M Env.t Value)) : Prop :=
  match g with
  | Some f => forall node key e, Js.state_of (f node key e) = e
  | None => True
  end.

(** Every call of the getter returns. *)
Definition getter_returns (g : option (Node -> Value -> Js.M Env.t Value)) : Prop :=
  match g with
  | Some f => forall node key e, exists v e', f node key e = Js.Ok v e'
  | None => True
  end.

End Spec.

(** * Concrete inputs *)

Module Ex.

(** An element (node 1, child of node 0) whose [class] attribute was
    changed from ["x"] to ["y"], and the record of that change. *)
Definition dom_class_y : Dom.t :=
  Dom.mk [(0, [1])] [(1, [Attr.mk None None "class" "y"])] [] [].

Definition record_class : MutationRecord.t :=
  MutationRecord.mk "attributes" 1 (v_string "class") v_null (v_string "x")
    [] [] None None.

Definition world_class : MutationDiff.World :=
  Js.state_of (MutationDiff.record record_class
                 (MutationDiff.mkWorld (Env.of_dom dom_class_y) MutationDiff.new)).

(** A record of a type the module does not know *)
Definition record_bogus : MutationRecord.t :=
  MutationRecord.mk "subtree" 1 v_null v_null v_null [] [] None None.

(** A cache holding one clean attribute: [class] was ["x"] and is ["x"]. *)
Definition cache_clean : PropertyCache.t :=
  PropertyCache.mark m_native (v_string "class") (v_string "x") (v_string "x")
    PropertyCache.new.

(** A text node (node 2) whose data went from ["hi"] to ["hello"], with a
    custom property ["mark"] that went from ["a"] to ["b"]. *)
Definition dom_text : Dom.t :=
  Dom.mk [(0, [2])] [] [(2, v_string "hello")] [2].

Definition cache_text : PropertyCache.t :=
  PropertyCache.mark m_custom (v_string "mark") (v_string "b") (v_string "a")
    (PropertyCache.mark m_native v_null (v_string "hello") (v_string "hi")
       PropertyCache.new).

(** [world_class] after node 1 was also taken out of its parent: a world
    with a dirty property and a floating record. *)
Definition world_busy : MutationDiff.World :=
  Js.state_of (MutationDiff.children 0 [1] [] None None world_class).

(** Nodes 2 and 4 were taken out of node 0 (children [2; 4; 1]) and put,
    unobserved, around node 3, the only child of node 1; then node 3 was
    removed. Both original siblings of node 3 stay unknown. *)
Definition tree_unknown : Tree.t :=
  Js.state_of
    (Js.for_each
       [ TreeMutations.mutation 0 [2] [] None (Some 4);
         TreeMutations.mutation 0 [4] [] None (Some 1);
         TreeMutations.mutation 1 [3] [] (Some 2) (Some 4) ]
       (fun m => m) Tree.new).

Definition world_unknown : MutationDiff.World :=
  MutationDiff.mkWorld
    (Env.of_dom (Dom.mk [(0, [1]); (1, [2; 4])] [] [] []))
    (MutationDiff.mk JsMap.empty tree_unknown).

(** Node 0 has the children [1; 2; 3; 4]. Nodes 2, 3 and 4 are removed one
    by one and inserted together in front of node 1: the records of
    [node0.prepend(node2, node3, node4)]. *)
Definition prepend_records : list MutationRecord.t :=
  [ Observer.child_list_record 0 [2] [] (Some 1) (Some 3);
    Observer.child_list_record 0 [3] [] (Some 1) (Some 4);
    Observer.child_list_record 0 [4] [] (Some 1) None;
    Observer.child_list_record 0 [] [2; 3; 4] None (Some 1) ].

(** The tree after the changes the records describe, if they describe
    changes of this tree *)
Definition replay (rs : list MutationRecord.t) (d : Dom.t) : option Dom.t :=
  fold_left
    (fun d r =>
       match d with
       | Some d =>
           Observer.child_list (MutationRecord.target r) (MutationRecord.removedNodes r)
             (MutationRecord.addedNodes r) (MutationRecord.previousSibling r)
             (MutationRecord.nextSibling r) d
       | None => None
       end)
    rs (Some d).

(** Feeding child-list records to a position tracker *)
Definition track (rs : list MutationRecord.t) : Js.M Tree.t unit :=
  Js.for_each rs
    (fun r =>
       TreeMutations.mutation (MutationRecord.target r) (MutationRecord.removedNodes r)
         (MutationRecord.addedNodes r) (MutationRecord.previousSibling r)
         (MutationRecord.nextSibling r)).

Definition tree_before_prepend : Tree.t :=
  Js.state_of (track (firstn 3 prepend_records) Tree.new).

Definition tree_prepended : Tree.t :=
  Js.state_of (track prepend_records Tree.new).

(** Node 2 is removed from node 0 and put, unobserved, in front of node 3
    in node 1 (children [3; 4]); node 3 is removed. Then nodes 5 and 6 are
    put, unobserved, behind node 2, and node 5 is removed. *)
Definition promise_records : list MutationRecord.t :=
  [ Observer.child_list_record 0 [2] [] None (Some 1);
    Observer.child_list_record 1 [3] [] (Some 2) (Some 4);
    Observer.child_list_record 1 [5] [] (Some 2) (Some 6) ].

Definition tree_one_promise : Tree.t :=
  Js.state_of (track (firstn 2 promise_records) Tree.new).

(** An element (node 1) with the attribute [p:href] in the namespace
    [urn:x], of value ["a"] *)
Definition dom_href_a : Dom.t :=
  Dom.mk [(0, [1])] [(1, [Attr.mk (Some "urn:x"%string) (Some "p"%string) "href" "a"])] [] [].

(** [tree_one_promise] with a fresh record for node 5 (index 2) and a fresh
    promise for its previous original sibling (index 4), as
    [original_promise_sibling] creates them *)
Definition tree_walk_start : Tree.t :=
  Js.state_of
    ((r <- Tree.alloc_mn (MutatedNode.mk 5 (Some (Position.of_parent (Some 1))) None) ;;
      SiblingPromise.new r Prev) tree_one_promise).

(** The tree after [p:href] was set to ["b"], and the record of the change *)
Definition dom_href_b : Dom.t :=
  Dom.mk [(0, [1])] [(1, [Attr.mk (Some "urn:x"%string) (Some "p"%string) "href" "b"])] [] [].

Definition record_href : MutationRecord.t :=
  MutationRecord.mk "attributes" 1 (v_string "href") (v_string "urn:x") (v_string "a")
    [] [] None None.

Definition world_href : MutationDiff.World :=
  Js.state_of (MutationDiff.record record_href
                 (MutationDiff.mkWorld (Env.of_dom dom_href_b) MutationDiff.new)).

(** Node 0 has the children [1; 2], node 2 is a text node whose data went
    from ["hi"] to ["hello"], and node 1 was removed. *)
Definition dom_removed : Dom.t :=
  Dom.mk [(0, [2])] [] [(2, v_string "hello")] [2].

Definition world_removed : MutationDiff.World :=
  Js.state_of
    (Js.for_each
       [ MutationRecord.mk "characterData" 2 v_null v_null (v_string "hi") [] [] None None;
         Observer.child_list_record 0 [1] [] None (Some 2) ]
       (fun r => MutationDiff.record r ;;; Js.ret tt)
       (MutationDiff.mkWorld (Env.of_dom dom_removed) MutationDiff.new)).

(** The scenarios on a root (node 0) with the children A, B, C (nodes 1, 2,
    3). The observer delivers its records once all changes are made: the
    tracker starts in the final tree. *)
Definition abc : Dom.t := Dom.mk [(0, [1; 2; 3])] [] [] [].

Definition feed (rs : list MutationRecord.t) (final : Dom.t) : MutationDiff.World :=
  Js.state_of
    (Js.for_each rs (fun r => MutationDiff.record r ;;; Js.ret tt)
       (MutationDiff.mkWorld (Env.of_dom final) MutationDiff.new)).

(** [R.append(A); R.prepend(C); R.prepend(B)] *)
Definition cycle_back : list MutationRecord.t :=
  [ Observer.child_list_record 0 [1] [] None (Some 2);
    Observer.child_list_record 0 [] [1] (Some 3) None;
    Observer.child_list_record 0 [3] [] (Some 2) (Some 1);
    Observer.child_list_record 0 [] [3] None (Some 2);
    Observer.child_list_record 0 [2] [] (Some 3) (Some 1);
    Observer.child_list_record 0 [] [2] None (Some 3) ].

(** [R.append(A); R.append(B); R.append(C)] *)
Definition rotation : list MutationRecord.t :=
  [ Observer.child_list_record 0 [1] [] None (Some 2);
    Observer.child_list_record 0 [] [1] (Some 3) None;
    Observer.child_list_record 0 [2] [] None (Some 3);
    Observer.child_list_record 0 [] [2] (Some 1) None;
    Observer.child_list_record 0 [3] [] None (Some 1);
    Observer.child_list_record 0 [] [3] (Some 2) None ].

(** [R.append(A); R.append(B); C.remove()] *)
Definition mixed_remove : list MutationRecord.t := firstn 5 rotation.

(** [A.class] goes from ["x"] to ["y"] and back. *)
Definition dom_class_x : Dom.t :=
  Dom.mk [(0, [1])] [(1, [Attr.mk None None "class" "x"])] [] [].

Definition class_toggle : list MutationRecord.t :=
  [ MutationRecord.mk "attributes" 1 (v_string "class") v_null (v_string "x") [] [] None None;
    MutationRecord.mk "attributes" 1 (v_string "class") v_null (v_string "y") [] [] None None ].

(** The data of the text node 2 goes from ["hi"] to ["hello"] and back. *)
Definition dom_text_hi : Dom.t :=
  Dom.mk [(0, [2])] [] [(2, v_string "hi")] [2].

Definition data_toggle : list MutationRecord.t :=
  [ MutationRecord.mk "characterData" 2 v_null v_null (v_string "hi") [] [] None None;
    MutationRecord.mk "characterData" 2 v_null v_null (v_string "hello") [] [] None None ].

(** Node 2 was taken out of node 0 (children [2; 1]) and then put,
    unobserved, between the children 6 and 7 of node 5. *)
Definition tree_adopted : Tree.t :=
  Js.state_of (TreeMutations.mutation 0 [2] [] None (Some 1) Tree.new).

Definition dom_adopted : Dom.t := Dom.mk [(0, [1]); (5, [6; 2; 7])] [] [] [].

(** An element (node 1) whose attribute [xlink:href] went from ["a"] to
    ["b"], and the record of that change. *)
Definition xlink : string := "http://www.w3.org/1999/xlink".

Definition dom_xlink : Dom.t :=
  Dom.mk [(0, [1])] [(1, [Attr.mk (Some xlink) (Some "xlink"%string) "href" "b"])] [] [].

Definition record_xlink : MutationRecord.t :=
  MutationRecord.mk "attributes" 1 (v_string "href") (v_string xlink) (v_string "a")
    [] [] None None.

Definition world_xlink : MutationDiff.World :=
  Js.state_of (MutationDiff.record record_xlink
                 (MutationDiff.mkWorld (Env.of_dom dom_xlink) MutationDiff.new)).

(** [world_removed] once the embedder has also reported that its property
    ["mark"] of node 2 went from ["a"] to ["b"]; a getter that answers
    ["b"] for every property, one that also writes to the console, and one
    that has no answer. *)
Definition world_marked : MutationDiff.World :=
  Js.state_of (MutationDiff.custom 2 (v_string "mark") (v_string "b") (v_string "a")
                 world_removed).

Definition getter_b (node : Node) (key : Value) : Js.M Env.t Value :=
  Js.ret (v_string "b").

Definition getter_loud (node : Node) (key : Value) : Js.M Env.t Value :=
  Env.warn "read" ;;; Js.ret (v_string "b").

Definition getter_fails (node : Node) (key : Value) : Js.M Env.t Value :=
  Js.throw (Js.Error_ "no value").

End Ex.

(** * Proof vocabulary *)

(** [m] keeps the invariant [P] of the state, whether it returns or throws. *)
Definition preserves {S A} (P : S -> Prop) (m : Js.M S A) : Prop :=
  forall s, P s -> P (Js.state_of (m s)).

(** [m] does not change the state. *)
Definition readonly {S A} (m : Js.M S A) : Prop :=
  forall s, Js.state_of (m s) = s.

(** What an entry contributes to the number of dirty entries *)
Definition dirty_bit (p : CachedProp.t) : Z := if CachedProp.dirty p then 1 else 0.

(** The property caches of a world satisfy the dirty accounting. *)
Definition world_wf (w : MutationDiff.World) : Prop :=
  Spec.props_wf (MutationDiff.this w).

(** * Properties of the embedded code *)

(** ** Completion records *)

Lemma bind_Ok {S A B} (m : Js.M S A) (k : A -> Js.M S B) s b s' :
  Js.bind m k s = Js.Ok b s' ->
  exists a s1, m s = Js.Ok a s1 /\ k a s1 = Js.Ok b s'.
Proof.
  unfold Js.bind. destruct (m s) as [a s1|e s1]; [eauto | discriminate].
Qed.

(** ** Evaluation of calls on nodes that are variables *)

Lemma bind_run {S A B} (m : Js.M S A) (k : A -> Js.M S B) s r1 r :
  m s = r1 ->
  match r1 with Js.Ok a s1 => k a s1 | Js.Throw e s1 => Js.Throw e s1 end = r ->
  Js.bind m k s = r.
Proof. intros <- <-. reflexivity. Qed.

Lemma neq_eqb (a b : nat) : a <> b -> Nat.eqb a b = false /\ Nat.eqb b a = false.
Proof. intros H. split; apply Nat.eqb_neq; congruence. Qed.

Lemma neq_Some_eqb (a b : nat) : Some a <> Some b -> Nat.eqb a b = false /\ Nat.eqb b a = false.
Proof. intros H. apply neq_eqb. congruence. Qed.

(** The equality tests on the nodes are decided by the hypotheses in the
    context. *)
Ltac decide_tests :=
  repeat (progress (cbv -[Nat.eqb];
                    repeat match goal with
                           | H : Nat.eqb _ _ = _ |- _ => rewrite !H
                           end;
                    rewrite ?Nat.eqb_refl;
                    cbn [Nat.eqb])).

(** A sequence of calls is evaluated call by call, and a conditional by
    its test first. *)
Ltac run :=
  cbv beta iota zeta;
  lazymatch goal with
  | |- Js.bind _ _ _ = _ => eapply bind_run; [ run | run ]
  | |- (if ?c then _ else _) _ = _ =>
      let H := fresh in
      eassert (H : c = _) by (decide_tests; reflexivity);
      rewrite H; clear H; run
  | |- TreeMutations.handle_promises _ _ _ _ _ = _ =>
      unfold TreeMutations.handle_promises; run
  | |- TreeMutations.revert_check _ _ _ _ _ _ = _ =>
      unfold TreeMutations.revert_check; run
  | |- TreeMutations.assert_valid_state _ = _ =>
      unfold TreeMutations.assert_valid_state; run
  | |- _ => decide_tests; reflexivity
  end.

(** The hypotheses that nodes differ, as results of the tests. *)
Ltac node_facts :=
  repeat match goal with
         | H : Some _ <> Some _ |- _ => destruct (neq_Some_eqb H); clear H
         | H : _ <> _ |- _ => destruct (neq_eqb H); clear H
         end.

(** ** [diff] and its filter *)

Lemma band_ORIGINAL filter : MutationDiff.band filter "ORIGINAL" = Z.land filter 32.
Proof. reflexivity. Qed.

Lemma band_MUTATED filter : MutationDiff.band filter "MUTATED" = Z.land filter 16.
Proof. reflexivity. Qed.

(** The test of the attributes block reads a static the class does not
    declare, so the block is never entered. *)
Lemma band_ATTRIBUTES filter : MutationDiff.band filter "ATTRIBUTES" = 0%Z.
Proof. reflexivity. Qed.

(** C10. [diff(filter)] returns an empty map whenever [filter] has neither
    the ORIGINAL nor the MUTATED bit, whatever the other bits, the property
    caches and the floating set are. *)
Theorem diff_empty_without_original_and_mutated
    (filter : Z) (getter : option (Node -> Value -> Js.M Env.t Value))
    (w : MutationDiff.World) :
  Z.land filter MutationDiff.ORIGINAL = 0%Z ->
  Z.land filter MutationDiff.MUTATED = 0%Z ->
  MutationDiff.diff filter getter w = Js.Ok JsMap.empty w.
Proof.
  intros HO HM. unfold MutationDiff.diff.
  rewrite band_ORIGINAL, band_MUTATED.
  unfold MutationDiff.ORIGINAL, MutationDiff.MUTATED in *.
  rewrite HO, HM. reflexivity.
Qed.

Lemma diff_empty_witness :
  Spec.floating_nonempty (MutationDiff.this Ex.world_busy)
  /\ Spec.some_entry_dirty (MutationDiff.this Ex.world_busy)
  /\ Z.land 15 MutationDiff.ORIGINAL = 0%Z
  /\ Z.land 15 MutationDiff.MUTATED = 0%Z
  /\ MutationDiff.diff 15 None Ex.world_busy = Js.Ok JsMap.empty Ex.world_busy.
Proof.
  split; [vm_compute; discriminate|].
  split.
  { exists 1, (PropertyCache.mk [(v_string "class", CachedProp.mk (v_string "x") true)] [] 0 1),
      (v_string "class"), (CachedProp.mk (v_string "x") true).
    split; [vm_compute; left; reflexivity|].
    split; [left; left; reflexivity | reflexivity]. }
  split; [reflexivity|]. split; [reflexivity|].
  apply (diff_empty_without_original_and_mutated 15 None Ex.world_busy); reflexivity.
Defined.

(** C5. The element of [Ex.world_class] has a dirty [class] entry (original
    ["x"], now ["y"]), and [diff(ALL)] has no entry for it: the attributes
    block tests the undeclared static [ATTRIBUTES]. *)
Theorem diff_all_misses_dirty_attribute :
  (exists c,
      JsMap.get 1 (MutationDiff.props (MutationDiff.this Ex.world_class)) = Some c
      /\ JsMap.get (v_string "class") (PropertyCache.native c)
         = Some (CachedProp.mk (v_string "x") true))
  /\ MutationDiff.static "ATTRIBUTES" = None
  /\ MutationDiff.diff MutationDiff.ALL None Ex.world_class
     = Js.Ok JsMap.empty Ex.world_class.
Proof.
  split.
  - eexists. split; reflexivity.
  - split; reflexivity.
Qed.

(** ** [record] *)

(** C8, as stated, fails: a record of unknown type is not rejected; the
    call returns normally. *)
Lemma record_unknown_type_not_rejected :
  MutationDiff.record Ex.record_bogus Ex.world_class = Js.Ok v_undefined Ex.world_class
  /\ forall e s, MutationDiff.record Ex.record_bogus Ex.world_class <> Js.Throw e s.
Proof.
  split; [reflexivity|]. intros e s. discriminate.
Qed.

(** C8, amended. A record whose type is none of [attributes],
    [characterData], [childList] is ignored: [record] returns [undefined]
    without raising an error, and the state is unchanged. *)
Theorem record_unknown_type_is_ignored (r : MutationRecord.t) (w : MutationDiff.World) :
  Spec.known_type (MutationRecord.type r) = false ->
  MutationDiff.record r w = Js.Ok v_undefined w.
Proof.
  unfold Spec.known_type, MutationDiff.record. intros H.
  apply orb_false_iff in H. destruct H as [H H3].
  apply orb_false_iff in H. destruct H as [H1 H2].
  rewrite H1, H2, H3. reflexivity.
Qed.

Lemma record_unknown_type_witness :
  MutationDiff.record Ex.record_bogus Ex.world_busy = Js.Ok v_undefined Ex.world_busy.
Proof.
  apply (record_unknown_type_is_ignored Ex.record_bogus Ex.world_busy). reflexivity.
Defined.

(** ** [PropertyCache.synchronize] *)

(** The first value the loops of [synchronize] reach makes the call throw;
    nothing has been removed by then. *)
Lemma synchronize_throws_native (c : PropertyCache.t) :
  PropertyCache.native c <> [] ->
  PropertyCache.synchronize c = Js.Throw (Js.TypeError "object is not iterable") c.
Proof.
  intros H. unfold PropertyCache.synchronize, Js.bind, Js.get.
  destruct (PropertyCache.native c) as [|[k x] tl]; [congruence|]. reflexivity.
Qed.

(** C6. On a cache holding one clean entry, [synchronize] throws a
    TypeError instead of removing the entry and returning 0; the entry is
    still there. *)
Theorem synchronize_throws_on_clean_entry :
  PropertyCache.native Ex.cache_clean
  = [(v_string "class", CachedProp.mk (v_string "x") false)]
  /\ PropertyCache.synchronize Ex.cache_clean
     = Js.Throw (Js.TypeError "object is not iterable") Ex.cache_clean.
Proof. split; reflexivity. Qed.

(** ** [PropertyCache.revert] *)

(** With a callback, [revert] never returns. *)
Lemma revert_with_callback_never_returns this node cb e v e' :
  PropertyCache.revert this node (Some cb) e <> Js.Ok v e'.
Proof.
  unfold PropertyCache.revert, Js.bind.
  destruct (Js.for_each _ _ e); unfold unbound, Js.throw; discriminate.
Qed.

(** C7. [Ex.cache_text] has a dirty custom entry ["mark"] with original
    ["a"]. [revert] with a callback restores the data of the node and then
    throws a ReferenceError; the callback is not invoked. *)
Theorem revert_with_callback_throws :
  JsMap.get (v_string "mark") (PropertyCache.custom Ex.cache_text)
  = Some (CachedProp.mk (v_string "a") true)
  /\ PropertyCache.revert Ex.cache_text 2 (Some Env.log_call) (Env.of_dom Ex.dom_text)
     = Js.Throw (Js.ReferenceError "props is not defined")
         (Env.mk (Dom.mk [(0, [2])] [] [(2, v_string "hi")] [2]) [] []).
Proof. split; reflexivity. Qed.

(** ** Invariants through the method monad *)

Lemma preserves_ret {S A} (P : S -> Prop) (a : A) : preserves P (Js.ret a).
Proof. intros s H. exact H. Qed.

Lemma preserves_throw {S A} (P : S -> Prop) e : preserves P (@Js.throw S A e).
Proof. intros s H. exact H. Qed.

Lemma preserves_get {S} (P : S -> Prop) : preserves P (@Js.get S).
Proof. intros s H. exact H. Qed.

Lemma preserves_bind {S A B} (P : S -> Prop) (m : Js.M S A) (k : A -> Js.M S B) :
  preserves P m -> (forall a, preserves P (k a)) -> preserves P (Js.bind m k).
Proof.
  intros Hm Hk s H. unfold Js.bind. specialize (Hm s H).
  destruct (m s) as [a s1|e s1]; simpl in *; [apply Hk; exact Hm | exact Hm].
Qed.

Lemma preserves_for_each {S A} (P : S -> Prop) (xs : list A) (body : A -> Js.M S unit) :
  (forall x, preserves P (body x)) -> preserves P (Js.for_each xs body).
Proof.
  intros Hb. induction xs as [|x xs IH]; simpl.
  - apply preserves_ret.
  - apply preserves_bind; [apply Hb | intros _; exact IH].
Qed.

Lemma preserves_fold {S A L} (P : S -> Prop) (xs : list A) (body : A -> L -> Js.M S L) l :
  (forall x l, preserves P (body x l)) -> preserves P (Js.fold xs body l).
Proof.
  intros Hb. revert l. induction xs as [|x xs IH]; intros l; simpl.
  - apply preserves_ret.
  - apply preserves_bind; [apply Hb | intros l'; apply IH].
Qed.

Lemma preserves_if {S A} (P : S -> Prop) (b : bool) (m1 m2 : Js.M S A) :
  preserves P m1 -> preserves P m2 -> preserves P (if b then m1 else m2).
Proof. destruct b; auto. Qed.

(** What runs on the environment or on the position tracker does not touch
    the property caches. *)
Lemma on_env_props {A} (m : Js.M Env.t A) w :
  MutationDiff.props (MutationDiff.this (Js.state_of (MutationDiff.on_env m w)))
  = MutationDiff.props (MutationDiff.this w).
Proof.
  unfold MutationDiff.on_env, Js.zoom. destruct (m (MutationDiff.env w)); reflexivity.
Qed.

Lemma on_tree_props {A} (m : Js.M Tree.t A) w :
  MutationDiff.props (MutationDiff.this (Js.state_of (MutationDiff.on_tree m w)))
  = MutationDiff.props (MutationDiff.this w).
Proof.
  unfold MutationDiff.on_tree, Js.zoom.
  destruct (m (MutationDiff.tree (MutationDiff.this w))); reflexivity.
Qed.

Lemma preserves_on_env {A} (m : Js.M Env.t A) : preserves world_wf (MutationDiff.on_env m).
Proof. intros w H. unfold world_wf, Spec.props_wf in *. rewrite on_env_props. exact H. Qed.

Lemma preserves_on_tree {A} (m : Js.M Tree.t A) : preserves world_wf (MutationDiff.on_tree m).
Proof. intros w H. unfold world_wf, Spec.props_wf in *. rewrite on_tree_props. exact H. Qed.

(** ** Maps *)

Lemma JsMap_In_set {K V} `{EqKey K} (k k0 : K) (v v0 : V) (m : JsMap.t K V) :
  In (k, v) (JsMap.set k0 v0 m) -> (k, v) = (k0, v0) \/ In (k, v) m.
Proof.
  induction m as [|[k' v'] m IH]; simpl.
  - intros [E|[]]; left; congruence.
  - destruct (eqk k0 k'); simpl.
    + intros [E|Hin]; [left; congruence | right; right; exact Hin].
    + intros [E|Hin]; [right; left; exact E|].
      destruct (IH Hin) as [E|Hin']; [left; exact E | right; right; exact Hin'].
Qed.

Lemma JsMap_In_delete {K V} `{EqKey K} (k k0 : K) (v : V) (m : JsMap.t K V) :
  In (k, v) (JsMap.delete k0 m) -> In (k, v) m.
Proof.
  induction m as [|[k' v'] m IH]; simpl; [auto|].
  destruct (eqk k0 k'); simpl.
  - intros Hin. right. apply IH, Hin.
  - intros [E|Hin]; [left; exact E | right; apply IH, Hin].
Qed.

Lemma JsMap_get_In {K V} `{EqKey K} (k : K) (v : V) (m : JsMap.t K V) :
  JsMap.get k m = Some v -> In (k, v) m.
Proof.
  induction m as [|[k' v'] m IH]; simpl; [discriminate|].
  destruct (eqk_spec k k') as [->|Hne].
  - intros E. injection E as ->. left. reflexivity.
  - intros E. right. apply IH, E.
Qed.

(** ** Dirty accounting *)

Lemma dirty_count_nil : Spec.dirty_count [] = 0%Z.
Proof. reflexivity. Qed.

Lemma dirty_count_cons k p m :
  Spec.dirty_count ((k, p) :: m) = (dirty_bit p + Spec.dirty_count m)%Z.
Proof.
  unfold Spec.dirty_count, dirty_bit, JsMap.values. simpl.
  destruct (CachedProp.dirty p); simpl List.length; lia.
Qed.

Lemma dirty_count_nonneg m : (0 <= Spec.dirty_count m)%Z.
Proof. unfold Spec.dirty_count. lia. Qed.

Lemma dirty_count_set_new k p m :
  JsMap.get k m = None ->
  Spec.dirty_count (JsMap.set k p m) = (Spec.dirty_count m + dirty_bit p)%Z.
Proof.
  induction m as [|[k' p'] m IH]; cbn [JsMap.get JsMap.set].
  - intros _. rewrite dirty_count_cons, dirty_count_nil. lia.
  - destruct (eqk k k'); intros Hg; [discriminate|].
    rewrite !dirty_count_cons, IH by exact Hg. lia.
Qed.

Lemma dirty_count_set_old k p p0 m :
  JsMap.get k m = Some p0 ->
  Spec.dirty_count (JsMap.set k p m)
  = (Spec.dirty_count m - dirty_bit p0 + dirty_bit p)%Z.
Proof.
  induction m as [|[k' p'] m IH]; cbn [JsMap.get JsMap.set]; [discriminate|].
  destruct (eqk k k').
  - intros E. injection E as ->. rewrite !dirty_count_cons. lia.
  - intros Hg. rewrite !dirty_count_cons, IH by exact Hg. lia.
Qed.

Lemma dirty_count_pos_iff m :
  (Spec.dirty_count m <> 0)%Z <-> exists k p, In (k, p) m /\ CachedProp.dirty p = true.
Proof.
  induction m as [|[k p] m IH].
  - rewrite dirty_count_nil. split; [congruence | intros (k & p & [] & _)].
  - rewrite dirty_count_cons. unfold dirty_bit.
    pose proof (dirty_count_nonneg m) as Hn.
    destruct (CachedProp.dirty p) eqn:Hd.
    + split; [|lia]. intros _. exists k, p. split; [left; reflexivity | exact Hd].
    + split.
      * intros Hne. destruct IH as [IH _].
        destruct IH as (k1 & p1 & Hin & Hd1); [lia|].
        exists k1, p1. split; [right; exact Hin | exact Hd1].
      * intros (k1 & p1 & [E|Hin] & Hd1).
        -- injection E as <- <-. congruence.
        -- destruct IH as [_ IH]. assert (Spec.dirty_count m <> 0%Z) by (apply IH; eauto). lia.
Qed.

Lemma cache_wf_new : Spec.cache_wf PropertyCache.new.
Proof. reflexivity. Qed.

(** [mark] keeps the counter [_dirty] equal to the number of dirty entries. *)
Lemma cache_wf_mark mode key value old c :
  Spec.cache_wf c -> Spec.cache_wf (PropertyCache.mark mode key value old c).
Proof.
  unfold Spec.cache_wf, PropertyCache.mark. intros Hwf.
  destruct (JsMap.get key (PropertyCache.get_map mode c)) as [p0|] eqn:Hg.
  - destruct (Bool.eqb (negb (Value_eqb value (CachedProp.value p0))) (CachedProp.dirty p0)) eqn:Hb;
      simpl; [exact Hwf|].
    destruct mode; simpl in *; erewrite dirty_count_set_old by exact Hg; rewrite Hwf;
      unfold dirty_bit; simpl;
      destruct (Value_eqb value (CachedProp.value p0)), (CachedProp.dirty p0);
      simpl in *; try discriminate; lia.
  - destruct mode; simpl in *;
      destruct (Value_eqb value old); simpl;
      rewrite dirty_count_set_new by exact Hg; rewrite Hwf; unfold dirty_bit; simpl; lia.
Qed.

(** Whatever [synchronize] does to a cache, the accounting still holds. *)
Lemma cache_wf_synchronize c :
  Spec.cache_wf c -> Spec.cache_wf (Js.state_of (PropertyCache.synchronize c)).
Proof.
  intros Hwf. destruct c as [[|[k x] tl] cus cl di].
  - destruct cus as [|[k x] tl]; [reflexivity | exact Hwf].
  - rewrite synchronize_throws_native by (simpl; congruence). exact Hwf.
Qed.

(** ** The accounting is an invariant of every method *)

Lemma world_wf_set_props p w :
  (forall node c, In (node, c) p -> Spec.cache_wf c) ->
  world_wf (Js.state_of (MutationDiff.set_props p w)).
Proof. intros H. exact H. Qed.

Lemma preserves_set_props_empty : preserves world_wf (MutationDiff.set_props JsMap.empty).
Proof. intros w _. apply world_wf_set_props. intros node c []. Qed.

Lemma preserves_prop node mode key value old :
  preserves world_wf (MutationDiff.prop node mode key value old).
Proof.
  intros w Hwf. unfold MutationDiff.prop, Js.bind, Js.get. simpl.
  intros n c Hin. simpl in Hin.
  apply JsMap_In_set in Hin. destruct Hin as [E|Hin]; [|exact (Hwf _ _ Hin)].
  injection E as _ ->. apply cache_wf_mark.
  destruct (JsMap.get node _) as [c0|] eqn:Hg.
  - apply (Hwf node c0). apply JsMap_get_In, Hg.
  - apply cache_wf_new.
Qed.

Lemma preserves_attribute node key old :
  preserves world_wf (MutationDiff.attribute node key old).
Proof.
  apply preserves_bind; [apply preserves_on_env | intros v; apply preserves_prop].
Qed.

Lemma preserves_data node old : preserves world_wf (MutationDiff.data node old).
Proof.
  apply preserves_bind; [apply preserves_get | intros w; apply preserves_prop].
Qed.

Lemma preserves_custom node key value old :
  preserves world_wf (MutationDiff.custom node key value old).
Proof. apply preserves_prop. Qed.

Lemma preserves_children parent removed added prev next :
  preserves world_wf (MutationDiff.children parent removed added prev next).
Proof.
  apply preserves_bind; [apply preserves_on_tree | intros _; apply preserves_ret].
Qed.

Lemma preserves_record r : preserves world_wf (MutationDiff.record r).
Proof.
  unfold MutationDiff.record.
  apply preserves_bind; [|intros _; apply preserves_ret].
  repeat apply preserves_if.
  - apply preserves_bind; [apply preserves_attribute | intros _; apply preserves_ret].
  - apply preserves_bind; [apply preserves_data | intros _; apply preserves_ret].
  - apply preserves_bind; [apply preserves_children | intros _; apply preserves_ret].
  - apply preserves_ret.
Qed.

Lemma preserves_mutated root : preserves world_wf (MutationDiff.mutated root).
Proof.
  unfold MutationDiff.mutated.
  apply preserves_bind; [apply preserves_get | intros w].
  destruct root as [root|].
  - apply preserves_if; [apply preserves_ret|].
    apply preserves_bind; [apply preserves_on_tree | intros b; apply preserves_ret].
  - apply preserves_if; apply preserves_ret.
Qed.

Lemma preserves_diff filter getter : preserves world_wf (MutationDiff.diff filter getter).
Proof.
  unfold MutationDiff.diff.
  apply preserves_if; [|apply preserves_ret].
  apply preserves_bind; [apply preserves_get | intros w].
  apply preserves_bind.
  - apply preserves_if; [apply preserves_on_env | apply preserves_ret].
  - intros out. apply preserves_if; [apply preserves_on_tree | apply preserves_ret].
Qed.

Lemma preserves_revert cb : preserves world_wf (MutationDiff.revert cb).
Proof.
  unfold MutationDiff.revert.
  apply preserves_bind; [apply preserves_get | intros w].
  apply preserves_bind; [apply preserves_on_env | intros _].
  apply preserves_bind; [apply preserves_set_props_empty | intros _].
  apply preserves_bind; [apply preserves_on_tree | intros groups].
  apply preserves_bind; [apply preserves_on_env | intros _].
  apply preserves_bind; [apply preserves_on_tree | intros _; apply preserves_ret].
Qed.

Lemma preserves_clear : preserves world_wf MutationDiff.clear.
Proof.
  unfold MutationDiff.clear.
  apply preserves_bind; [apply preserves_set_props_empty | intros _].
  apply preserves_bind; [apply preserves_on_tree | intros _; apply preserves_ret].
Qed.

Lemma preserves_synchronize_props : preserves world_wf MutationDiff.synchronize_props.
Proof.
  unfold MutationDiff.synchronize_props.
  apply preserves_bind; [apply preserves_get | intros w0].
  apply preserves_for_each. intros node w Hwf.
  unfold Js.bind, Js.get.
  destruct (JsMap.get node (MutationDiff.props (MutationDiff.this w))) as [c|] eqn:Hg;
    [|exact Hwf].
  assert (Hc : Spec.cache_wf c) by (apply (Hwf node c), JsMap_get_In, Hg).
  pose proof (cache_wf_synchronize Hc) as Hs.
  destruct (PropertyCache.synchronize c) as [n c'|e c']; simpl in Hs.
  - destruct (n =? 0)%Z; apply world_wf_set_props; intros n1 c1 Hin.
    + apply JsMap_In_delete in Hin. exact (Hwf _ _ Hin).
    + apply JsMap_In_set in Hin. destruct Hin as [E|Hin]; [|exact (Hwf _ _ Hin)].
      injection E as _ ->. exact Hs.
  - simpl. intros n1 c1 Hin. simpl in Hin.
    apply JsMap_In_set in Hin. destruct Hin as [E|Hin]; [|exact (Hwf _ _ Hin)].
    injection E as _ ->. exact Hs.
Qed.

(** Every reachable state satisfies the accounting. *)
Lemma reachable_wf w : Spec.reachable w -> world_wf w.
Proof.
  induction 1.
  - intros node c [].
  - exact IHreachable.
  - exact IHreachable.
  - apply preserves_record, IHreachable.
  - apply preserves_attribute, IHreachable.
  - apply preserves_data, IHreachable.
  - apply preserves_custom, IHreachable.
  - apply preserves_children, IHreachable.
  - apply preserves_mutated, IHreachable.
  - apply preserves_diff, IHreachable.
  - apply preserves_revert, IHreachable.
  - apply preserves_clear, IHreachable.
  - apply preserves_synchronize_props, IHreachable.
Qed.

(** ** [mutated(null)] *)

Lemma cache_dirty_iff c :
  Spec.cache_wf c ->
  (MutationDiff.nonzero (PropertyCache.dirty c) = true <->
   exists key p,
     (In (key, p) (PropertyCache.native c) \/ In (key, p) (PropertyCache.custom c))
     /\ CachedProp.dirty p = true).
Proof.
  unfold Spec.cache_wf, MutationDiff.nonzero, PropertyCache.dirty. intros ->.
  pose proof (dirty_count_nonneg (PropertyCache.native c)) as Hn.
  pose proof (dirty_count_nonneg (PropertyCache.custom c)) as Hc.
  rewrite negb_true_iff, Z.eqb_neq. split.
  - intros Hne.
    destruct (Z.eq_dec (Spec.dirty_count (PropertyCache.native c)) 0) as [E|Hne'].
    + assert (Hc' : Spec.dirty_count (PropertyCache.custom c) <> 0%Z) by lia.
      apply dirty_count_pos_iff in Hc'. destruct Hc' as (k & p & Hin & Hd). eauto.
    + apply dirty_count_pos_iff in Hne'. destruct Hne' as (k & p & Hin & Hd). eauto.
  - intros (k & p & [Hin|Hin] & Hd).
    + assert (Spec.dirty_count (PropertyCache.native c) <> 0%Z)
        by (apply dirty_count_pos_iff; eauto). lia.
    + assert (Spec.dirty_count (PropertyCache.custom c) <> 0%Z)
        by (apply dirty_count_pos_iff; eauto). lia.
Qed.

(** C3. In every reachable state, [mutated(null)] returns, and it returns
    [true] exactly when the floating set is non-empty or some entry of some
    property cache is dirty. *)
Theorem mutated_null_iff (w : MutationDiff.World) :
  Spec.reachable w ->
  exists b,
    MutationDiff.mutated None w = Js.Ok b w
    /\ (b = true <->
        Spec.floating_nonempty (MutationDiff.this w)
        \/ Spec.some_entry_dirty (MutationDiff.this w)).
Proof.
  intros Hr. pose proof (reachable_wf Hr) as Hwf.
  unfold MutationDiff.mutated, Js.bind, Js.get, TreeMutations.size, JsMap.size.
  unfold Spec.floating_nonempty.
  destruct (Tree.floating (MutationDiff.tree (MutationDiff.this w))) as [|f fl] eqn:Hf; simpl.
  - eexists. split; [reflexivity|].
    rewrite existsb_exists. split.
    + intros (c & Hin & Hd). right.
      unfold JsMap.values in Hin. apply in_map_iff in Hin.
      destruct Hin as ([node c'] & E & Hin). simpl in E. subst c'.
      apply (cache_dirty_iff (Hwf _ _ Hin)) in Hd.
      destruct Hd as (k & p & Hkp & Hd). exists node, c, k, p. auto.
    + intros [Hne|(node & c & k & p & Hin & Hkp & Hd)]; [congruence|].
      exists c. split.
      * unfold JsMap.values. apply in_map_iff. exists (node, c). auto.
      * apply (cache_dirty_iff (Hwf _ _ Hin)). eauto.
  - exists true. split; [reflexivity|]. split; [|reflexivity].
    intros _. left. discriminate.
Qed.

Lemma mutated_null_iff_witness :
  exists b,
    MutationDiff.mutated None Ex.world_class = Js.Ok b Ex.world_class
    /\ (b = true <->
        Spec.floating_nonempty (MutationDiff.this Ex.world_class)
        \/ Spec.some_entry_dirty (MutationDiff.this Ex.world_class)).
Proof.
  apply (mutated_null_iff (w := Ex.world_class)).
  apply Spec.reach_record, Spec.reach_new.
Defined.

(** ** [patch_grouped_children] and [revert] *)

Lemma for_each_ext_in {S A} (l : list A) (f g : A -> Js.M S unit) :
  (forall x, In x l -> f x = g x) -> Js.for_each l f = Js.for_each l g.
Proof.
  induction l as [|x l IH]; intros H; simpl; [reflexivity|].
  rewrite (H x (or_introl eq_refl)), IH; [reflexivity|].
  intros y Hy. apply H. right. exact Hy.
Qed.

Lemma for_each_map {S A B} (h : A -> B) (l : list A) (f : B -> Js.M S unit) :
  Js.for_each (map h l) f = Js.for_each l (fun x => f (h x)).
Proof.
  induction l as [|x l IH]; simpl; [reflexivity|]. rewrite IH. reflexivity.
Qed.

(** Taking nodes out of the tree never throws and touches nothing else. *)
Lemma detach_nodes_ok (l : list Node) (e : Env.t) :
  Js.for_each l (fun n => Env.on_dom (Dom.remove n)) e
  = Js.Ok tt (Env.mk (fold_left (fun d n => Dom.detach n d) l (Env.dom e))
                (Env.console e) (Env.calls e)).
Proof.
  revert e. induction l as [|n l IH]; intros e; simpl.
  - destruct e; reflexivity.
  - unfold Js.bind. simpl. rewrite IH. reflexivity.
Qed.

Lemma placeable_unplaceable g :
  Spec.placeable g = true -> Spec.unplaceable g = false.
Proof.
  unfold Spec.placeable, Spec.unplaceable.
  destruct (Group.parent g), (MutationDiff.sibling_set (Group.next g)),
    (MutationDiff.sibling_set (Group.prev g)); simpl; congruence.
Qed.

(** One pass of the first loop *)
Lemma patch_detach_step (g : Group.t) add e :
  MutationDiff.patch_detach g add e
  = Js.Ok (add ++ if Spec.placeable g
                  then [(g, MutationDiff.sibling_set (Group.next g))] else [])
      (Env.mk (fold_left (fun d n => Dom.detach n d) (Group.nodes g) (Env.dom e))
         (Env.console e ++ if Spec.unplaceable g then [Spec.warning] else [])
         (Env.calls e)).
Proof.
  unfold MutationDiff.patch_detach, Js.bind. rewrite detach_nodes_ok.
  unfold Spec.placeable, Spec.unplaceable.
  destruct (Group.parent g) as [p|];
    destruct (MutationDiff.sibling_set (Group.next g));
    destruct (MutationDiff.sibling_set (Group.prev g));
    simpl; rewrite ?app_nil_r; reflexivity.
Qed.

(** The first loop: it returns, having detached the nodes of every group,
    logged one warning per unplaceable group and collected the placeable
    groups in order. *)
Lemma patch_detach_loop (groups : list Group.t) add e :
  Js.fold groups MutationDiff.patch_detach add e
  = Js.Ok (add ++ map (fun g => (g, MutationDiff.sibling_set (Group.next g)))
                    (filter Spec.placeable groups))
      (Env.mk (Spec.detach_all groups (Env.dom e))
         (Env.console e ++ map (fun _ => Spec.warning) (filter Spec.unplaceable groups))
         (Env.calls e)).
Proof.
  revert add e. induction groups as [|g groups IH]; intros add e.
  - simpl. rewrite !app_nil_r. destruct e; reflexivity.
  - cbn [Js.fold]. unfold Js.bind. rewrite patch_detach_step, IH.
    cbn [filter Spec.detach_all fold_left Env.dom Env.console Env.calls].
    destruct (Spec.placeable g), (Spec.unplaceable g);
      cbn [map]; rewrite <- ?app_assoc, ?app_nil_r; reflexivity.
Qed.

(** On a placeable group the second loop performs the placement by the
    known side. *)
Lemma patch_insert_placeable g :
  Spec.placeable g = true ->
  MutationDiff.patch_insert (g, MutationDiff.sibling_set (Group.next g)) = Spec.place g.
Proof.
  unfold Spec.placeable, Spec.place, Spec.placement, MutationDiff.patch_insert.
  destruct (Group.parent g) as [p|]; simpl; [|discriminate].
  destruct (Group.next g), (Group.prev g); simpl; congruence.
Qed.

(** C9, amended. [patch_grouped_children] takes the nodes of all groups out
    of the tree, logs one warning for each group that has a parent but no
    known sibling and leaves it out, and then places every group that has a
    parent and a known sibling, in order: before the next sibling or at the
    end of the parent when the next sibling is known, else after the
    previous sibling or at the start of the parent. It returns [undefined]:
    the warning on the console is the only diagnostic. *)
Theorem patch_grouped_children_spec (groups : list Group.t) (e : Env.t) :
  MutationDiff.patch_grouped_children groups e
  = (Js.for_each (filter Spec.placeable groups) Spec.place ;;; Js.ret v_undefined)
      (Env.mk (Spec.detach_all groups (Env.dom e))
         (Env.console e ++ map (fun _ => Spec.warning) (filter Spec.unplaceable groups))
         (Env.calls e)).
Proof.
  unfold MutationDiff.patch_grouped_children, Js.bind at 1.
  rewrite patch_detach_loop. simpl.
  rewrite for_each_map.
  rewrite (for_each_ext_in _ _ Spec.place); [reflexivity|].
  intros g Hg. apply filter_In in Hg. apply patch_insert_placeable, Hg.
Qed.

(** [revert] has no other return value than [undefined]. *)
Lemma revert_returns_undefined cb w v w' :
  MutationDiff.revert cb w = Js.Ok v w' -> v = v_undefined.
Proof.
  unfold MutationDiff.revert. intros E.
  apply bind_Ok in E. destruct E as (w0 & w1 & _ & E).
  apply bind_Ok in E. destruct E as (u1 & w2 & _ & E).
  apply bind_Ok in E. destruct E as (u2 & w3 & _ & E).
  apply bind_Ok in E. destruct E as (groups & w4 & _ & E).
  apply bind_Ok in E. destruct E as (u3 & w5 & _ & E).
  apply bind_Ok in E. destruct E as (u4 & w6 & _ & E).
  injection E as <- _. reflexivity.
Qed.

(** C9, as stated, fails: [revert] skips the group of node 3, whose
    siblings are both promises, logs the warning and returns [undefined],
    the value it also returns when nothing was skipped. *)
Lemma revert_returns_no_diagnostic :
  MutationDiff.diff_grouped_children MutationDiff.ORIGINAL true Ex.tree_unknown
  = Js.Ok [ Group.mk [2; 4] (Some 0) s_null (s_node 1);
            Group.mk [3] (Some 1) (s_promise 3) (s_promise 4) ] Ex.tree_unknown
  /\ MutationDiff.revert None Ex.world_unknown
     = Js.Ok v_undefined
         (MutationDiff.mkWorld
            (Env.mk (Dom.mk [(0, [2; 4; 1]); (1, [])] [] [] []) [Spec.warning] [])
            (MutationDiff.mk JsMap.empty
               (Js.state_of (TreeMutations.clear Ex.tree_unknown))))
  /\ MutationDiff.revert None (MutationDiff.mkWorld (Env.of_dom Dom.empty) MutationDiff.new)
     = Js.Ok v_undefined (MutationDiff.mkWorld (Env.of_dom Dom.empty) MutationDiff.new).
Proof. repeat split; vm_compute; reflexivity. Qed.

(** ** [#assert_valid_state] and what [mutation] guarantees on return *)

Lemma Sibling_eqb_spec a b : reflect (a = b) (Sibling_eqb a b).
Proof.
  destruct a as [| |n|p], b as [| |m|q]; simpl; try (constructor; congruence).
  - destruct (Nat.eqb_spec n m); constructor; congruence.
  - destruct (Nat.eqb_spec p q); constructor; congruence.
Qed.

Lemma readonly_Ok {S A} (m : Js.M S A) s a s' :
  readonly m -> m s = Js.Ok a s' -> s' = s.
Proof. intros H E. specialize (H s). rewrite E in H. exact H. Qed.

Lemma readonly_ret {S A} (a : A) : readonly (@Js.ret S A a).
Proof. intros s. reflexivity. Qed.

Lemma readonly_throw {S A} e : readonly (@Js.throw S A e).
Proof. intros s. reflexivity. Qed.

Lemma readonly_get {S} : readonly (@Js.get S).
Proof. intros s. reflexivity. Qed.

Lemma readonly_gets {S A} (f : S -> A) : readonly (Js.gets f).
Proof. intros s. reflexivity. Qed.

Lemma readonly_bind {S A B} (m : Js.M S A) (k : A -> Js.M S B) :
  readonly m -> (forall a, readonly (k a)) -> readonly (Js.bind m k).
Proof.
  intros Hm Hk s. unfold Js.bind. specialize (Hm s).
  destruct (m s) as [a s1|e s1]; simpl in Hm; subst; [apply Hk | reflexivity].
Qed.

Lemma readonly_for_each {S A} (xs : list A) (body : A -> Js.M S unit) :
  (forall x, readonly (body x)) -> readonly (Js.for_each xs body).
Proof.
  intros Hb. induction xs as [|x xs IH]; simpl.
  - apply readonly_ret.
  - apply readonly_bind; [apply Hb | intros _; exact IH].
Qed.

Lemma readonly_fold {S A L} (xs : list A) (body : A -> L -> Js.M S L) l :
  (forall x l, readonly (body x l)) -> readonly (Js.fold xs body l).
Proof.
  intros Hb. revert l. induction xs as [|x xs IH]; intros l; simpl.
  - apply readonly_ret.
  - apply readonly_bind; [apply Hb | intros l'; apply IH].
Qed.

Lemma readonly_read_mn r : readonly (Tree.read_mn r).
Proof. intros s. unfold Tree.read_mn. destruct (nth_error _ _); reflexivity. Qed.

Lemma readonly_read_promise p : readonly (Tree.read_promise p).
Proof. intros s. unfold Tree.read_promise. destruct (nth_error _ _); reflexivity. Qed.

Lemma readonly_position mode r what : readonly (Tree.position mode r what).
Proof.
  unfold Tree.position. apply readonly_bind; [apply readonly_read_mn|].
  intros x. destruct (MutatedNode.get mode x); [apply readonly_ret | apply readonly_throw].
Qed.

Lemma readonly_check_slot mn mode mnm dir promises :
  readonly (TreeMutations.check_slot mn mode mnm dir promises).
Proof.
  unfold TreeMutations.check_slot.
  apply readonly_bind; [apply readonly_gets | intros gval].
  destruct (Position.get dir mnm); try (destruct gval; (apply readonly_ret || apply readonly_throw)).
  destruct (option_eqb Nat.eqb gval (Some mn)); [apply readonly_ret | apply readonly_throw].
Qed.

Lemma readonly_check_mode mn mode promises :
  readonly (TreeMutations.check_mode mn mode promises).
Proof.
  unfold TreeMutations.check_mode.
  apply readonly_bind; [apply readonly_read_mn | intros x].
  destruct (MutatedNode.get mode x); [|apply readonly_ret].
  apply readonly_bind; intros; apply readonly_check_slot.
Qed.

Lemma readonly_check_promise entry : readonly (TreeMutations.check_promise entry).
Proof.
  destruct entry as [p refs]. unfold TreeMutations.check_promise.
  apply readonly_bind; [apply readonly_read_promise | intros o].
  destruct (PromiseObj.ptr o); [|apply readonly_throw].
  destruct (TreeMutations.refs_mutated refs) as [|m0 [|m1 tl]]; try apply readonly_throw.
  destruct (negb (Nat.eqb m m0)); [apply readonly_throw|].
  destruct (TreeMutations.refs_original refs) as [|o0 [|o1 tl]];
    (apply readonly_throw || apply readonly_ret).
Qed.

Lemma readonly_check_anchor_loop fuel parent target dir sibling :
  readonly (TreeMutations.check_anchor_loop fuel parent target dir sibling).
Proof.
  revert sibling. induction fuel as [|fuel IH]; intros sibling; simpl.
  - apply readonly_throw.
  - apply readonly_bind; [apply readonly_gets | intros smn].
    destruct smn as [r|].
    + apply readonly_bind; [apply readonly_read_mn | intros y].
      match goal with |- readonly (if ?c then _ else _) => destruct c end;
        [apply readonly_ret|].
      destruct (MutatedNode.mutated y) as [m|]; [|apply readonly_ret].
      destruct (Position.get dir m); try apply readonly_ret; apply IH.
    + destruct (Sibling_eqb target sibling); [apply readonly_throw | apply readonly_ret].
Qed.

Lemma readonly_check_anchor smn dir : readonly (TreeMutations.check_anchor smn dir).
Proof.
  unfold TreeMutations.check_anchor.
  apply readonly_bind; [apply readonly_position | intros o].
  apply readonly_bind; [apply readonly_position | intros m].
  apply readonly_bind; [apply readonly_get | intros s].
  apply readonly_check_anchor_loop.
Qed.

Lemma readonly_check_reverted mn : readonly (TreeMutations.check_reverted mn).
Proof.
  unfold TreeMutations.check_reverted.
  apply readonly_bind; [apply readonly_read_mn | intros x].
  destruct (MutatedNode.mutated x), (MutatedNode.original x); try apply readonly_ret.
  match goal with |- readonly (if ?c then _ else _) => destruct c end; [|apply readonly_ret].
  apply readonly_bind; intros; apply readonly_check_anchor.
Qed.

Lemma for_each_Ok_In {S A} (l : list A) (body : A -> Js.M S unit) s s' :
  (forall x, readonly (body x)) ->
  Js.for_each l body s = Js.Ok tt s' ->
  forall x, In x l -> body x s = Js.Ok tt s.
Proof.
  intros Hro. induction l as [|y l IH]; simpl; intros E x Hin; [destruct Hin|].
  apply bind_Ok in E. destruct E as ([] & s1 & Ey & El).
  assert (s1 = s) as -> by (revert Ey; apply readonly_Ok, Hro).
  destruct Hin as [->|Hin]; [exact Ey | exact (IH El x Hin)].
Qed.

(** When the last pass of [#assert_valid_state] lets a record through, the
    record is not in a reverted position. *)
Lemma check_anchor_Ok r d s x o m :
  nth_error (Tree.mns s) r = Some x ->
  MutatedNode.original x = Some o ->
  MutatedNode.mutated x = Some m ->
  Spec.not_floating s (Position.get d m) ->
  TreeMutations.check_anchor r d s = Js.Ok tt s ->
  Position.get d o <> Position.get d m.
Proof.
  intros Hx Ho Hm Hnf. unfold TreeMutations.check_anchor, Tree.position, Js.bind,
    Tree.read_mn, Js.get. rewrite Hx. cbn [MutatedNode.get]. rewrite Ho.
  unfold Js.ret. rewrite Hx. cbn [MutatedNode.get]. rewrite Hm.
  destruct (Tree.fuel s) as [|fuel] eqn:Hf; [discriminate|].
  cbn [TreeMutations.check_anchor_loop].
  unfold Js.bind, Tree.floating_get, Js.gets.
  assert (Hg : match Position.get d m with
               | s_node n => JsMap.get n (Tree.floating s)
               | _ => None
               end = None).
  { unfold Spec.not_floating in Hnf. destruct (Position.get d m); auto. }
  rewrite Hg.
  destruct (Sibling_eqb_spec (Position.get d o) (Position.get d m)) as [E|Hne];
    [discriminate | intros _; exact Hne].
Qed.

Lemma option_eqb_nat_refl (a : option nat) : option_eqb Nat.eqb a a = true.
Proof. destruct a; simpl; [apply Nat.eqb_refl | reflexivity]. Qed.

Lemma check_reverted_Ok r s x o m d :
  nth_error (Tree.mns s) r = Some x ->
  MutatedNode.original x = Some o ->
  MutatedNode.mutated x = Some m ->
  Position.parent o = Position.parent m ->
  Spec.not_floating s (Position.get d m) ->
  TreeMutations.check_reverted r s = Js.Ok tt s ->
  Position.get d o <> Position.get d m.
Proof.
  intros Hx Ho Hm Hp Hnf E.
  unfold TreeMutations.check_reverted in E.
  apply bind_Ok in E. destruct E as (x' & s1 & Er & E).
  unfold Tree.read_mn in Er. rewrite Hx in Er. injection Er as <- <-.
  rewrite Ho, Hm, Hp, option_eqb_nat_refl in E.
  apply bind_Ok in E. destruct E as ([] & s2 & E1 & E2).
  assert (s2 = s) as -> by (revert E1; apply readonly_Ok, readonly_check_anchor).
  destruct d.
  - exact (check_anchor_Ok r Prev Hx Ho Hm Hnf E1).
  - exact (check_anchor_Ok r Next Hx Ho Hm Hnf E2).
Qed.

Lemma assert_valid_state_Ok s s' :
  TreeMutations.assert_valid_state s = Js.Ok tt s' ->
  s' = s /\ Spec.no_reverted_record s.
Proof.
  intros E. unfold TreeMutations.assert_valid_state in E.
  apply bind_Ok in E. destruct E as (s0 & s1 & Eg & E).
  unfold Js.get in Eg. injection Eg as <- <-.
  apply bind_Ok in E. destruct E as (promises & s1 & Ef & E).
  assert (s1 = s) as ->.
  { revert Ef. apply readonly_Ok. apply readonly_fold. intros mn p.
    apply readonly_bind; [apply readonly_check_mode | intros; apply readonly_check_mode]. }
  apply bind_Ok in E. destruct E as ([] & s1 & Ep & E).
  assert (s1 = s) as ->.
  { revert Ep. apply readonly_Ok, readonly_for_each, readonly_check_promise. }
  assert (s' = s) as ->.
  { revert E. apply readonly_Ok, readonly_for_each, readonly_check_reverted. }
  split; [reflexivity|].
  intros n r x o m d Hin Hx Ho Hm Hp Hnf.
  apply (check_reverted_Ok r d Hx Ho Hm Hp Hnf).
  eapply for_each_Ok_In; [apply readonly_check_reverted | exact E |].
  unfold TreeMutations.mutations, JsMap.values. apply in_map_iff. exists (n, r). auto.
Qed.

(** [mutation] ends with [#assert_valid_state]. *)
Lemma mutation_Ok_assert parent removed added prev next s s' :
  TreeMutations.mutation parent removed added prev next s = Js.Ok tt s' ->
  exists s1, TreeMutations.assert_valid_state s1 = Js.Ok tt s'.
Proof.
  unfold TreeMutations.mutation. intros E.
  cbv zeta in E.
  apply bind_Ok in E. destruct E as ([prev_mn l1] & s1 & _ & E).
  apply bind_Ok in E. destruct E as (l2 & s2 & _ & E).
  apply bind_Ok in E. destruct E as ([next_mn l3] & s3 & _ & E).
  apply bind_Ok in E. destruct E as (pp & s4 & _ & E).
  apply bind_Ok in E. destruct E as (nn & s5 & _ & E).
  apply bind_Ok in E. destruct E as (l4 & s6 & _ & E).
  apply bind_Ok in E. destruct E as (u1 & s7 & _ & E).
  apply bind_Ok in E. destruct E as (u2 & s8 & _ & E).
  apply bind_Ok in E. destruct E as (u3 & s9 & _ & E).
  apply bind_Ok in E. destruct E as (l5 & s10 & _ & E).
  apply bind_Ok in E. destruct E as (resolved & s11 & _ & E).
  apply bind_Ok in E. destruct E as (resolved' & s12 & _ & E).
  exists s12. exact E.
Qed.

(** The first removal on a fresh tracker. *)
Lemma removal_on_fresh_tracker (parent n : Node) (prev next : option Node) :
  prev <> Some n -> next <> Some n ->
  TreeMutations.mutation parent [n] [] prev next Tree.new
  = Js.Ok tt
      (Tree.mk [(n, 0)]
         (IndexObj.mk (match prev with Some p => [(p, 0)] | None => [] end)
                      (match next with Some q => [(q, 0)] | None => [] end))
         IndexObj.empty
         [MutatedNode.mk n
            (Some (Position.mk (Some parent) (of_nullable prev) (of_nullable next))) None]
         [PromiseObj.mk 0 Prev None; PromiseObj.mk 0 Next None]).
Proof.
  intros Hp Hq.
  destruct prev as [p|], next as [q|]; node_facts;
    unfold TreeMutations.mutation; run.
Qed.

(** Splitting on which siblings of two places are the same node. *)
Ltac split_places P prev next P' prev' next' :=
  destruct (Nat.eq_dec P' P) as [->|?];
  destruct prev as [p|], next as [q|], prev' as [x|], next' as [y|];
  try (destruct (Nat.eq_dec x p) as [->|?]);
  try (destruct (Nat.eq_dec x q) as [->|?]);
  try (destruct (Nat.eq_dec y p) as [->|?]);
  try (destruct (Nat.eq_dec y q) as [->|?]);
  try (destruct (Nat.eq_dec p q) as [->|?]);
  try (destruct (Nat.eq_dec x y) as [->|?]);
  try solve [exfalso; congruence].

(** The insertion that follows a first removal, anywhere: the revert check
    takes the record out exactly when the node is back in place. *)
Lemma insertion_after_removal (n : Node) (o c : Place.t) :
  Spec.beside n o -> Spec.beside n c ->
  (~ Spec.back_in_place o c ->
   TreeMutations.mutation (Place.parent c) [] [n] (Place.prev c) (Place.next c)
     (Spec.taken_from n o)
   = Js.Ok tt (Spec.moved_to n o c))
  /\ (Spec.back_in_place o c ->
      exists s,
        TreeMutations.mutation (Place.parent c) [] [n] (Place.prev c) (Place.next c)
          (Spec.taken_from n o)
        = Js.Ok tt s
        /\ Spec.nothing_tracked s).
Proof.
  destruct o as [P prev next], c as [P' prev' next'].
  unfold Spec.beside, Spec.back_in_place, Spec.nothing_tracked, Spec.taken_from,
    Spec.moved_to, Spec.index_at, Place.position.
  cbn [Place.parent Place.prev Place.next].
  intros [Hp Hq] [Hx Hy].
  split_places P prev next P' prev' next';
  (split;
   [ intros Hc;
     first [ exfalso; apply Hc; solve [auto]
           | clear Hc; node_facts; unfold TreeMutations.mutation; run ]
   | intros Hc;
     first [ exfalso; destruct Hc as [E [E'|E']]; congruence
           | clear Hc; eexists; split;
             [ node_facts; unfold TreeMutations.mutation; run
             | repeat split; reflexivity ] ] ]).
Qed.

(** The removal from the place the node was moved to leaves the tracker as
    the first removal did. *)
Lemma removal_after_move (n : Node) (o c : Place.t) :
  Spec.beside n o -> Spec.beside n c -> ~ Spec.back_in_place o c ->
  TreeMutations.mutation (Place.parent c) [n] [] (Place.prev c) (Place.next c)
    (Spec.moved_to n o c)
  = Js.Ok tt (Spec.taken_from n o).
Proof.
  destruct o as [P prev next], c as [P' prev' next'].
  unfold Spec.beside, Spec.back_in_place, Spec.taken_from, Spec.moved_to, Spec.index_at,
    Place.position.
  cbn [Place.parent Place.prev Place.next].
  intros [Hp Hq] [Hx Hy] Hc.
  split_places P prev next P' prev' next';
  first [ exfalso; apply Hc; solve [auto]
        | clear Hc; node_facts; unfold TreeMutations.mutation; run ].
Qed.

(** Any number of moves of one node. *)
Lemma moves_from (n : Node) (o c : Place.t) (between : list Place.t) :
  Spec.beside n o -> Spec.beside n c ->
  Forall (Spec.beside n) between ->
  Forall (fun b => ~ Spec.back_in_place o b) between ->
  forall from s0,
    TreeMutations.mutation (Place.parent from) [n] [] (Place.prev from) (Place.next from) s0
    = Js.Ok tt (Spec.taken_from n o) ->
    exists s,
      Spec.moves n from (between ++ [c]) s0 = Js.Ok tt s
      /\ (Spec.back_in_place o c -> Spec.nothing_tracked s)
      /\ (~ Spec.back_in_place o c -> s = Spec.moved_to n o c).
Proof.
  intros Ho Hc Hbs Hnb.
  induction between as [|b between IH]; intros from s0 E0;
    cbn [app Spec.moves]; unfold Js.bind at 1; rewrite E0.
  - destruct (insertion_after_removal Ho Hc) as [Hstay Hback].
    assert (Hdec : Spec.back_in_place o c \/ ~ Spec.back_in_place o c).
    { unfold Spec.back_in_place.
      destruct (Nat.eq_dec (Place.parent c) (Place.parent o)) as [Ep|Np];
        [|right; intros [E _]; exact (Np E)].
      assert (Hopt : forall u v : option Node, u = v \/ u <> v).
      { intros [u|] [v|]; try (left; reflexivity); try (right; discriminate).
        destruct (Nat.eq_dec u v) as [->|N]; [left; reflexivity | right; congruence]. }
      destruct (Hopt (Place.prev c) (Place.prev o)) as [E1|N1]; [left; auto|].
      destruct (Hopt (Place.next c) (Place.next o)) as [E2|N2]; [left; auto|].
      right. intros [_ [E|E]]; [exact (N1 E) | exact (N2 E)]. }
    destruct Hdec as [Hb|Hn].
    + destruct (Hback Hb) as (s & E & Hs).
      exists s. unfold Js.bind. rewrite E. cbn [Spec.moves]. unfold Js.ret.
      split; [reflexivity|]. split; [intros _; exact Hs | intros Hn; contradiction].
    + exists (Spec.moved_to n o c). unfold Js.bind. rewrite (Hstay Hn).
      cbn [Spec.moves]. unfold Js.ret.
      split; [reflexivity|]. split; [intros Hb; contradiction | reflexivity].
  - inversion Hbs as [|? ? Hb Hbs']; subst. inversion Hnb as [|? ? Hn Hnb']; subst.
    destruct (insertion_after_removal Ho Hb) as [Hstay _].
    unfold Js.bind at 1. rewrite (Hstay Hn).
    apply (IH Hbs' Hnb' b (Spec.moved_to n o b)).
    apply removal_after_move; assumption.
Qed.

(** Two adjacent nodes taken out by one record, and put back in place: by
    one record, or one node at a time in either order. The fixedness found
    at the siblings that never moved reaches the second node through the
    first. *)
Lemma pair_back_in_place (P a b : Node) (prev next : option Node) :
  a <> b -> prev <> Some a -> prev <> Some b -> next <> Some a -> next <> Some b ->
  exists s1,
    TreeMutations.mutation P [a; b] [] prev next Tree.new = Js.Ok tt s1
    /\ Tree.floating s1 = [(a, 0); (b, 1)]
    /\ (exists s2,
          TreeMutations.mutation P [] [a; b] prev next s1 = Js.Ok tt s2
          /\ Spec.nothing_tracked s2)
    /\ (exists s2 s3,
          TreeMutations.mutation P [] [a] prev next s1 = Js.Ok tt s2
          /\ TreeMutations.mutation P [] [b] (Some a) next s2 = Js.Ok tt s3
          /\ Spec.nothing_tracked s3)
    /\ (exists s2 s3,
          TreeMutations.mutation P [] [b] prev next s1 = Js.Ok tt s2
          /\ TreeMutations.mutation P [] [a] prev (Some b) s2 = Js.Ok tt s3
          /\ Spec.nothing_tracked s3).
Proof.
  intros Hab Hpa Hpb Hqa Hqb. unfold Spec.nothing_tracked.
  destruct prev as [p|], next as [q|];
    try (destruct (Nat.eq_dec p q) as [->|?]);
    node_facts;
    (eexists; split; [unfold TreeMutations.mutation; run|];
     split; [reflexivity|];
     split; [|split];
     [ eexists; split; [unfold TreeMutations.mutation; run | repeat split; reflexivity]
     | eexists; eexists; split; [unfold TreeMutations.mutation; run|];
       split; [unfold TreeMutations.mutation; run | repeat split; reflexivity]
     | eexists; eexists; split; [unfold TreeMutations.mutation; run|];
       split; [unfold TreeMutations.mutation; run | repeat split; reflexivity] ]).
Qed.




(** ** [SiblingPromise.resume] *)

(** C4. After the first two records the [prev] slot of the mutated position
    of node 2 holds promise 2, the promise of node 3. The third record
    starts a walk for the previous original sibling of node 5 at the record
    of node 2: the walk reads that slot, finds the other promise and
    resolves to it, and the final [#assert_valid_state] of [mutation]
    throws. *)
Theorem resume_walk_reads_another_promise :
  Ex.track (firstn 2 Ex.promise_records) Tree.new = Js.Ok tt Ex.tree_one_promise
  /\ nth_error (Tree.mns Ex.tree_one_promise) 0
     = Some (MutatedNode.mk 2
               (Some (Position.mk (Some 0) s_null (s_node 1)))
               (Some (Position.mk (Some 1) (s_promise 2) (s_node 4))))
  /\ nth_error (Tree.promises Ex.tree_one_promise) 2 = Some (PromiseObj.mk 1 Prev (Some 0))
  /\ (exists s,
         SiblingPromise.resume 4 (r_mn 0) Ex.tree_walk_start = Js.Ok true s
         /\ nth_error (Tree.promises s) 4 = Some (PromiseObj.mk 2 Prev None)
         /\ nth_error (Tree.mns s) 2
            = Some (MutatedNode.mk 5
                      (Some (Position.mk (Some 1) (s_promise 2) s_undefined)) None))
  /\ (exists s,
         TreeMutations.mutation 1 [5] [] (Some 2) (Some 6) Ex.tree_one_promise
         = Js.Throw (Js.Error_ "promise has multiple origins") s
         /\ nth_error (Tree.mns s) 2
            = Some (MutatedNode.mk 5
                      (Some (Position.mk (Some 1) (s_promise 2) (s_node 6))) None)).
Proof.
  split; [vm_compute; reflexivity|].
  split; [vm_compute; reflexivity|].
  split; [vm_compute; reflexivity|].
  split; eexists; (split; [vm_compute; reflexivity|]); repeat split; vm_compute; reflexivity.
Qed.

(** ** [revert] *)

(** C1. The attribute [p:href] of node 1, in the namespace [urn:x], is
    changed from ["a"] to ["b"] and the observer's record is given to
    [record]. The entry is keyed ["urn:x:href"], a name under which the
    element has no attribute. [revert()] returns, but the tree is not what
    it was: [p:href] is still ["b"], and the element has a new attribute
    [urn:x:href]. *)
Theorem revert_misses_namespaced_attribute :
  Observer.set_attribute_value 1 0 "b" Ex.dom_href_a = Some (Ex.dom_href_b, Ex.record_href)
  /\ MutationDiff.record Ex.record_href
       (MutationDiff.mkWorld (Env.of_dom Ex.dom_href_b) MutationDiff.new)
     = Js.Ok v_undefined Ex.world_href
  /\ JsMap.get 1 (MutationDiff.props (MutationDiff.this Ex.world_href))
     = Some (PropertyCache.mk [(v_string "urn:x:href", CachedProp.mk (v_string "a") true)]
               [] 0 1)
  /\ exists w,
       MutationDiff.revert None Ex.world_href = Js.Ok v_undefined w
       /\ Dom.attribute_list (Env.dom (MutationDiff.env w)) 1
          = [ Attr.mk (Some "urn:x"%string) (Some "p"%string) "href" "b";
              Attr.mk None None "urn:x:href" "a" ]
       /\ Env.dom (MutationDiff.env w) <> Ex.dom_href_a.
Proof.
  split; [vm_compute; reflexivity|].
  split; [vm_compute; reflexivity|].
  split; [vm_compute; reflexivity|].
  eexists. split; [vm_compute; reflexivity|].
  split; [vm_compute; reflexivity|].
  vm_compute. discriminate.
Qed.

(** With a callback, [revert] restores the data of node 2 and then throws:
    node 1 is not put back, and nothing is cleared. *)
Lemma revert_with_callback_aborts :
  exists w,
    MutationDiff.revert (Some Env.log_call) Ex.world_removed
    = Js.Throw (Js.ReferenceError "props is not defined") w
    /\ Env.dom (MutationDiff.env w) = Dom.mk [(0, [2])] [] [(2, v_string "hi")] [2]
    /\ Env.calls (MutationDiff.env w) = []
    /\ MutationDiff.this w = MutationDiff.this Ex.world_removed.
Proof. eexists. repeat split; vm_compute; reflexivity. Qed.

(** ** No result of [diff] carries attribute changes *)

Lemma fold_invariant {S A L} (I : L -> Prop) (xs : list A) (body : A -> L -> Js.M S L) :
  (forall x l s l' s', I l -> body x l s = Js.Ok l' s' -> I l') ->
  forall l s l' s', I l -> Js.fold xs body l s = Js.Ok l' s' -> I l'.
Proof.
  intros Hb. induction xs as [|x xs IH]; simpl; intros l s l' s' Hl E.
  - injection E as <- <-. exact Hl.
  - apply bind_Ok in E. destruct E as (l1 & s1 & E1 & E2).
    exact (IH _ _ _ _ (Hb _ _ _ _ _ Hl E1) E2).
Qed.

Lemma zoom_Ok {S T A} (proj : S -> T) (inj : T -> S -> S) (m : Js.M T A) s a s' :
  Js.zoom proj inj m s = Js.Ok a s' -> exists t, m (proj s) = Js.Ok a t.
Proof.
  unfold Js.zoom. destruct (m (proj s)) as [a1 t|e t]; [|discriminate].
  intros E. injection E as <- <-. eauto.
Qed.

Lemma diff_attributes_skip filter FO FM node cache acc :
  MutationDiff.diff_attributes filter FO FM node cache acc = Js.ret acc.
Proof. unfold MutationDiff.diff_attributes. rewrite band_ATTRIBUTES. reflexivity. Qed.

Lemma diff_data_attribute filter FO FM d node cache acc :
  Log.attribute (snd (MutationDiff.diff_data filter FO FM d node cache acc))
  = Log.attribute (snd acc).
Proof.
  unfold MutationDiff.diff_data.
  destruct (MutationDiff.nonzero _); [|reflexivity].
  destruct (JsMap.get _ _) as [op|]; [|reflexivity].
  destruct (CachedProp.dirty op); reflexivity.
Qed.

Lemma diff_custom_attribute filter FO FM getter node cache acc e acc' e' :
  MutationDiff.diff_custom filter FO FM getter node cache acc e = Js.Ok acc' e' ->
  Log.attribute (snd acc') = Log.attribute (snd acc).
Proof.
  unfold MutationDiff.diff_custom.
  destruct (MutationDiff.nonzero _); [|intros E; injection E as <- <-; reflexivity].
  intros E. apply bind_Ok in E. destruct E as (custom & e1 & _ & E).
  destruct custom; injection E as <- <-; reflexivity.
Qed.

Lemma diff_props_no_attribute filter FO FM getter entry out e out' e' :
  (forall node log, In (node, log) out -> Log.attribute log = None) ->
  MutationDiff.diff_props filter FO FM getter entry out e = Js.Ok out' e' ->
  forall node log, In (node, log) out' -> Log.attribute log = None.
Proof.
  intros Hout. destruct entry as [n c]. unfold MutationDiff.diff_props.
  destruct (negb (MutationDiff.nonzero (PropertyCache.dirty c))).
  - intros E. injection E as <- <-. exact Hout.
  - intros E. apply bind_Ok in E. destruct E as (e0 & e1 & Eg & E).
    injection Eg as <- <-. cbv zeta in E.
    apply bind_Ok in E. destruct E as (acc & e1 & Ea & E).
    rewrite diff_attributes_skip in Ea. injection Ea as <- <-.
    apply bind_Ok in E. destruct E as (acc & e1 & Ec & E).
    assert (Ha : Log.attribute (snd acc) = None)
      by (rewrite (diff_custom_attribute _ _ _ _ _ _ _ _ Ec), diff_data_attribute;
          reflexivity).
    destruct (fst acc).
    + injection E as <- <-. intros node log Hin.
      apply JsMap_In_set in Hin. destruct Hin as [Eq|Hin]; [|exact (Hout _ _ Hin)].
      injection Eq as _ ->. exact Ha.
    + injection E as <- <-. exact Hout.
Qed.

Lemma diff_children_no_attribute FO FM r out s out' s' :
  (forall node log, In (node, log) out -> Log.attribute log = None) ->
  MutationDiff.diff_children FO FM r out s = Js.Ok out' s' ->
  forall node log, In (node, log) out' -> Log.attribute log = None.
Proof.
  intros Hout E. unfold MutationDiff.diff_children in E.
  apply bind_Ok in E. destruct E as (op & s1 & _ & E).
  injection E as <- <-. intros node log Hin.
  apply JsMap_In_set in Hin. destruct Hin as [Eq|Hin]; [|exact (Hout _ _ Hin)].
  injection Eq as _ ->. simpl.
  destruct (JsMap.get (MutatedNode.node op) out) as [l|] eqn:Hg; [|reflexivity].
  exact (Hout _ _ (JsMap_get_In _ _ Hg)).
Qed.

(** Whatever the filter and the state, no entry of the map [diff] returns
    has an [attribute] member. *)
Lemma diff_never_reports_attributes filter getter w out w' :
  MutationDiff.diff filter getter w = Js.Ok out w' ->
  forall node log, In (node, log) out -> Log.attribute log = None.
Proof.
  unfold MutationDiff.diff.
  destruct (_ || _); [|intros E; injection E as <- <-; intros node log []].
  intros E. apply bind_Ok in E. destruct E as (w0 & w1 & Eg & E).
  injection Eg as <- <-.
  apply bind_Ok in E. destruct E as (out1 & w1 & E1 & E2).
  assert (H1 : forall node log, In (node, log) out1 -> Log.attribute log = None).
  { destruct (MutationDiff.nonzero (MutationDiff.band filter "PROPERTY")).
    - apply zoom_Ok in E1. destruct E1 as (e1 & E1).
      revert E1.
      apply (fold_invariant (fun out => forall node log, In (node, log) out ->
                                                        Log.attribute log = None)).
      + intros x l s l' s' Hl Hx. exact (diff_props_no_attribute _ _ _ _ _ _ _ Hl Hx).
      + intros node log [].
    - injection E1 as <- <-. intros node log []. }
  destruct (MutationDiff.nonzero (MutationDiff.band filter "CHILDREN")).
  - apply zoom_Ok in E2. destruct E2 as (t1 & E2).
    revert E2.
    apply (fold_invariant (fun out => forall node log, In (node, log) out ->
                                                      Log.attribute log = None)).
    + intros x l s l' s' Hl Hx. exact (diff_children_no_attribute _ _ _ _ _ Hl Hx).
    + exact H1.
  - injection E2 as <- <-. exact H1.
Qed.

(** ** The scenarios of the test suite *)

(** Cycle-back: the tree is [B; C; A], it counts as mutated, and [revert]
    yields [A; B; C]. *)
Example scenario_cycle_back :
  Ex.replay Ex.cycle_back Ex.abc = Some (Dom.mk [(0, [2; 3; 1])] [] [] [])
  /\ (let w := Ex.feed Ex.cycle_back (Dom.mk [(0, [2; 3; 1])] [] [] []) in
      MutationDiff.mutated (Some 0) w = Js.Ok true w
      /\ exists w', MutationDiff.revert None w = Js.Ok v_undefined w'
                    /\ Env.dom (MutationDiff.env w') = Ex.abc).
Proof.
  split; [vm_compute; reflexivity|]. cbv zeta.
  split; [vm_compute; reflexivity|].
  eexists. split; vm_compute; reflexivity.
Qed.

(** Rotation: the order is unchanged, the floating set is empty and the tree
    does not count as mutated. *)
Example scenario_rotation :
  Ex.replay Ex.rotation Ex.abc = Some Ex.abc
  /\ (let w := Ex.feed Ex.rotation Ex.abc in
      Tree.floating (MutationDiff.tree (MutationDiff.this w)) = []
      /\ MutationDiff.mutated (Some 0) w = Js.Ok false w
      /\ MutationDiff.mutated None w = Js.Ok false w).
Proof.
  split; [vm_compute; reflexivity|]. cbv zeta.
  split; [vm_compute; reflexivity|]. split; vm_compute; reflexivity.
Qed.

(** Mixed remove: the floating set holds exactly the record of C, which has
    no mutated position, and [revert] yields [A; B; C]. *)
Example scenario_mixed_remove :
  Ex.replay Ex.mixed_remove Ex.abc = Some (Dom.mk [(0, [1; 2])] [] [] [])
  /\ (let w := Ex.feed Ex.mixed_remove (Dom.mk [(0, [1; 2])] [] [] []) in
      (exists r, Tree.floating (MutationDiff.tree (MutationDiff.this w)) = [(3, r)]
                 /\ nth_error (Tree.mns (MutationDiff.tree (MutationDiff.this w))) r
                    = Some (MutatedNode.mk 3
                              (Some (Position.mk (Some 0) (s_node 2) s_null)) None))
      /\ exists w', MutationDiff.revert None w = Js.Ok v_undefined w'
                    /\ Env.dom (MutationDiff.env w') = Ex.abc).
Proof.
  split; [vm_compute; reflexivity|]. cbv zeta. split.
  - eexists. split; vm_compute; reflexivity.
  - eexists. split; vm_compute; reflexivity.
Qed.

(** Attribute toggle-and-restore: nothing is dirty and [revert] changes
    nothing. *)
Example scenario_attribute_toggle :
  let w := Ex.feed Ex.class_toggle Ex.dom_class_x in
  MutationDiff.mutated (Some 0) w = Js.Ok false w
  /\ MutationDiff.mutated None w = Js.Ok false w
  /\ exists w', MutationDiff.revert None w = Js.Ok v_undefined w'
                /\ Env.dom (MutationDiff.env w') = Ex.dom_class_x.
Proof.
  cbv zeta. split; [vm_compute; reflexivity|]. split; [vm_compute; reflexivity|].
  eexists. split; vm_compute; reflexivity.
Qed.

(** Character-data edit-then-revert: clean, and [revert] changes nothing. *)
Example scenario_data_toggle :
  let w := Ex.feed Ex.data_toggle Ex.dom_text_hi in
  MutationDiff.mutated None w = Js.Ok false w
  /\ exists w', MutationDiff.revert None w = Js.Ok v_undefined w'
                /\ Env.dom (MutationDiff.env w') = Ex.dom_text_hi.
Proof.
  cbv zeta. split; [vm_compute; reflexivity|].
  eexists. split; vm_compute; reflexivity.
Qed.


(** * Further properties of the embedded code *)

(** ** Maps *)

Lemma eqk_refl {K} `{EqKey K} (k : K) : eqk k k = true.
Proof. destruct (eqk_spec k k); congruence. Qed.

Lemma eqk_neq {K} `{EqKey K} (k k' : K) : k <> k' -> eqk k k' = false.
Proof. intros Hne. destruct (eqk_spec k k'); congruence. Qed.

Lemma JsMap_get_set_same {K V} `{EqKey K} (k : K) (v : V) (m : JsMap.t K V) :
  JsMap.get k (JsMap.set k v m) = Some v.
Proof.
  induction m as [|[k' v'] m IH]; cbn [JsMap.get JsMap.set].
  - rewrite eqk_refl. reflexivity.
  - destruct (eqk k k') eqn:E; cbn [JsMap.get]; [rewrite eqk_refl | rewrite E]; auto.
Qed.

Lemma JsMap_get_set_other {K V} `{EqKey K} (k k0 : K) (v : V) (m : JsMap.t K V) :
  k <> k0 -> JsMap.get k (JsMap.set k0 v m) = JsMap.get k m.
Proof.
  intros Hne. induction m as [|[k' v'] m IH]; cbn [JsMap.get JsMap.set].
  - rewrite eqk_neq by exact Hne. reflexivity.
  - destruct (eqk_spec k0 k') as [->|Hne']; cbn [JsMap.get].
    + rewrite eqk_neq by exact Hne. reflexivity.
    + destruct (eqk k k'); auto.
Qed.

Lemma JsMap_get_delete_same {K V} `{EqKey K} (k : K) (m : JsMap.t K V) :
  JsMap.get k (JsMap.delete k m) = None.
Proof.
  induction m as [|[k' v'] m IH]; cbn [JsMap.get JsMap.delete]; [reflexivity|].
  destruct (eqk k k') eqn:E; cbn [JsMap.get]; [|rewrite E]; exact IH.
Qed.

Lemma JsMap_get_delete_other {K V} `{EqKey K} (k k0 : K) (m : JsMap.t K V) :
  k <> k0 -> JsMap.get k (JsMap.delete k0 m) = JsMap.get k m.
Proof.
  intros Hne. induction m as [|[k' v'] m IH]; cbn [JsMap.get JsMap.delete]; [reflexivity|].
  destruct (eqk_spec k0 k') as [->|Hne']; cbn [JsMap.get].
  - rewrite eqk_neq by exact Hne. exact IH.
  - destruct (eqk k k'); auto.
Qed.

Lemma JsMap_size_set_new {K V} `{EqKey K} (k : K) (v : V) (m : JsMap.t K V) :
  JsMap.get k m = None -> JsMap.size (JsMap.set k v m) = S (JsMap.size m).
Proof.
  unfold JsMap.size.
  induction m as [|[k' v'] m IH]; cbn [JsMap.get JsMap.set List.length]; [reflexivity|].
  destruct (eqk k k'); [discriminate|]. intros Hg. cbn [List.length]. rewrite IH by exact Hg.
  reflexivity.
Qed.

Lemma JsMap_size_set_old {K V} `{EqKey K} (k : K) (v v0 : V) (m : JsMap.t K V) :
  JsMap.get k m = Some v0 -> JsMap.size (JsMap.set k v m) = JsMap.size m.
Proof.
  unfold JsMap.size.
  induction m as [|[k' v'] m IH]; cbn [JsMap.get JsMap.set List.length]; [discriminate|].
  destruct (eqk k k'); [reflexivity|]. intros Hg. cbn [List.length]. rewrite IH by exact Hg.
  reflexivity.
Qed.

Lemma JsMap_In_get {K V} `{EqKey K} (k : K) (v : V) (m : JsMap.t K V) :
  NoDup (JsMap.keys m) -> In (k, v) m -> JsMap.get k m = Some v.
Proof.
  unfold JsMap.keys.
  induction m as [|[k' v'] m IH]; cbn [JsMap.get map fst]; [intros _ []|].
  intros Hnd [E|Hin].
  - injection E as -> ->. rewrite eqk_refl. reflexivity.
  - inversion Hnd as [|? ? Hni Hnd']; subst.
    destruct (eqk_spec k k') as [->|Hne]; [|apply IH; assumption].
    exfalso. apply Hni. apply (in_map fst) in Hin. exact Hin.
Qed.

Lemma JsMap_keys_set {K V} `{EqKey K} (k : K) (v : V) (m : JsMap.t K V) :
  JsMap.keys (JsMap.set k v m)
  = if JsMap.has k m then JsMap.keys m else JsMap.keys m ++ [k].
Proof.
  unfold JsMap.keys, JsMap.has.
  induction m as [|[k' v'] m IH]; cbn [JsMap.get JsMap.set map fst]; [reflexivity|].
  destruct (eqk_spec k k') as [->|Hne]; cbn [map fst]; [reflexivity|].
  rewrite IH. destruct (JsMap.get k m); reflexivity.
Qed.

Lemma JsMap_get_None_keys {K V} `{EqKey K} (k : K) (m : JsMap.t K V) :
  JsMap.get k m = None -> ~ In k (JsMap.keys m).
Proof.
  unfold JsMap.keys.
  induction m as [|[k' v'] m IH]; cbn [JsMap.get map fst]; [intros _ []|].
  destruct (eqk_spec k k') as [->|Hne]; [discriminate|].
  intros Hg [E|Hin]; [congruence | exact (IH Hg Hin)].
Qed.

Lemma JsMap_keys_set_NoDup {K V} `{EqKey K} (k : K) (v : V) (m : JsMap.t K V) :
  NoDup (JsMap.keys m) -> NoDup (JsMap.keys (JsMap.set k v m)).
Proof.
  intros Hnd. rewrite JsMap_keys_set. unfold JsMap.has.
  destruct (JsMap.get k m) eqn:Hg; [exact Hnd|].
  apply NoDup_app; [exact Hnd | constructor; [intros [] | constructor] |].
  intros x Hin [<-|[]]. exact (JsMap_get_None_keys _ _ Hg Hin).
Qed.

(** ** [PropertyCache.mark] *)

Lemma count_split m :
  (Spec.dirty_count m + Spec.clean_count m)%Z = Z.of_nat (JsMap.size m).
Proof.
  unfold Spec.dirty_count, Spec.clean_count, JsMap.size, JsMap.values.
  induction m as [|[k p] m IH]; [reflexivity|].
  cbn [map snd filter List.length]. destruct (CachedProp.dirty p); cbn [negb List.length]; lia.
Qed.

Lemma mark_sizes mode key value old c :
  (PropertyCache._clean (PropertyCache.mark mode key value old c)
   + PropertyCache._dirty (PropertyCache.mark mode key value old c)
   - PropertyCache.size (PropertyCache.mark mode key value old c)
   = PropertyCache._clean c + PropertyCache._dirty c - PropertyCache.size c)%Z.
Proof.
  unfold PropertyCache.mark, PropertyCache.size.
  destruct (JsMap.get key (PropertyCache.get_map mode c)) as [p0|] eqn:Hg.
  - destruct (negb (Bool.eqb (negb (Value_eqb value (CachedProp.value p0))) (CachedProp.dirty p0)));
      [|reflexivity].
    destruct mode; cbn [PropertyCache.get_map] in Hg;
      cbn [PropertyCache.native PropertyCache.custom PropertyCache._clean PropertyCache._dirty
           PropertyCache.set_map PropertyCache.get_map];
      erewrite JsMap_size_set_old by exact Hg;
      destruct (Value_eqb value (CachedProp.value p0)); cbn [negb]; lia.
  - destruct mode; cbn [PropertyCache.get_map] in Hg;
      destruct (negb (Value_eqb value old));
      cbn [PropertyCache.native PropertyCache.custom PropertyCache._clean PropertyCache._dirty
           PropertyCache.set_map PropertyCache.get_map];
      rewrite JsMap_size_set_new by exact Hg; lia.
Qed.

(** X1. From [new PropertyCache()], whatever calls of [mark] follow, the
    counter [dirty] is the number of dirty entries, the counter [clean] the
    number of clean ones, and they add up to [size]. *)
Theorem mark_keeps_counters (c : PropertyCache.t) :
  Spec.marked c ->
  PropertyCache.dirty c
  = (Spec.dirty_count (PropertyCache.native c) + Spec.dirty_count (PropertyCache.custom c))%Z
  /\ PropertyCache.clean c
     = (Spec.clean_count (PropertyCache.native c) + Spec.clean_count (PropertyCache.custom c))%Z
  /\ (PropertyCache.clean c + PropertyCache.dirty c)%Z = PropertyCache.size c.
Proof.
  intros Hm.
  assert (Hs : (PropertyCache._clean c + PropertyCache._dirty c - PropertyCache.size c = 0)%Z).
  { induction Hm; [reflexivity|]. rewrite mark_sizes. exact IHHm. }
  assert (Hwf : Spec.cache_wf c).
  { clear Hs. induction Hm; [apply cache_wf_new | apply cache_wf_mark; assumption]. }
  unfold PropertyCache.dirty, PropertyCache.clean. red in Hwf.
  pose proof (count_split (PropertyCache.native c)) as H1.
  pose proof (count_split (PropertyCache.custom c)) as H2.
  unfold PropertyCache.size in *. repeat split; lia.
Qed.

Lemma mark_keeps_counters_witness :
  Spec.marked Ex.cache_text
  /\ PropertyCache.dirty Ex.cache_text = 2%Z
  /\ PropertyCache.clean Ex.cache_text = 0%Z
  /\ PropertyCache.size Ex.cache_text = 2%Z.
Proof.
  assert (Hm : Spec.marked Ex.cache_text) by (apply Spec.marked_mark, Spec.marked_mark, Spec.marked_new).
  split; [exact Hm|].
  destruct (mark_keeps_counters Hm) as (Hd & Hc & Hs).
  split; [rewrite Hd; reflexivity|]. split; [rewrite Hc; reflexivity | reflexivity].
Defined.

Lemma mark_get_same (mode : PropMode) (key value old : Value) (c : PropertyCache.t) :
  JsMap.get key (PropertyCache.get_map mode (PropertyCache.mark mode key value old c))
  = Some (CachedProp.mk (Spec.original_value mode key old c)
            (negb (Value_eqb value (Spec.original_value mode key old c)))).
Proof.
  unfold PropertyCache.mark, Spec.original_value.
  destruct (JsMap.get key (PropertyCache.get_map mode c)) as [p0|] eqn:Hg.
  - destruct (Bool.eqb (negb (Value_eqb value (CachedProp.value p0))) (CachedProp.dirty p0)) eqn:Hb;
      cbn [negb].
    + rewrite Hg. apply Bool.eqb_prop in Hb. rewrite Hb. destruct p0; reflexivity.
    + destruct mode; cbn; apply JsMap_get_set_same.
  - destruct mode; cbn; destruct (Value_eqb value old); cbn; apply JsMap_get_set_same.
Qed.

Lemma mark_get_other (mode mode' : PropMode) (key key' value old : Value) (c : PropertyCache.t) :
  mode' <> mode \/ key' <> key ->
  JsMap.get key' (PropertyCache.get_map mode' (PropertyCache.mark mode key value old c))
  = JsMap.get key' (PropertyCache.get_map mode' c).
Proof.
  intros Hne. unfold PropertyCache.mark.
  destruct (JsMap.get key (PropertyCache.get_map mode c)) as [p0|] eqn:Hg.
  - destruct (negb (Bool.eqb (negb (Value_eqb value (CachedProp.value p0))) (CachedProp.dirty p0)));
      [|reflexivity].
    destruct mode, mode'; cbn; try reflexivity;
      (destruct Hne as [Hne|Hne]; [congruence | apply JsMap_get_set_other; exact Hne]).
  - destruct mode, mode'; cbn; destruct (Value_eqb value old); cbn; try reflexivity;
      (destruct Hne as [Hne|Hne]; [congruence | apply JsMap_get_set_other; exact Hne]).
Qed.

(** X2. After [mark(mode, key, value, old_value)] the entry of [key] holds
    the original value (the one cached before, otherwise [old_value]) and
    its dirty flag says whether [value] differs from it; in particular a
    property that is back at its original value is clean, whatever
    [old_value] the call carries. No other entry changes: every other key,
    and the map of the other mode, read as before. *)
Theorem mark_entry (mode : PropMode) (key value old : Value) (c : PropertyCache.t) :
  JsMap.get key (PropertyCache.get_map mode (PropertyCache.mark mode key value old c))
  = Some (CachedProp.mk (Spec.original_value mode key old c)
            (negb (Value_eqb value (Spec.original_value mode key old c))))
  /\ forall mode' key',
       mode' <> mode \/ key' <> key ->
       JsMap.get key' (PropertyCache.get_map mode' (PropertyCache.mark mode key value old c))
       = JsMap.get key' (PropertyCache.get_map mode' c).
Proof.
  split; [apply mark_get_same|]. intros mode' key' Hne. apply mark_get_other, Hne.
Qed.

(** ** Attribute lists of the live tree *)

Lemma named_set_value q v a : Attr.named q (Attr.set_value v a) = Attr.named q a.
Proof. destruct a; reflexivity. Qed.

Lemma named_eq q a : Attr.named q a = true -> Attr.qualifiedName a = q.
Proof. unfold Attr.named. intros E. apply String.eqb_eq, E. Qed.

Lemma attr_in_assign k q v l :
  Spec.attr_in (Attr.assign q v l) k
  = if String.eqb k q then v_string v else Spec.attr_in l k.
Proof.
  unfold Spec.attr_in.
  induction l as [|a tl IH]; cbn [Attr.assign find].
  - unfold Attr.named at 1. cbn [Attr.qualifiedName Attr.prefix Attr.localName].
    rewrite String.eqb_sym. destruct (String.eqb k q); reflexivity.
  - destruct (Attr.named q a) eqn:Hq; cbn [find].
    + rewrite named_set_value. apply named_eq in Hq. unfold Attr.named.
      rewrite Hq. rewrite String.eqb_sym.
      destruct (String.eqb k q); destruct a; reflexivity.
    + destruct (Attr.named k a) eqn:Hk; [|exact IH].
      destruct (String.eqb_spec k q) as [->|_]; [congruence | reflexivity].
Qed.

Lemma attr_in_drop_other k q l :
  k <> q -> Spec.attr_in (Attr.drop q l) k = Spec.attr_in l k.
Proof.
  intros Hne. unfold Spec.attr_in.
  induction l as [|a tl IH]; cbn [Attr.drop find]; [reflexivity|].
  destruct (Attr.named q a) eqn:Hq; cbn [find].
  - destruct (Attr.named k a) eqn:Hk; [|reflexivity].
    apply named_eq in Hq, Hk. congruence.
  - destruct (Attr.named k a); [reflexivity | exact IH].
Qed.

Lemma attr_in_absent q l :
  ~ In q (map Attr.qualifiedName l) -> Spec.attr_in l q = v_null.
Proof.
  unfold Spec.attr_in.
  induction l as [|a tl IH]; cbn [map find]; [reflexivity|].
  intros Hni. destruct (Attr.named q a) eqn:Hq.
  - exfalso. apply Hni. left. apply named_eq, Hq.
  - apply IH. intros Hin. apply Hni. right. exact Hin.
Qed.

Lemma attr_in_drop_same q l :
  NoDup (map Attr.qualifiedName l) -> Spec.attr_in (Attr.drop q l) q = v_null.
Proof.
  induction l as [|a tl IH]; cbn [Attr.drop map]; [reflexivity|].
  intros Hnd. inversion Hnd as [|? ? Hni Hnd']; subst.
  destruct (Attr.named q a) eqn:Hq.
  - apply attr_in_absent. apply named_eq in Hq. rewrite <- Hq. exact Hni.
  - unfold Spec.attr_in. cbn [find]. rewrite Hq. apply IH, Hnd'.
Qed.

Lemma names_drop_incl q l x :
  In x (map Attr.qualifiedName (Attr.drop q l)) -> In x (map Attr.qualifiedName l).
Proof.
  induction l as [|a tl IH]; cbn [Attr.drop map]; [auto|].
  destruct (Attr.named q a); cbn [map].
  - intros Hin. right. exact Hin.
  - intros [E|Hin]; [left; exact E | right; apply IH, Hin].
Qed.

Lemma names_drop_NoDup q l :
  NoDup (map Attr.qualifiedName l) -> NoDup (map Attr.qualifiedName (Attr.drop q l)).
Proof.
  induction l as [|a tl IH]; cbn [Attr.drop map]; [auto|].
  intros Hnd. inversion Hnd as [|? ? Hni Hnd']; subst.
  destruct (Attr.named q a); cbn [map]; [exact Hnd'|].
  constructor; [|apply IH, Hnd'].
  intros Hin. apply Hni. eapply names_drop_incl, Hin.
Qed.

Lemma names_assign q v l :
  map Attr.qualifiedName (Attr.assign q v l)
  = if existsb (Attr.named q) l
    then map Attr.qualifiedName l
    else map Attr.qualifiedName l ++ [q].
Proof.
  induction l as [|a tl IH]; cbn [Attr.assign map existsb]; [reflexivity|].
  destruct (Attr.named q a); cbn [map orb].
  - destruct a; reflexivity.
  - rewrite IH. destruct (existsb (Attr.named q) tl); reflexivity.
Qed.

Lemma names_assign_NoDup q v l :
  NoDup (map Attr.qualifiedName l) -> NoDup (map Attr.qualifiedName (Attr.assign q v l)).
Proof.
  intros Hnd. rewrite names_assign.
  destruct (existsb (Attr.named q) l) eqn:Hex; [exact Hnd|].
  apply NoDup_app; [exact Hnd | constructor; [intros [] | constructor] |].
  intros x Hin [<-|[]].
  apply in_map_iff in Hin. destruct Hin as (a & Hqa & Hin).
  assert (Ht : existsb (Attr.named q) l = true).
  { apply existsb_exists. exists a. split; [exact Hin|].
    unfold Attr.named. rewrite Hqa. apply String.eqb_refl. }
  congruence.
Qed.

(** ** [PropertyCache.revert] without a callback *)

Lemma marked_keys c :
  Spec.marked c ->
  NoDup (JsMap.keys (PropertyCache.native c)) /\ NoDup (JsMap.keys (PropertyCache.custom c)).
Proof.
  induction 1 as [|mode key value old c Hm [IHn IHc]].
  - split; constructor.
  - unfold PropertyCache.mark.
    destruct (JsMap.get key (PropertyCache.get_map mode c)) as [p0|].
    + destruct (negb (Bool.eqb (negb (Value_eqb value (CachedProp.value p0)))
                        (CachedProp.dirty p0))); [|split; assumption].
      destruct mode; cbn; split; try assumption; apply JsMap_keys_set_NoDup; assumption.
    + destruct mode; destruct (negb (Value_eqb value old)); cbn; split; try assumption;
        apply JsMap_keys_set_NoDup; assumption.
Qed.

Lemma attribute_list_set d node l :
  Dom.attribute_list
    (Dom.mk (Dom.childNodes d) (JsMap.set node l (Dom.attributes d)) (Dom.data d)
       (Dom.character_data d)) node = l.
Proof. unfold Dom.attribute_list. cbn [Dom.attributes]. rewrite JsMap_get_set_same. reflexivity. Qed.

(** The loop over the native entries, on an element. *)
Lemma revert_native_loop node (L : JsMap.t Value CachedProp.t) :
  forall e,
    Dom.mem node (Dom.character_data (Env.dom e)) = false ->
    NoDup (JsMap.keys L) ->
    JsMap.get v_undefined L = None ->
    Spec.names_accepted L ->
    Spec.unique_names (Env.dom e) node ->
    exists e',
      Js.for_each (JsMap.entries L) (PropertyCache.revert_native node) e = Js.Ok tt e'
      /\ Env.console e' = Env.console e
      /\ Env.calls e' = Env.calls e
      /\ Dom.childNodes (Env.dom e') = Dom.childNodes (Env.dom e)
      /\ Dom.character_data (Env.dom e') = Dom.character_data (Env.dom e)
      /\ Spec.unique_names (Env.dom e') node
      /\ (forall k,
            Spec.attr_value (Env.dom e') node k
            = match JsMap.get (v_string k) L with
              | Some p => if CachedProp.dirty p then Spec.written_back (CachedProp.value p)
                          else Spec.attr_value (Env.dom e) node k
              | None => Spec.attr_value (Env.dom e) node k
              end)
      /\ Dom.get_data (Env.dom e') node
         = match JsMap.get v_null L with
           | Some p => if CachedProp.dirty p then CachedProp.value p
                       else Dom.get_data (Env.dom e) node
           | None => Dom.get_data (Env.dom e) node
           end.
Proof.
  unfold JsMap.entries.
  induction L as [|[a o] tl IH]; intros e Hcd Hnd Hund Hval Hun.
  - exists e. cbn. repeat split; auto.
  - cbn [JsMap.keys map fst] in Hnd. inversion Hnd as [|? ? Hni Hnd']; subst.
    cbn [JsMap.get] in Hund.
    destruct (eqk_spec v_undefined a) as [<-|Hau]; [discriminate|].
    assert (Hval' : Spec.names_accepted tl).
    { intros k p Hin. apply (Hval k p). right. exact Hin. }
    assert (Hval0 : forall k, a = v_string k -> CachedProp.dirty o = true ->
                              CachedProp.value o <> v_null -> Attr.valid_name k = true).
    { intros k -> Hd Hv. apply (Hval k o); [left; reflexivity | exact Hd | exact Hv]. }
    (* the effect of the first entry *)
    assert (Hstep : exists e1,
      PropertyCache.revert_native node (a, o) e = Js.Ok tt e1
      /\ Env.console e1 = Env.console e /\ Env.calls e1 = Env.calls e
      /\ Dom.childNodes (Env.dom e1) = Dom.childNodes (Env.dom e)
      /\ Dom.character_data (Env.dom e1) = Dom.character_data (Env.dom e)
      /\ Spec.unique_names (Env.dom e1) node
      /\ (forall k, Spec.attr_value (Env.dom e1) node k
                    = if CachedProp.dirty o && eqk (v_string k) a
                      then Spec.written_back (CachedProp.value o)
                      else Spec.attr_value (Env.dom e) node k)
      /\ Dom.get_data (Env.dom e1) node
         = if CachedProp.dirty o && eqk v_null a then CachedProp.value o
           else Dom.get_data (Env.dom e) node).
    { unfold PropertyCache.revert_native.
      destruct (CachedProp.dirty o) eqn:Hd; cbn [negb andb].
      - destruct a as [| |k0]; [congruence| |].
        + (* data *)
          eexists. split; [reflexivity|]. destruct e as [d co ca]. cbn in Hcd |- *.
          rewrite Hcd. cbn. repeat split; auto.
          unfold Dom.get_data. cbn. rewrite JsMap_get_set_same. reflexivity.
        + (* attribute *)
          destruct e as [d co ca]. cbn [Env.dom] in *.
          destruct (CachedProp.value o) as [| |s] eqn:Hv;
            unfold Env.on_dom, Js.zoom, Dom.setAttribute, Dom.removeAttribute, Js.bind, Js.get, Js.put;
            cbn [Env.dom]; rewrite Hcd; cbn [to_string];
            try (rewrite (Hval0 k0 eq_refl eq_refl) by discriminate; cbn [negb]);
            (eexists; split; [reflexivity|]); cbn [Env.dom Env.console Env.calls Dom.childNodes Dom.character_data];
            (split; [reflexivity|]); (split; [reflexivity|]); (split; [reflexivity|]);
            (split; [reflexivity|]); unfold Spec.unique_names, Spec.attr_value;
            rewrite ?attribute_list_set.
          * split; [apply names_assign_NoDup, Hun|]. split; [|reflexivity].
            intros k. rewrite attr_in_assign. cbn [eqk EqKey_Value Value_eqb Spec.written_back to_string].
            reflexivity.
          * split; [apply names_drop_NoDup, Hun|]. split; [|reflexivity].
            intros k. cbn [eqk EqKey_Value Value_eqb Spec.written_back].
            destruct (String.eqb_spec k k0) as [->|Hne].
            -- apply attr_in_drop_same, Hun.
            -- apply attr_in_drop_other, Hne.
          * split; [apply names_assign_NoDup, Hun|]. split; [|reflexivity].
            intros k. rewrite attr_in_assign. cbn [eqk EqKey_Value Value_eqb Spec.written_back to_string].
            reflexivity.
      - exists e. repeat split; auto. }
    destruct Hstep as (e1 & E1 & Hco1 & Hca1 & Hch1 & Hcd1 & Hun1 & Hat1 & Hda1).
    destruct (IH e1) as (e' & E' & Hco & Hca & Hch & Hcd' & Hun' & Hat & Hda); auto.
    { rewrite Hcd1. exact Hcd. }
    exists e'. cbn [Js.for_each map]. unfold Js.bind at 1. rewrite E1.
    split; [exact E'|].
    split; [congruence|]. split; [congruence|]. split; [congruence|]. split; [congruence|].
    split; [exact Hun'|]. split.
    + intros k. rewrite Hat, Hat1. cbn [JsMap.get].
      destruct (eqk_spec (v_string k) a) as [<-|Hne].
      * rewrite andb_true_r.
        assert (Hg : JsMap.get (v_string k) tl = None).
        { destruct (JsMap.get (v_string k) tl) eqn:Hg; [|reflexivity].
          exfalso. apply Hni. apply JsMap_get_In in Hg. apply (in_map fst) in Hg. exact Hg. }
        rewrite Hg. reflexivity.
      * rewrite andb_false_r. reflexivity.
    + rewrite Hda, Hda1. cbn [JsMap.get].
      destruct (eqk_spec v_null a) as [<-|Hne].
      * rewrite andb_true_r.
        assert (Hg : JsMap.get v_null tl = None).
        { destruct (JsMap.get v_null tl) eqn:Hg; [|reflexivity].
          exfalso. apply Hni. apply JsMap_get_In in Hg. apply (in_map fst) in Hg. exact Hg. }
        rewrite Hg. reflexivity.
      * rewrite andb_false_r. reflexivity.
Qed.



(** A key that holds [/] is not a name. *)
Lemma name_chars_slash (s : string) :
  In "/"%char (list_ascii_of_string s) -> Attr.name_chars s = false.
Proof.
  induction s as [|c s IH]; cbn [list_ascii_of_string Attr.name_chars]; [intros []|].
  intros [->|Hin]; [reflexivity|]. rewrite (IH Hin). apply andb_false_r.
Qed.

Lemma slash_not_a_name (k : string) :
  In "/"%char (list_ascii_of_string k) -> Attr.valid_name k = false.
Proof.
  destruct k as [|c s]; cbn [list_ascii_of_string Attr.valid_name]; [intros []|].
  intros [->|Hin]; [reflexivity|]. rewrite (name_chars_slash _ Hin). apply andb_false_r.
Qed.

(** One round of the loop on an element: it returns, or it throws the
    [InvalidCharacterError] of [setAttribute]. *)
Lemma revert_native_step node (entry : Value * CachedProp.t) e :
  Dom.mem node (Dom.character_data (Env.dom e)) = false ->
  (exists e1, PropertyCache.revert_native node entry e = Js.Ok tt e1
              /\ Dom.mem node (Dom.character_data (Env.dom e1)) = false)
  \/ (exists e1, PropertyCache.revert_native node entry e
                 = Js.Throw Js.InvalidCharacterError e1).
Proof.
  intros Hcd. destruct entry as [a o]. unfold PropertyCache.revert_native.
  destruct (CachedProp.dirty o); cbn [negb]; [|left; exists e; auto].
  destruct e as [d co ca]. cbn [Env.dom] in Hcd.
  assert (Hset : forall key v,
             (exists e1, Env.on_dom (Dom.setAttribute node key v) (Env.mk d co ca)
                         = Js.Ok tt e1
                         /\ Dom.mem node (Dom.character_data (Env.dom e1)) = false)
             \/ (exists e1, Env.on_dom (Dom.setAttribute node key v) (Env.mk d co ca)
                            = Js.Throw Js.InvalidCharacterError e1)).
  { intros key v.
    unfold Env.on_dom, Js.zoom, Dom.setAttribute, Js.bind, Js.get, Js.put, Js.throw.
    cbn [Env.dom]. rewrite Hcd.
    destruct (Attr.valid_name key); cbn [negb].
    - left. eexists. split; [reflexivity | exact Hcd].
    - right. eexists. reflexivity. }
  assert (Hrem : forall key,
             exists e1, Env.on_dom (Dom.removeAttribute node key) (Env.mk d co ca)
                        = Js.Ok tt e1
                        /\ Dom.mem node (Dom.character_data (Env.dom e1)) = false).
  { intros key.
    unfold Env.on_dom, Js.zoom, Dom.removeAttribute, Js.bind, Js.get, Js.put.
    cbn [Env.dom]. rewrite Hcd. eexists. split; [reflexivity | exact Hcd]. }
  destruct a as [| |k0].
  - destruct (CachedProp.value o); [apply Hset | left; apply Hrem | apply Hset].
  - left. eexists. split; [reflexivity | exact Hcd].
  - destruct (CachedProp.value o); [apply Hset | left; apply Hrem | apply Hset].
Qed.

Lemma revert_native_loop_throws node k p (L : JsMap.t Value CachedProp.t) :
  In (v_string k, p) L ->
  CachedProp.dirty p = true ->
  CachedProp.value p <> v_null ->
  Attr.valid_name k = false ->
  forall e,
    Dom.mem node (Dom.character_data (Env.dom e)) = false ->
    exists e',
      Js.for_each (JsMap.entries L) (PropertyCache.revert_native node) e
      = Js.Throw Js.InvalidCharacterError e'.
Proof.
  intros Hin Hd Hv Hk. unfold JsMap.entries.
  induction L as [|entry tl IH]; intros e Hcd; [destruct Hin|].
  cbn [Js.for_each]. unfold Js.bind.
  destruct Hin as [->|Hin].
  - (* the entry itself *)
    unfold PropertyCache.revert_native. rewrite Hd. cbn [negb to_string].
    destruct e as [d co ca]. cbn [Env.dom] in Hcd.
    assert (Hthrow : Env.on_dom (Dom.setAttribute node k (CachedProp.value p))
                       (Env.mk d co ca)
                     = Js.Throw Js.InvalidCharacterError (Env.mk d co ca)).
    { unfold Env.on_dom, Js.zoom, Dom.setAttribute, Js.bind, Js.get, Js.throw.
      cbn [Env.dom Env.console Env.calls]. rewrite Hcd, Hk. reflexivity. }
    destruct (CachedProp.value p); [|congruence|]; rewrite Hthrow; eexists; reflexivity.
  - destruct (revert_native_step node entry e Hcd) as [(e1 & E1 & Hcd1)|(e1 & E1)];
      rewrite E1.
    + exact (IH Hin e1 Hcd1).
    + exists e1. reflexivity.
Qed.

(** X27. On an element, [revert] does not complete when it has to set
    again an attribute whose key holds [/], as every key that [record]
    builds from a namespace that is a URL does: it throws the
    [InvalidCharacterError] of [setAttribute], with or without a
    callback. *)
Theorem revert_stops_at_url_key (this : PropertyCache.t) (node : Node)
    (custom_revert : option (Node -> Value -> Value -> Js.M Env.t unit)) (e : Env.t)
    (k : string) (p : CachedProp.t) :
  Dom.mem node (Dom.character_data (Env.dom e)) = false ->
  In (v_string k, p) (PropertyCache.native this) ->
  CachedProp.dirty p = true ->
  CachedProp.value p <> v_null ->
  In "/"%char (list_ascii_of_string k) ->
  exists e',
    PropertyCache.revert this node custom_revert e = Js.Throw Js.InvalidCharacterError e'.
Proof.
  intros Hcd Hin Hd Hv Hs.
  destruct (@revert_native_loop_throws node k p (PropertyCache.native this) Hin Hd Hv
              (slash_not_a_name _ Hs) e Hcd) as (e' & E).
  exists e'. unfold PropertyCache.revert, Js.bind. rewrite E. reflexivity.
Qed.

Lemma revert_stops_at_url_key_witness :
  JsMap.get 1 (MutationDiff.props (MutationDiff.this Ex.world_xlink))
  = Some (PropertyCache.mark m_native (v_string "http://www.w3.org/1999/xlink:href")
            v_null (v_string "a") PropertyCache.new)
  /\ (exists e',
        PropertyCache.revert
          (PropertyCache.mark m_native (v_string "http://www.w3.org/1999/xlink:href")
             v_null (v_string "a") PropertyCache.new)
          1 None (Env.of_dom Ex.dom_xlink)
        = Js.Throw Js.InvalidCharacterError e')
  /\ MutationDiff.revert None Ex.world_xlink
     = Js.Throw Js.InvalidCharacterError Ex.world_xlink.
Proof.
  split; [vm_compute; reflexivity|]. split; [|vm_compute; reflexivity].
  apply (@revert_stops_at_url_key
           (PropertyCache.mark m_native (v_string "http://www.w3.org/1999/xlink:href")
              v_null (v_string "a") PropertyCache.new)
           1 None (Env.of_dom Ex.dom_xlink) "http://www.w3.org/1999/xlink:href"
           (CachedProp.mk (v_string "a") true)).
  - reflexivity.
  - left. reflexivity.
  - reflexivity.
  - discriminate.
  - cbn. tauto.
Defined.

(** X4. [PropertyCache.synchronize] returns only on an empty cache, with 0;
    on any other cache the first value it reaches makes it throw a
    TypeError, with the cache as it was. *)
Theorem synchronize_returns_only_when_empty (c : PropertyCache.t) :
  PropertyCache.synchronize c
  = match PropertyCache.native c, PropertyCache.custom c with
    | [], [] => Js.Ok 0%Z (PropertyCache.mk [] [] 0 0)
    | _, _ => Js.Throw (Js.TypeError "object is not iterable") c
    end.
Proof.
  destruct c as [[|[k x] n] [|[k' x'] cu] cl di]; reflexivity.
Qed.

(** ** The facade: [clear], [revert], [mutated], [diff] *)

Lemma readonly_on_dom {A} (m : Js.M Dom.t A) : readonly m -> readonly (Env.on_dom m).
Proof.
  intros Hm [d co ca]. unfold Env.on_dom, Js.zoom. cbn [Env.dom Env.console Env.calls].
  specialize (Hm d). destruct (m d); cbn in Hm |- *; subst; reflexivity.
Qed.

Lemma readonly_on_env {A} (m : Js.M Env.t A) : readonly m -> readonly (MutationDiff.on_env m).
Proof.
  intros Hm [e x]. unfold MutationDiff.on_env, Js.zoom. cbn [MutationDiff.env MutationDiff.this].
  specialize (Hm e). destruct (m e); cbn in Hm |- *; subst; reflexivity.
Qed.

Lemma readonly_on_tree {A} (m : Js.M Tree.t A) : readonly m -> readonly (MutationDiff.on_tree m).
Proof.
  intros Hm [e [p t]]. unfold MutationDiff.on_tree, Js.zoom.
  cbn [MutationDiff.env MutationDiff.this MutationDiff.tree MutationDiff.props].
  specialize (Hm t). destruct (m t); cbn in Hm |- *; subst; reflexivity.
Qed.

Lemma readonly_getAttribute node k : readonly (Dom.getAttribute node k).
Proof.
  intros d. unfold Dom.getAttribute, Js.bind, Js.get.
  destruct (Dom.mem node (Dom.character_data d)); reflexivity.
Qed.

Lemma readonly_floating_get k : readonly (Tree.floating_get k).
Proof. apply readonly_gets. Qed.

Lemma readonly_mutated root : readonly (MutationDiff.mutated root).
Proof.
  unfold MutationDiff.mutated. apply readonly_bind; [apply readonly_get|]. intros w.
  destruct root as [root|].
  - destruct (existsb _ _); [apply readonly_ret|].
    apply readonly_bind; [|intros; apply readonly_ret].
    apply readonly_on_tree, readonly_fold. intros r acc.
    apply readonly_bind; [apply readonly_read_mn | intros; apply readonly_ret].
  - destruct (negb _); apply readonly_ret.
Qed.

Lemma readonly_diff_custom filter FO FM getter node cache acc :
  Spec.getter_reads getter ->
  readonly (MutationDiff.diff_custom filter FO FM getter node cache acc).
Proof.
  intros Hg. unfold MutationDiff.diff_custom.
  destruct (MutationDiff.nonzero _); [|apply readonly_ret].
  apply readonly_bind.
  - apply readonly_fold. intros [key op] custom.
    destruct (negb _); [apply readonly_ret|].
    apply readonly_bind; [|intros; apply readonly_ret].
    destruct getter as [f|]; [|apply readonly_ret].
    destruct (MutationDiff.nonzero FM); [|apply readonly_ret].
    apply readonly_bind; [|intros; apply readonly_ret].
    intros e. apply Hg.
  - intros custom. destruct custom; apply readonly_ret.
Qed.

Lemma readonly_diff filter getter :
  Spec.getter_reads getter -> readonly (MutationDiff.diff filter getter).
Proof.
  intros Hg. unfold MutationDiff.diff.
  destruct (_ || _); [|apply readonly_ret].
  apply readonly_bind; [apply readonly_get|]. intros w.
  apply readonly_bind.
  - destruct (MutationDiff.nonzero (MutationDiff.band filter "PROPERTY")); [|apply readonly_ret].
    apply readonly_on_env, readonly_fold. intros [node cache] out.
    unfold MutationDiff.diff_props.
    destruct (negb _); [apply readonly_ret|].
    apply readonly_bind; [apply readonly_get|]. intros e.
    apply readonly_bind.
    + rewrite diff_attributes_skip. apply readonly_ret.
    + intros acc. apply readonly_bind; [apply readonly_diff_custom, Hg|].
      intros acc'. destruct (fst _); apply readonly_ret.
  - intros out.
    destruct (MutationDiff.nonzero (MutationDiff.band filter "CHILDREN")); [|apply readonly_ret].
    apply readonly_on_tree, readonly_fold. intros r o.
    unfold MutationDiff.diff_children.
    apply readonly_bind; [apply readonly_read_mn | intros; apply readonly_ret].
Qed.

Lemma readonly_link_siblings fuel mode dir bop acc :
  readonly (MutationDiff.link_siblings fuel mode dir bop acc).
Proof.
  revert bop acc. induction fuel as [|fuel IH]; intros bop [group skip]; cbn [MutationDiff.link_siblings].
  - apply readonly_throw.
  - apply readonly_bind; [apply readonly_floating_get|]. intros bn.
    destruct (Position.get dir bop); try apply readonly_ret.
    destruct bn as [r|]; [|apply readonly_ret].
    apply readonly_bind; [apply readonly_read_mn|]. intros x.
    destruct (MutatedNode.get mode x); [apply IH | apply readonly_ret].
Qed.

Lemma readonly_diff_grouped_children mode include_removed :
  readonly (MutationDiff.diff_grouped_children mode include_removed).
Proof.
  unfold MutationDiff.diff_grouped_children.
  destruct (if MutationDiff.nonzero _ then _ else _) as [m|]; [|apply readonly_ret].
  apply readonly_bind; [apply readonly_get|]. intros s.
  apply readonly_bind.
  - apply readonly_fold. intros r [[groups skip] removed]. unfold MutationDiff.group_node.
    apply readonly_bind; [apply readonly_read_mn|]. intros x.
    destruct (Dom.mem _ skip); [apply readonly_ret|].
    destruct (MutatedNode.get m x); [|apply readonly_ret].
    apply readonly_bind; [apply readonly_get|]. intros s1.
    apply readonly_bind; [apply readonly_link_siblings|]. intros [g1 sk1].
    apply readonly_bind; [apply readonly_link_siblings|]. intros [g2 sk2].
    apply readonly_ret.
  - intros [[groups skip] removed]. destruct removed; apply readonly_ret.
Qed.

(** X5. The queries [mutated] and [diff_grouped_children] change neither
    the tracker nor its environment, whether they return or throw. [diff]
    makes no change of its own: without a getter, or with a getter whose
    calls change nothing, the tracker and the environment are as before,
    whether [diff] returns or throws. *)
Theorem queries_change_nothing (w : MutationDiff.World) :
  (forall root, Js.state_of (MutationDiff.mutated root w) = w)
  /\ (forall mode include_removed,
        Js.state_of (MutationDiff.on_tree
                       (MutationDiff.diff_grouped_children mode include_removed) w) = w)
  /\ (forall filter getter,
        Spec.getter_reads getter ->
        Js.state_of (MutationDiff.diff filter getter w) = w).
Proof.
  split; [|split].
  - intros root. apply readonly_mutated.
  - intros mode ir. apply readonly_on_tree, readonly_diff_grouped_children.
  - intros filter getter Hg. apply readonly_diff, Hg.
Qed.

Lemma queries_change_nothing_witness :
  Js.state_of (MutationDiff.diff MutationDiff.ALL (Some Ex.getter_b) Ex.world_marked)
  = Ex.world_marked
  /\ Js.state_of (MutationDiff.diff MutationDiff.ALL (Some Ex.getter_fails) Ex.world_marked)
     = Ex.world_marked.
Proof.
  destruct (queries_change_nothing Ex.world_marked) as (_ & _ & H).
  split; apply H; intros node key e; reflexivity.
Defined.

Lemma readonly_assert_valid_state : readonly TreeMutations.assert_valid_state.
Proof.
  unfold TreeMutations.assert_valid_state.
  apply readonly_bind; [apply readonly_get|]. intros s.
  apply readonly_bind.
  - apply readonly_fold. intros mn promises.
    apply readonly_bind; [apply readonly_check_mode | intros; apply readonly_check_mode].
  - intros promises. apply readonly_bind.
    + apply readonly_for_each, readonly_check_promise.
    + intros _. apply readonly_for_each, readonly_check_reverted.
Qed.

(** X6. The assertion pass [#assert_valid_state] only inspects the tracker:
    whether it passes or throws, the tracker is as before. *)
Theorem assert_valid_state_changes_nothing (s : Tree.t) :
  Js.state_of (TreeMutations.assert_valid_state s) = s.
Proof. apply readonly_assert_valid_state. Qed.

(** An empty tracker *)
Lemma empty_tracker_queries e t :
  Tree.floating t = [] ->
  let w := MutationDiff.mkWorld e (MutationDiff.mk JsMap.empty t) in
  MutationDiff.storage_size (MutationDiff.this w) = 0
  /\ MutationDiff.mutated None w = Js.Ok false w
  /\ (forall root, MutationDiff.mutated (Some root) w = Js.Ok false w)
  /\ (forall filter getter, MutationDiff.diff filter getter w = Js.Ok JsMap.empty w).
Proof.
  intros Hf w. subst w. destruct t as [fl o m mns ps]. cbn [Tree.floating] in Hf. subst fl.
  split; [reflexivity|]. split; [reflexivity|]. split; [reflexivity|].
  intros filter getter. unfold MutationDiff.diff.
  destruct (_ || _); [|reflexivity].
  unfold Js.bind, Js.get.
  destruct (MutationDiff.nonzero (MutationDiff.band filter "PROPERTY"));
    destruct (MutationDiff.nonzero (MutationDiff.band filter "CHILDREN")); reflexivity.
Qed.

(** X7. [clear()] returns, leaves the environment alone and forgets
    everything: the storage size is 0, [mutated] answers [false] with and
    without a root, and [diff] is empty for every filter. *)
Theorem clear_forgets_everything (w : MutationDiff.World) :
  exists w',
    MutationDiff.clear w = Js.Ok v_undefined w'
    /\ MutationDiff.env w' = MutationDiff.env w
    /\ MutationDiff.storage_size (MutationDiff.this w') = 0
    /\ MutationDiff.mutated None w' = Js.Ok false w'
    /\ (forall root, MutationDiff.mutated (Some root) w' = Js.Ok false w')
    /\ (forall filter getter, MutationDiff.diff filter getter w' = Js.Ok JsMap.empty w').
Proof.
  destruct w as [e [p t]].
  eexists. split; [reflexivity|]. split; [reflexivity|].
  apply empty_tracker_queries. reflexivity.
Qed.

(** X8. When [revert] returns, the tracker is empty, as after [clear()]:
    storage size 0, [mutated] false, [diff] empty. *)
Theorem revert_forgets_everything cb (w w' : MutationDiff.World) v :
  MutationDiff.revert cb w = Js.Ok v w' ->
  MutationDiff.storage_size (MutationDiff.this w') = 0
  /\ MutationDiff.mutated None w' = Js.Ok false w'
  /\ (forall root, MutationDiff.mutated (Some root) w' = Js.Ok false w')
  /\ (forall filter getter, MutationDiff.diff filter getter w' = Js.Ok JsMap.empty w').
Proof.
  unfold MutationDiff.revert. intros E.
  apply bind_Ok in E. destruct E as (w0 & w1 & _ & E).
  apply bind_Ok in E. destruct E as (u1 & w2 & _ & E).
  apply bind_Ok in E. destruct E as (u2 & w3 & E3 & E).
  apply bind_Ok in E. destruct E as (groups & w4 & E4 & E).
  apply bind_Ok in E. destruct E as (u3 & w5 & E5 & E).
  apply bind_Ok in E. destruct E as (u4 & w6 & E6 & E).
  injection E as _ <-.
  assert (Hp3 : MutationDiff.props (MutationDiff.this w3) = JsMap.empty).
  { unfold MutationDiff.set_props, Js.modify in E3. injection E3 as _ <-. reflexivity. }
  assert (Hp4 : MutationDiff.props (MutationDiff.this w4) = JsMap.empty).
  { pose proof (on_tree_props (MutationDiff.diff_grouped_children MutationDiff.ORIGINAL true) w3) as H.
    rewrite E4 in H. cbn [Js.state_of] in H. congruence. }
  assert (Hp5 : MutationDiff.props (MutationDiff.this w5) = JsMap.empty).
  { pose proof (on_env_props (MutationDiff.patch_grouped_children groups) w4) as H.
    rewrite E5 in H. cbn [Js.state_of] in H. congruence. }
  unfold MutationDiff.on_tree, Js.zoom, TreeMutations.clear, Js.modify in E6.
  injection E6 as _ <-. rewrite Hp5.
  apply empty_tracker_queries. reflexivity.
Qed.

Lemma revert_forgets_everything_witness :
  exists w',
    MutationDiff.revert None Ex.world_removed = Js.Ok v_undefined w'
    /\ MutationDiff.storage_size (MutationDiff.this w') = 0.
Proof.
  eexists. split; [vm_compute; reflexivity|].
  refine (proj1 (@revert_forgets_everything None Ex.world_removed _ v_undefined _)).
  vm_compute. reflexivity.
Defined.

(** X9. The root filter of [mutated] only narrows: whenever [mutated(root)]
    answers [true], so does [mutated()], and the storage size is not 0. *)
Theorem mutated_root_narrows (root : Node) (w w' : MutationDiff.World) :
  MutationDiff.mutated (Some root) w = Js.Ok true w' ->
  MutationDiff.mutated None w = Js.Ok true w
  /\ 0 < MutationDiff.storage_size (MutationDiff.this w).
Proof.
  unfold MutationDiff.mutated, Js.bind, Js.get, MutationDiff.storage_size, TreeMutations.size.
  destruct (existsb _ (JsMap.entries (MutationDiff.props (MutationDiff.this w)))) eqn:Hex.
  - intros _. apply existsb_exists in Hex. destruct Hex as ([node c] & Hin & Hc).
    apply andb_prop in Hc. destruct Hc as [Hd _].
    split.
    + destruct (negb _); [reflexivity|]. unfold Js.ret.
      assert (Hb : existsb (fun c0 => MutationDiff.nonzero (PropertyCache.dirty c0))
                     (JsMap.values (MutationDiff.props (MutationDiff.this w))) = true).
      { apply existsb_exists. exists c. split; [|exact Hd].
        unfold JsMap.values. apply (in_map snd) in Hin. exact Hin. }
      rewrite Hb. reflexivity.
    + unfold JsMap.entries in Hin. unfold JsMap.size.
      destruct (MutationDiff.props (MutationDiff.this w)); [destruct Hin | cbn; lia].
  - unfold TreeMutations.mutations, JsMap.values, JsMap.size.
    destruct (Tree.floating (MutationDiff.tree (MutationDiff.this w))) as [|[n r] fl].
    + destruct w as [e [p t]]. cbn. discriminate.
    + intros _. split; [reflexivity | cbn; lia].
Qed.

Lemma mutated_root_narrows_witness :
  MutationDiff.mutated (Some 0) Ex.world_busy = Js.Ok true Ex.world_busy
  /\ MutationDiff.mutated None Ex.world_busy = Js.Ok true Ex.world_busy.
Proof.
  assert (H : MutationDiff.mutated (Some 0) Ex.world_busy = Js.Ok true Ex.world_busy)
    by (vm_compute; reflexivity).
  split; [exact H | exact (proj1 (@mutated_root_narrows 0 _ _ H))].
Defined.

(** ** The object store *)

Lemma list_set_length {A} i (x : A) l : List.length (list_set i x l) = List.length l.
Proof.
  unfold list_set. revert i. induction l as [|a l IH]; intros [|i]; cbn; auto.
Qed.

Lemma nth_error_list_set_same {A} i (x : A) l :
  i < List.length l -> nth_error (list_set i x l) i = Some x.
Proof.
  unfold list_set. revert i. induction l as [|a l IH]; intros [|i] Hi; cbn in *; try lia.
  - reflexivity.
  - apply IH. lia.
Qed.

Lemma nth_error_list_set_other {A} i j (x : A) l :
  i <> j -> nth_error (list_set i x l) j = nth_error l j.
Proof.
  unfold list_set. revert i j. induction l as [|a l IH]; intros i j Hne.
  - destruct i, j; reflexivity.
  - destruct i as [|i], j as [|j]; cbn; try congruence; try reflexivity.
    apply IH. congruence.
Qed.

Lemma nth_error_Some_lt {A} (l : list A) i x : nth_error l i = Some x -> i < List.length l.
Proof. intros E. apply nth_error_Some. congruence. Qed.

Lemma read_mn_Ok r s x s' :
  Tree.read_mn r s = Js.Ok x s' -> s' = s /\ nth_error (Tree.mns s) r = Some x.
Proof.
  unfold Tree.read_mn. destruct (nth_error (Tree.mns s) r); [|discriminate].
  intros E. injection E as <- <-. auto.
Qed.

Lemma read_promise_Ok p s o s' :
  Tree.read_promise p s = Js.Ok o s' -> s' = s /\ nth_error (Tree.promises s) p = Some o.
Proof.
  unfold Tree.read_promise. destruct (nth_error (Tree.promises s) p); [|discriminate].
  intros E. injection E as <- <-. auto.
Qed.

Lemma position_set_same side op : Position.set side (Position.get side op) op = op.
Proof. destruct op, side; reflexivity. Qed.

Lemma position_get_set side v op : Position.get side (Position.set side v op) = v.
Proof. destruct side; reflexivity. Qed.

Lemma mutated_node_set_same mode op x :
  MutatedNode.get mode x = Some op -> MutatedNode.set mode (Some op) x = x.
Proof. destruct x, mode; cbn; intros ->; reflexivity. Qed.

Lemma mutated_node_get_set mode p x : MutatedNode.get mode (MutatedNode.set mode p x) = p.
Proof. destruct mode; reflexivity. Qed.

(** ** [SiblingIndex.update] *)

Lemma index_set_same mode i s : Tree.index mode (Tree.set_index mode i s) = i.
Proof. destruct mode; reflexivity. Qed.

Lemma indexobj_get_set side m i : IndexObj.get side (IndexObj.set side m i) = m.
Proof. destruct side; reflexivity. Qed.

Lemma update_present (mode : Mode) (r : MnRef) (sibling : Sibling) (side : Side)
    (parent : option Node) (s : Tree.t) (x : MutatedNode.t) (op : Position.t) :
  nth_error (Tree.mns s) r = Some x ->
  MutatedNode.get mode x = Some op ->
  exists s',
    SiblingIndex.update mode r sibling side parent s = Js.Ok tt s'
    /\ nth_error (Tree.mns s') r
       = Some (MutatedNode.set mode (Some (Position.set side sibling op)) x)
    /\ (forall r', r' <> r -> nth_error (Tree.mns s') r' = nth_error (Tree.mns s) r')
    /\ Tree.floating s' = Tree.floating s
    /\ Tree.promises s' = Tree.promises s
    /\ (Position.get side op <> sibling ->
        (forall n, sibling = s_node n ->
                   JsMap.get n (IndexObj.get side (Tree.index mode s')) = Some r)
        /\ (forall n, Position.get side op = s_node n ->
                      JsMap.get n (IndexObj.get side (Tree.index mode s')) = None)).
Proof.
  intros Hx Hg.
  pose proof (nth_error_Some_lt _ _ Hx) as Hlt.
  unfold SiblingIndex.update, Js.bind, Tree.read_mn. rewrite Hx, Hg. unfold Js.ret at 1.
  destruct (Sibling_eqb_spec (Position.get side op) sibling) as [Heq|Hne].
  - exists s. split; [reflexivity|]. rewrite <- Heq, position_set_same.
    rewrite (mutated_node_set_same _ _ Hg).
    split; [exact Hx|]. split; [reflexivity|]. split; [reflexivity|]. split; [reflexivity|].
    intros Hc. congruence.
  - unfold Tree.set_slot, Js.bind, Tree.read_mn. rewrite Hx, Hg.
    unfold Tree.write_mn, Js.modify.
    set (x2 := MutatedNode.set mode (Some (Position.set side sibling op)) x).
    set (s2 := Tree.set_mns (list_set r x2 (Tree.mns s)) s).
    assert (Hx2 : nth_error (Tree.mns s2) r = Some x2).
    { subst s2. cbn [Tree.mns Tree.set_mns]. apply nth_error_list_set_same, Hlt. }
    assert (Hother2 : forall r', r' <> r -> nth_error (Tree.mns s2) r' = nth_error (Tree.mns s) r').
    { intros r' Hr. subst s2. cbn [Tree.mns Tree.set_mns].
      apply nth_error_list_set_other. congruence. }
    (* the two index operations change neither the store nor the floating set *)
    assert (Hdel : forall k t, exists t',
               SiblingIndex.map_delete mode side k t = Js.Ok tt t'
               /\ Tree.mns t' = Tree.mns t /\ Tree.floating t' = Tree.floating t
               /\ Tree.promises t' = Tree.promises t
               /\ IndexObj.get side (Tree.index mode t')
                  = JsMap.delete k (IndexObj.get side (Tree.index mode t))).
    { intros k t. eexists. split; [reflexivity|].
      destruct t, mode; cbn; rewrite indexobj_get_set; auto. }
    assert (Hadd : forall k t, exists t',
               SiblingIndex.map_set mode side k r t = Js.Ok tt t'
               /\ Tree.mns t' = Tree.mns t /\ Tree.floating t' = Tree.floating t
               /\ Tree.promises t' = Tree.promises t
               /\ IndexObj.get side (Tree.index mode t')
                  = JsMap.set k r (IndexObj.get side (Tree.index mode t))).
    { intros k t. eexists. split; [reflexivity|].
      destruct t, mode; cbn; rewrite indexobj_get_set; auto. }
    assert (Hs2 : Tree.floating s2 = Tree.floating s /\ Tree.promises s2 = Tree.promises s).
    { subst s2. destruct s; cbn. auto. }
    destruct Hs2 as [Hfl2 Hpr2].
    (* delete the old key *)
    assert (H3 : exists s3,
               match SiblingIndex.index (Position.get side op) with
               | Some k => SiblingIndex.map_delete mode side k
               | None => Js.ret tt
               end s2 = Js.Ok tt s3
               /\ Tree.mns s3 = Tree.mns s2 /\ Tree.floating s3 = Tree.floating s2
               /\ Tree.promises s3 = Tree.promises s2
               /\ (forall n, Position.get side op = s_node n ->
                             JsMap.get n (IndexObj.get side (Tree.index mode s3)) = None)).
    { destruct (Position.get side op) as [| |k|q] eqn:Hold; cbn [SiblingIndex.index];
        try (exists s2; repeat split; auto; intros n Hn; discriminate).
      destruct (Hdel k s2) as (s3 & E3 & Hm3 & Hf3 & Hp3 & Hi3).
      exists s3. repeat split; auto. intros n Hn. injection Hn as <-.
      rewrite Hi3. apply JsMap_get_delete_same. }
    destruct H3 as (s3 & E3 & Hm3 & Hf3 & Hp3 & Hi3).
    fold s2. rewrite E3.
    destruct sibling as [| |k|q]; cbn [SiblingIndex.index];
      try (exists s3; split; [reflexivity|];
           split; [rewrite Hm3; exact Hx2|];
           split; [intros r' Hr; rewrite Hm3; apply Hother2, Hr|];
           split; [congruence|]; split; [congruence|];
           intros _; split; [intros n Hn; discriminate | exact Hi3]).
    destruct (Hadd k s3) as (s4 & E4 & Hm4 & Hf4 & Hp4 & Hi4).
    exists s4. split; [exact E4|].
    split; [rewrite Hm4, Hm3; exact Hx2|].
    split; [intros r' Hr; rewrite Hm4, Hm3; apply Hother2, Hr|].
    split; [congruence|]. split; [congruence|].
    intros _. split.
    + intros n Hn. injection Hn as <-. rewrite Hi4. apply JsMap_get_set_same.
    + intros n Hn. rewrite Hi4. rewrite JsMap_get_set_other; [apply Hi3, Hn|].
      intros ->. apply Hne. exact Hn.
Qed.

Lemma update_spec (mode : Mode) (r : MnRef) (sibling : Sibling) (side : Side)
    (parent : option Node) (s : Tree.t) (x : MutatedNode.t) :
  nth_error (Tree.mns s) r = Some x ->
  let op := match MutatedNode.get mode x with
            | Some op => op
            | None => Position.of_parent parent
            end in
  exists s',
    SiblingIndex.update mode r sibling side parent s = Js.Ok tt s'
    /\ nth_error (Tree.mns s') r
       = Some (MutatedNode.set mode (Some (Position.set side sibling op)) x)
    /\ (forall r', r' <> r -> nth_error (Tree.mns s') r' = nth_error (Tree.mns s) r')
    /\ Tree.floating s' = Tree.floating s
    /\ Tree.promises s' = Tree.promises s
    /\ (Position.get side op <> sibling ->
        (forall n, sibling = s_node n ->
                   JsMap.get n (IndexObj.get side (Tree.index mode s')) = Some r)
        /\ (forall n, Position.get side op = s_node n ->
                      JsMap.get n (IndexObj.get side (Tree.index mode s')) = None)).
Proof.
  intros Hx op.
  destruct (MutatedNode.get mode x) as [op0|] eqn:Hg.
  - subst op. apply update_present; assumption.
  - pose proof (nth_error_Some_lt _ _ Hx) as Hlt.
    set (x1 := MutatedNode.set mode (Some op) x).
    set (s1 := Tree.set_mns (list_set r x1 (Tree.mns s)) s).
    assert (Hx1 : nth_error (Tree.mns s1) r = Some x1).
    { subst s1. cbn [Tree.mns Tree.set_mns]. apply nth_error_list_set_same, Hlt. }
    assert (Hg1 : MutatedNode.get mode x1 = Some op) by apply mutated_node_get_set.
    assert (Hsame : SiblingIndex.update mode r sibling side parent s
                    = SiblingIndex.update mode r sibling side parent s1).
    { unfold SiblingIndex.update, Js.bind, Tree.read_mn. rewrite Hx, Hx1, Hg, Hg1.
      reflexivity. }
    destruct (@update_present mode r sibling side parent s1 x1 op Hx1 Hg1)
      as (s' & E & Hr & Ho & Hf & Hp & Hi).
    exists s'. rewrite Hsame. split; [exact E|].
    split; [rewrite Hr; subst x1; destruct x, mode; reflexivity|].
    split.
    { intros r' Hne. rewrite (Ho r' Hne). subst s1. cbn [Tree.mns Tree.set_mns].
      apply nth_error_list_set_other. congruence. }
    split; [rewrite Hf; subst s1; destruct s; reflexivity|].
    split; [rewrite Hp; subst s1; destruct s; reflexivity|].
    exact Hi.
Qed.

(** X10. [update(node, sibling, side, parent)] on a stored record returns
    and leaves the record with [sibling] in the slot of [side]: the position
    of the index's mode is the one it had (or, when it had none, a new
    [{parent}] with no sibling) with that slot replaced. The floating set,
    the promises and every other record are untouched; and when the slot
    changed, the index of that side maps a new sibling node to the record
    and no longer has the old sibling as a key. *)
Theorem update_sets_slot (mode : Mode) (r : MnRef) (sibling : Sibling) (side : Side)
    (parent : option Node) (s : Tree.t) (x : MutatedNode.t) :
  nth_error (Tree.mns s) r = Some x ->
  let op := match MutatedNode.get mode x with
            | Some op => op
            | None => Position.of_parent parent
            end in
  exists s',
    SiblingIndex.update mode r sibling side parent s = Js.Ok tt s'
    /\ nth_error (Tree.mns s') r
       = Some (MutatedNode.set mode (Some (Position.set side sibling op)) x)
    /\ (forall r', r' <> r -> nth_error (Tree.mns s') r' = nth_error (Tree.mns s) r')
    /\ Tree.floating s' = Tree.floating s
    /\ Tree.promises s' = Tree.promises s
    /\ (Position.get side op <> sibling ->
        (forall n, sibling = s_node n ->
                   JsMap.get n (IndexObj.get side (Tree.index mode s')) = Some r)
        /\ (forall n, Position.get side op = s_node n ->
                      JsMap.get n (IndexObj.get side (Tree.index mode s')) = None)).
Proof. intros Hx. apply update_spec, Hx. Qed.

Lemma update_sets_slot_witness :
  exists s',
    SiblingIndex.update Mutated 0 (s_node 7) Next (Some 1) Ex.tree_one_promise = Js.Ok tt s'
    /\ nth_error (Tree.mns s') 0
       = Some (MutatedNode.mk 2
                 (Some (Position.mk (Some 0) s_null (s_node 1)))
                 (Some (Position.mk (Some 1) (s_promise 2) (s_node 7)))).
Proof.
  destruct (@update_sets_slot Mutated 0 (s_node 7) Next (Some 1) Ex.tree_one_promise
              (MutatedNode.mk 2
                 (Some (Position.mk (Some 0) s_null (s_node 1)))
                 (Some (Position.mk (Some 1) (s_promise 2) (s_node 4)))))
    as (s' & E & Hx & _).
  - vm_compute. reflexivity.
  - exists s'. split; [exact E | exact Hx].
Defined.

(** ** [SiblingPromise.resume] *)

Lemma update_Ok mode r sibling side parent s s' :
  SiblingIndex.update mode r sibling side parent s = Js.Ok tt s' ->
  Tree.floating s' = Tree.floating s
  /\ Tree.promises s' = Tree.promises s
  /\ exists x op, nth_error (Tree.mns s') r = Some x
                  /\ MutatedNode.get mode x = Some op
                  /\ Position.get side op = sibling.
Proof.
  intros E.
  destruct (nth_error (Tree.mns s) r) as [x|] eqn:Hx.
  - destruct (@update_spec mode r sibling side parent s x Hx)
      as (s1 & E1 & Hr & _ & Hf & Hp & _).
    rewrite E1 in E. injection E as <-.
    split; [exact Hf|]. split; [exact Hp|].
    eexists. eexists. split; [exact Hr|].
    split; [apply mutated_node_get_set | apply position_get_set].
  - unfold SiblingIndex.update, Js.bind, Tree.read_mn in E. rewrite Hx in E. discriminate.
Qed.

Lemma resolve_Ok p node s s' :
  SiblingPromise.resolve p node s = Js.Ok tt s' ->
  Tree.floating s' = Tree.floating s
  /\ exists o x pos,
       nth_error (Tree.promises s') p = Some o
       /\ nth_error (Tree.mns s') (PromiseObj.mn o) = Some x
       /\ MutatedNode.original x = Some pos
       /\ Position.get (PromiseObj.dir o) pos = node.
Proof.
  unfold SiblingPromise.resolve. intros E.
  apply bind_Ok in E. destruct E as (o & s1 & Eo & E).
  apply read_promise_Ok in Eo. destruct Eo as [-> Ho].
  apply update_Ok in E. destruct E as (Hf & Hp & x & op & Hx & Hg & Hs).
  split; [exact Hf|]. exists o, x, op. rewrite Hp. auto.
Qed.

Lemma not_floating_same s s' v :
  Tree.floating s' = Tree.floating s -> Spec.not_floating s v -> Spec.not_floating s' v.
Proof. intros Hf. destruct v; cbn; try rewrite Hf; auto. Qed.

Lemma floating_get_Ok k s smn s' :
  Tree.floating_get k s = Js.Ok smn s' ->
  s' = s /\ (smn = None -> Spec.not_floating s k).
Proof.
  unfold Tree.floating_get, Js.gets. intros E. injection E as <- <-.
  split; [reflexivity|]. destruct k; cbn; auto.
Qed.

Lemma write_mn_state r x s :
  Tree.write_mn r x s = Js.Ok tt (Tree.set_mns (list_set r x (Tree.mns s)) s).
Proof. reflexivity. Qed.

(** The loop of [resume], whatever it returns. *)
Lemma resume_loop_Ok fuel p :
  forall smn node s b s',
    (smn = None -> Spec.not_floating s node) ->
    SiblingPromise.resume_loop fuel p smn node s = Js.Ok b s' ->
    Tree.floating s' = Tree.floating s
    /\ exists o,
         nth_error (Tree.promises s') p = Some o
         /\ if b
            then exists x pos,
                   nth_error (Tree.mns s') (PromiseObj.mn o) = Some x
                   /\ MutatedNode.original x = Some pos
                   /\ Spec.not_floating s' (Position.get (PromiseObj.dir o) pos)
            else exists r x m,
                   PromiseObj.ptr o = Some r
                   /\ nth_error (Tree.mns s') r = Some x
                   /\ MutatedNode.mutated x = Some m
                   /\ Position.get (PromiseObj.dir o) m = s_promise p.
Proof.
  assert (Hres : forall node s b s',
             Spec.not_floating s node ->
             Js.bind (SiblingPromise.resolve p node) (fun _ => Js.ret true) s = Js.Ok b s' ->
             Tree.floating s' = Tree.floating s
             /\ exists o,
                  nth_error (Tree.promises s') p = Some o
                  /\ if b
                     then exists x pos,
                            nth_error (Tree.mns s') (PromiseObj.mn o) = Some x
                            /\ MutatedNode.original x = Some pos
                            /\ Spec.not_floating s' (Position.get (PromiseObj.dir o) pos)
                     else exists r x m,
                            PromiseObj.ptr o = Some r
                            /\ nth_error (Tree.mns s') r = Some x
                            /\ MutatedNode.mutated x = Some m
                            /\ Position.get (PromiseObj.dir o) m = s_promise p).
  { intros node s b s' Hnf E.
    apply bind_Ok in E. destruct E as ([] & s1 & E1 & E). injection E as <- <-.
    apply resolve_Ok in E1. destruct E1 as (Hf & o & x & pos & Ho & Hx & Hpos & Hget).
    split; [exact Hf|]. exists o. split; [exact Ho|]. exists x, pos.
    split; [exact Hx|]. split; [exact Hpos|]. rewrite Hget.
    apply not_floating_same with s; assumption. }
  induction fuel as [|fuel IH]; intros smn node s b s' Hnone E.
  - destruct smn as [r|]; cbn [SiblingPromise.resume_loop] in E; [discriminate|].
    apply Hres in E; auto.
  - destruct smn as [r|]; cbn [SiblingPromise.resume_loop] in E; [|apply Hres in E; auto].
    apply bind_Ok in E. destruct E as (o & s1 & Eo & E).
    apply read_promise_Ok in Eo. destruct Eo as [-> Ho].
    apply bind_Ok in E. destruct E as (x & s1 & Ex & E).
    apply read_mn_Ok in Ex. destruct Ex as [-> Hx].
    apply bind_Ok in E. destruct E as (m & s1 & Em & E).
    (* the state and the record once the mutated position exists *)
    assert (H1 : Tree.floating s1 = Tree.floating s
                 /\ Tree.promises s1 = Tree.promises s
                 /\ nth_error (Tree.mns s1) r = Some (MutatedNode.set Mutated (Some m) x)).
    { destruct (MutatedNode.mutated x) as [m0|] eqn:Hm.
      - injection Em as <- <-. split; [reflexivity|]. split; [reflexivity|].
        rewrite Hx. f_equal. destruct x; cbn in *; congruence.
      - apply bind_Ok in Em. destruct Em as (op & s2 & Eop & Em).
        assert (s2 = s) as -> by (revert Eop; apply readonly_Ok, readonly_position).
        apply bind_Ok in Em. destruct Em as ([] & s3 & Ew & Em).
        injection Em as <- <-. rewrite write_mn_state in Ew. injection Ew as <-.
        split; [destruct s; reflexivity|]. split; [destruct s; reflexivity|].
        cbn [Tree.mns Tree.set_mns]. apply nth_error_list_set_same.
        apply nth_error_Some_lt with x, Hx. }
    destruct H1 as (Hf1 & Hp1 & Hx1).
    destruct (Position.get (PromiseObj.dir o) m) as [| |n|q] eqn:Hslot.
    + (* parked *)
      apply bind_Ok in E. destruct E as ([] & s2 & Es & E).
      apply bind_Ok in E. destruct E as ([] & s3 & Ew & E).
      injection E as <- <-.
      unfold Tree.set_slot, Js.bind, Tree.read_mn in Es. rewrite Hx1 in Es.
      cbn [MutatedNode.get MutatedNode.set MutatedNode.mutated] in Es.
      rewrite write_mn_state in Es. injection Es as <-.
      unfold Tree.write_promise, Js.modify in Ew. injection Ew as <-.
      split; [destruct s1; cbn in *; exact Hf1|].
      eexists. split.
      { cbn [Tree.promises Tree.set_promises Tree.set_mns]. apply nth_error_list_set_same.
        rewrite Hp1. apply nth_error_Some_lt with o, Ho. }
      cbn [PromiseObj.ptr PromiseObj.dir].
      eexists. eexists. eexists. split; [reflexivity|]. split.
      { cbn [Tree.mns Tree.set_promises Tree.set_mns]. apply nth_error_list_set_same.
        apply nth_error_Some_lt with (MutatedNode.set Mutated (Some m) x), Hx1. }
      split; [reflexivity | apply position_get_set].
    + (* end of the parent *)
      apply Hres in E; [|exact I]. destruct E as (Hf & Hrest).
      split; [congruence | exact Hrest].
    + (* a node: go on *)
      apply bind_Ok in E. destruct E as (smn' & s2 & Eg & E).
      apply floating_get_Ok in Eg. destruct Eg as [-> Hnf].
      apply IH in E; [|exact Hnf]. destruct E as (Hf & Hrest).
      split; [congruence | exact Hrest].
    + (* another promise in the slot *)
      apply bind_Ok in E. destruct E as (smn' & s2 & Eg & E).
      apply floating_get_Ok in Eg. destruct Eg as [-> Hnf].
      apply IH in E; [|exact Hnf]. destruct E as (Hf & Hrest).
      split; [congruence | exact Hrest].
Qed.

(** X11. The contract of [resume(node)]. When it returns [true], the origin
    record's original sibling on the promise's side has been set, to a
    value that is not a node of the floating set. When it returns [false],
    the promise is parked: its [ptr] is a record whose mutated slot on that
    side holds the promise. In both cases the floating set is unchanged. *)
Theorem resume_contract (p : PromiseRef) (node : Ref) (s s' : Tree.t) (b : bool) :
  SiblingPromise.resume p node s = Js.Ok b s' ->
  Tree.floating s' = Tree.floating s
  /\ exists o,
       nth_error (Tree.promises s') p = Some o
       /\ if b
          then exists x pos,
                 nth_error (Tree.mns s') (PromiseObj.mn o) = Some x
                 /\ MutatedNode.original x = Some pos
                 /\ Spec.not_floating s' (Position.get (PromiseObj.dir o) pos)
          else exists r x m,
                 PromiseObj.ptr o = Some r
                 /\ nth_error (Tree.mns s') r = Some x
                 /\ MutatedNode.mutated x = Some m
                 /\ Position.get (PromiseObj.dir o) m = s_promise p.
Proof.
  unfold SiblingPromise.resume. intros E. destruct node as [| |n|r].
  - apply bind_Ok in E. destruct E as (s0 & s1 & Eg & E). injection Eg as <- <-.
    apply resume_loop_Ok in E; [exact E | intros _; exact I].
  - apply (@resume_loop_Ok 0 p None s_null); [intros _; exact I | exact E].
  - apply bind_Ok in E. destruct E as (smn & s1 & Eg & E).
    apply floating_get_Ok in Eg. destruct Eg as [-> Hnf].
    apply bind_Ok in E. destruct E as (s0 & s1 & Eg & E). injection Eg as <- <-.
    apply resume_loop_Ok in E; [exact E | exact Hnf].
  - apply bind_Ok in E. destruct E as (s0 & s1 & Eg & E). injection Eg as <- <-.
    apply resume_loop_Ok in E; [exact E | discriminate].
Qed.

Lemma resume_contract_witness :
  exists s',
    SiblingPromise.resume 4 (r_mn 0) Ex.tree_walk_start = Js.Ok true s'
    /\ Tree.floating s' = Tree.floating Ex.tree_walk_start.
Proof.
  eexists. split; [vm_compute; reflexivity|].
  refine (proj1 (@resume_contract 4 (r_mn 0) Ex.tree_walk_start _ true _)).
  vm_compute. reflexivity.
Defined.

(** ** The side-skipping flags of [mutation] *)

Lemma land_bit_not_3 flags bit : (bit = 1 \/ bit = 2)%Z -> (Z.land flags bit =? 3)%Z = false.
Proof.
  intros [->| ->]; apply Z.eqb_neq; intros E.
  - assert (H : Z.testbit (Z.land flags 1) 1 = Z.testbit 3 1) by (rewrite E; reflexivity).
    rewrite Z.land_spec in H. cbn in H. rewrite andb_false_r in H. discriminate.
  - assert (H : Z.testbit (Z.land flags 2) 0 = Z.testbit 3 0) by (rewrite E; reflexivity).
    rewrite Z.land_spec in H. cbn in H. rewrite andb_false_r in H. discriminate.
Qed.

Lemma JsMap_has_set {K V} `{EqKey K} (k k0 : K) (v : V) (m : JsMap.t K V) :
  JsMap.has k0 m = true -> JsMap.has k (JsMap.set k0 v m) = JsMap.has k m.
Proof.
  unfold JsMap.has. intros H0.
  destruct (eqk_spec k k0) as [->|Hne].
  - rewrite JsMap_get_set_same. destruct (JsMap.get k0 m); [reflexivity | discriminate].
  - rewrite JsMap_get_set_other by exact Hne. reflexivity.
Qed.

(** X12. The callback [mark_reverted(mn, false, side)] never drops a record
    from [resolved]: its flags are and-ed with one bit, so the test
    [== 3] cannot succeed, and flags that are 0 stay 0. Only
    [mark_reverted(mn, true)] removes the record. *)
Theorem mark_reverted_keeps_unreverted (mn mn' : MnRef) (side : option Side)
    (resolved : JsMap.t MnRef Z) :
  JsMap.has mn' (TreeMutations.mark_reverted mn false side resolved) = JsMap.has mn' resolved
  /\ (JsMap.get mn resolved = Some 0%Z ->
      JsMap.get mn (TreeMutations.mark_reverted mn false side resolved) = Some 0%Z)
  /\ JsMap.has mn (TreeMutations.mark_reverted mn true side resolved) = false.
Proof.
  unfold TreeMutations.mark_reverted.
  destruct (JsMap.get mn resolved) as [flags|] eqn:Hg; cbn [orb].
  - rewrite land_bit_not_3 by (destruct side as [[|]|]; auto).
    split; [|split].
    + apply JsMap_has_set. unfold JsMap.has. rewrite Hg. reflexivity.
    + intros E. injection E as ->. rewrite JsMap_get_set_same. reflexivity.
    + unfold JsMap.has. rewrite JsMap_get_delete_same. reflexivity.
  - split; [reflexivity|]. split; [discriminate|]. unfold JsMap.has. rewrite Hg. reflexivity.
Qed.

(** ** [diff_grouped_children] and [include_removed] *)

(** One step of the generator does the same to the groups and to [skip]
    whether removed nodes are collected or not. *)
Lemma group_node_include_removed mode r groups skip removed s :
  MutationDiff.group_node mode false r (groups, skip, []) s
  = match MutationDiff.group_node mode true r (groups, skip, removed) s with
    | Js.Ok (g, sk, _) s' => Js.Ok (g, sk, []) s'
    | Js.Throw e s' => Js.Throw e s'
    end.
Proof.
  unfold MutationDiff.group_node, Js.bind.
  destruct (Tree.read_mn r s) as [x s1|e s1]; [|reflexivity].
  destruct (Dom.mem (MutatedNode.node x) skip); [reflexivity|].
  destruct (MutatedNode.get mode x) as [op|]; [|reflexivity].
  unfold Js.get.
  destruct (MutationDiff.link_siblings _ _ _ _ _ s1) as [[g1 sk1] s2|e s2]; [|reflexivity].
  destruct (MutationDiff.link_siblings _ _ _ _ _ s2) as [[g2 sk2] s3|e s3]; reflexivity.
Qed.

Lemma group_fold_include_removed mode l :
  forall groups skip removed s,
    Js.fold l (MutationDiff.group_node mode false) (groups, skip, []) s
    = match Js.fold l (MutationDiff.group_node mode true) (groups, skip, removed) s with
      | Js.Ok (g, sk, _) s' => Js.Ok (g, sk, []) s'
      | Js.Throw e s' => Js.Throw e s'
      end.
Proof.
  induction l as [|r l IH]; intros groups skip removed s; cbn [Js.fold].
  - reflexivity.
  - unfold Js.bind. rewrite (group_node_include_removed mode r groups skip removed s).
    destruct (MutationDiff.group_node mode true r (groups, skip, removed) s)
      as [[[g sk] rem] s1|e s1]; [|reflexivity].
    apply IH.
Qed.

(** X13. [include_removed] only decides whether the final group of removed
    nodes (the one without a parent) is yielded: with [false] the generator
    yields the same groups as with [true], in the same order, without that
    last group; and it throws exactly when the other does. *)
Theorem include_removed_only_adds_last_group (mode : Z) (s : Tree.t) :
  match MutationDiff.diff_grouped_children mode true s,
        MutationDiff.diff_grouped_children mode false s with
  | Js.Ok with_removed s1, Js.Ok without s2 =>
      s1 = s2
      /\ (with_removed = without
          \/ exists nodes,
               nodes <> []
               /\ with_removed = without ++ [Group.mk nodes None s_undefined s_undefined])
  | Js.Throw e1 s1, Js.Throw e2 s2 => e1 = e2 /\ s1 = s2
  | _, _ => False
  end.
Proof.
  unfold MutationDiff.diff_grouped_children.
  destruct (if MutationDiff.nonzero _ then _ else _) as [m|]; [|cbn; auto].
  unfold Js.bind, Js.get.
  rewrite (group_fold_include_removed m (TreeMutations.mutations s) [] [] [] s).
  destruct (Js.fold _ (MutationDiff.group_node m true) _ s) as [[[g sk] rem] s1|e s1];
    [|auto].
  destruct rem as [|n rem]; cbn; split; auto.
  right. exists (n :: rem). split; [discriminate | reflexivity].
Qed.

(** ** [attribute] and [data] against the live tree *)

Lemma Value_eqb_refl v : Value_eqb v v = true.
Proof. exact (eqk_refl v). Qed.

(** X14. [attribute(node, key, old_value)] on an element returns, changes
    neither the environment nor the position tracker nor the cache of any
    other node, and leaves the entry of [key] holding the original value
    (the one cached before, otherwise [old_value]) with a dirty flag that
    says whether the live attribute differs from it. *)
Theorem attribute_compares_with_live_value (node : Node) (key old : Value)
    (w : MutationDiff.World) :
  Dom.mem node (Dom.character_data (Env.dom (MutationDiff.env w))) = false ->
  let cache := match JsMap.get node (MutationDiff.props (MutationDiff.this w)) with
               | Some c => c
               | None => PropertyCache.new
               end in
  let orig := Spec.original_value m_native key old cache in
  let live := Spec.attr_value (Env.dom (MutationDiff.env w)) node (to_string key) in
  exists w' c',
    MutationDiff.attribute node key old w = Js.Ok v_undefined w'
    /\ MutationDiff.env w' = MutationDiff.env w
    /\ MutationDiff.tree (MutationDiff.this w') = MutationDiff.tree (MutationDiff.this w)
    /\ JsMap.get node (MutationDiff.props (MutationDiff.this w')) = Some c'
    /\ JsMap.get key (PropertyCache.native c')
       = Some (CachedProp.mk orig (negb (Value_eqb live orig)))
    /\ forall node', node' <> node ->
         JsMap.get node' (MutationDiff.props (MutationDiff.this w'))
         = JsMap.get node' (MutationDiff.props (MutationDiff.this w)).
Proof.
  intros Hcd cache orig live. destruct w as [[d co ca] [p t]].
  cbn [MutationDiff.env MutationDiff.this MutationDiff.props MutationDiff.tree Env.dom] in *.
  unfold MutationDiff.attribute, MutationDiff.on_env, Env.on_dom, Js.zoom, Js.bind.
  cbn [MutationDiff.env Env.dom].
  unfold Dom.getAttribute, Js.bind, Js.get. rewrite Hcd.
  unfold Js.ret at 1. cbn [Env.console Env.calls MutationDiff.this].
  unfold MutationDiff.prop, Js.bind, Js.get, MutationDiff.set_props, Js.modify, Js.ret.
  cbn [MutationDiff.env MutationDiff.this MutationDiff.props MutationDiff.tree].
  eexists. eexists. split; [reflexivity|].
  cbn [MutationDiff.env MutationDiff.this MutationDiff.props MutationDiff.tree].
  split; [reflexivity|]. split; [reflexivity|].
  split; [apply JsMap_get_set_same|].
  split.
  - exact (mark_get_same m_native key live old cache).
  - intros node' Hne. apply JsMap_get_set_other, Hne.
Qed.

Lemma attribute_compares_with_live_value_witness :
  exists w' c',
    MutationDiff.attribute 1 (v_string "class") (v_string "y")
      (MutationDiff.mkWorld (Env.of_dom Ex.dom_class_x) (MutationDiff.this Ex.world_class))
    = Js.Ok v_undefined w'
    /\ JsMap.get 1 (MutationDiff.props (MutationDiff.this w')) = Some c'
    /\ JsMap.get (v_string "class") (PropertyCache.native c')
       = Some (CachedProp.mk (v_string "x") false).
Proof.
  destruct (@attribute_compares_with_live_value 1 (v_string "class") (v_string "y")
              (MutationDiff.mkWorld (Env.of_dom Ex.dom_class_x)
                 (MutationDiff.this Ex.world_class)) eq_refl)
    as (w' & c' & E & _ & _ & Hc & He & _).
  exists w', c'. split; [exact E|]. split; [exact Hc | exact He].
Defined.

(** X15. [data(node, old_value)] always returns, changes neither the
    environment nor the position tracker nor the cache of any other node,
    and leaves the entry of the key [null] holding the original data (the
    one cached before, otherwise [old_value]) with a dirty flag that says
    whether the live [node.data] differs from it. *)
Theorem data_compares_with_live_value (node : Node) (old : Value) (w : MutationDiff.World) :
  let cache := match JsMap.get node (MutationDiff.props (MutationDiff.this w)) with
               | Some c => c
               | None => PropertyCache.new
               end in
  let orig := Spec.original_value m_native v_null old cache in
  let live := Dom.get_data (Env.dom (MutationDiff.env w)) node in
  exists w' c',
    MutationDiff.data node old w = Js.Ok v_undefined w'
    /\ MutationDiff.env w' = MutationDiff.env w
    /\ MutationDiff.tree (MutationDiff.this w') = MutationDiff.tree (MutationDiff.this w)
    /\ JsMap.get node (MutationDiff.props (MutationDiff.this w')) = Some c'
    /\ JsMap.get v_null (PropertyCache.native c')
       = Some (CachedProp.mk orig (negb (Value_eqb live orig)))
    /\ forall node', node' <> node ->
         JsMap.get node' (MutationDiff.props (MutationDiff.this w'))
         = JsMap.get node' (MutationDiff.props (MutationDiff.this w)).
Proof.
  intros cache orig live. destruct w as [[d co ca] [p t]].
  cbn [MutationDiff.env MutationDiff.this MutationDiff.props MutationDiff.tree Env.dom] in *.
  unfold MutationDiff.data, MutationDiff.prop, Js.bind, Js.get, MutationDiff.set_props,
    Js.modify, Js.ret.
  cbn [MutationDiff.env MutationDiff.this MutationDiff.props MutationDiff.tree Env.dom].
  eexists. eexists. split; [reflexivity|].
  cbn [MutationDiff.env MutationDiff.this MutationDiff.props MutationDiff.tree].
  split; [reflexivity|]. split; [reflexivity|].
  split; [apply JsMap_get_set_same|].
  split.
  - exact (mark_get_same m_native v_null live old cache).
  - intros node' Hne. apply JsMap_get_set_other, Hne.
Qed.

(** ** [TreeMutations.synchronize] *)

Lemma add_Ok mode r s x :
  nth_error (Tree.mns s) r = Some x ->
  exists s',
    SiblingIndex.add mode r s = Js.Ok tt s'
    /\ Tree.mns s' = Tree.mns s
    /\ Tree.floating s' = Tree.floating s.
Proof.
  intros Hx. unfold SiblingIndex.add, Js.bind, Tree.read_mn. rewrite Hx.
  destruct (MutatedNode.get mode x) as [op|]; [|exists s; auto].
  destruct (SiblingIndex.index (Position.prev op)), (SiblingIndex.index (Position.next op));
    eexists; (split; [reflexivity|]); destruct s, mode; split; reflexivity.
Qed.

Lemma collect_known mn dir l s x m :
  nth_error (Tree.mns s) mn = Some x ->
  MutatedNode.mutated x = Some m ->
  MutationDiff.sibling_set (Position.get dir m) = true ->
  TreeSync.collect_promises mn dir l s = Js.Ok l s.
Proof.
  intros Hx Hm Hk. unfold TreeSync.collect_promises, Tree.position, Js.bind, Tree.read_mn.
  rewrite Hx. cbn [MutatedNode.get]. rewrite Hm. unfold Js.ret at 1.
  destruct (Position.get dir m); try discriminate; reflexivity.
Qed.

Lemma collect_unknown mn dir l s x m :
  nth_error (Tree.mns s) mn = Some x ->
  MutatedNode.mutated x = Some m ->
  MutationDiff.sibling_set (Position.get dir m) = false ->
  TreeSync.collect_promises mn dir l s = Js.Throw (Js.ReferenceError "node is not defined") s.
Proof.
  intros Hx Hm Hk. unfold TreeSync.collect_promises, Tree.position, Js.bind, Tree.read_mn.
  rewrite Hx. cbn [MutatedNode.get]. rewrite Hm. unfold Js.ret at 1.
  destruct (Position.get dir m); try discriminate; reflexivity.
Qed.

Lemma of_nullable_set o : MutationDiff.sibling_set (of_nullable o) = true.
Proof. destruct o; reflexivity. Qed.

(** One round of the first loop of [synchronize]. *)
Lemma sync_node_cases d r l s x :
  nth_error (Tree.mns s) r = Some x ->
  (Spec.unknown_sibling x = true
   /\ TreeSync.sync_node d r l s = Js.Throw (Js.ReferenceError "node is not defined") s)
  \/ (Spec.unknown_sibling x = false
      /\ exists s' x',
           TreeSync.sync_node d r l s = Js.Ok l s'
           /\ Tree.floating s' = Tree.floating s
           /\ (forall r', r' <> r -> nth_error (Tree.mns s') r' = nth_error (Tree.mns s) r')
           /\ nth_error (Tree.mns s') r = Some x'
           /\ Spec.unknown_sibling x' = false
           /\ Spec.position_settled d x').
Proof.
  intros Hx.
  assert (Heq : TreeSync.sync_node d r l s
                = match MutatedNode.mutated x with
                  | Some _ =>
                      Js.bind (TreeSync.collect_promises r Prev l)
                        (fun l => TreeSync.collect_promises r Next l)
                  | None =>
                      match Dom.parentNode d (MutatedNode.node x) with
                      | Some p =>
                          Js.bind
                            (Tree.write_mn r
                               (MutatedNode.set Mutated
                                  (Some (Position.mk (Some p)
                                           (of_nullable (Dom.previousSibling d (MutatedNode.node x)))
                                           (of_nullable (Dom.nextSibling d (MutatedNode.node x)))))
                                  x))
                            (fun _ => Js.bind (SiblingIndex.add Mutated r) (fun _ => Js.ret l))
                      | None => Js.ret l
                      end
                  end s).
  { unfold TreeSync.sync_node. unfold Js.bind at 1. unfold Tree.read_mn. rewrite Hx.
    reflexivity. }
  rewrite Heq. clear Heq. unfold Spec.unknown_sibling, Spec.position_settled.
  destruct (MutatedNode.mutated x) as [m|] eqn:Hm.
  - destruct (MutationDiff.sibling_set (Position.prev m)) eqn:Hp; cbn [negb orb].
    + destruct (MutationDiff.sibling_set (Position.next m)) eqn:Hn; cbn [negb].
      * right. split; [reflexivity|]. exists s, x.
        unfold Js.bind. rewrite (@collect_known r Prev l s x m Hx Hm Hp).
        rewrite (@collect_known r Next l s x m Hx Hm Hn).
        rewrite Hm, Hp, Hn. repeat split; auto.
      * left. split; [reflexivity|].
        unfold Js.bind. rewrite (@collect_known r Prev l s x m Hx Hm Hp).
        apply (@collect_unknown r Next l s x m Hx Hm Hn).
    + left. split; [reflexivity|].
      unfold Js.bind. rewrite (@collect_unknown r Prev l s x m Hx Hm Hp). reflexivity.
  - right. split; [reflexivity|].
    destruct (Dom.parentNode d (MutatedNode.node x)) as [p|] eqn:Hpar.
    + set (x' := MutatedNode.set Mutated
                   (Some (Position.mk (Some p)
                            (of_nullable (Dom.previousSibling d (MutatedNode.node x)))
                            (of_nullable (Dom.nextSibling d (MutatedNode.node x))))) x).
      set (s1 := Tree.set_mns (list_set r x' (Tree.mns s)) s).
      assert (Hx1 : nth_error (Tree.mns s1) r = Some x').
      { subst s1. cbn [Tree.mns Tree.set_mns]. apply nth_error_list_set_same.
        apply nth_error_Some_lt with x, Hx. }
      destruct (@add_Ok Mutated r s1 x' Hx1) as (s2 & E2 & Hm2 & Hf2).
      exists s2, x'. unfold Js.bind. rewrite write_mn_state. fold x'. fold s1. rewrite E2.
      split; [reflexivity|].
      split; [rewrite Hf2; subst s1; destruct s; reflexivity|].
      split.
      { intros r' Hne. rewrite Hm2. subst s1. cbn [Tree.mns Tree.set_mns].
        apply nth_error_list_set_other. congruence. }
      split; [rewrite Hm2; exact Hx1|].
      subst x'. cbn [MutatedNode.set MutatedNode.mutated Position.prev Position.next].
      rewrite !of_nullable_set. repeat split; reflexivity.
    + exists s, x. rewrite Hm. repeat split; auto.
Qed.

Lemma sync_fold_Ok d L :
  forall l s l' s',
    Js.fold L (TreeSync.sync_node d) l s = Js.Ok l' s' ->
    l' = l
    /\ Tree.floating s' = Tree.floating s
    /\ (forall r, ~ In r L -> nth_error (Tree.mns s') r = nth_error (Tree.mns s) r)
    /\ (forall r x, In r L -> nth_error (Tree.mns s') r = Some x ->
                    Spec.unknown_sibling x = false /\ Spec.position_settled d x).
Proof.
  induction L as [|r tl IH]; intros l s l' s' E; cbn [Js.fold] in E.
  - injection E as <- <-. split; [reflexivity|]. split; [reflexivity|].
    split; [reflexivity|]. intros r0 x0 [].
  - apply bind_Ok in E. destruct E as (l1 & s1 & E1 & E2).
    assert (Hx : exists x, nth_error (Tree.mns s) r = Some x).
    { unfold TreeSync.sync_node in E1. apply bind_Ok in E1.
      destruct E1 as (x & s0 & Ex & _). apply read_mn_Ok in Ex. destruct Ex as [_ Hx]. eauto. }
    destruct Hx as (x & Hx).
    destruct (@sync_node_cases d r l s x Hx) as [[_ Et]|(Hu & s1' & x' & Eo & Hf & Hoth & Hx' & Hu' & Hset)];
      [rewrite Et in E1; discriminate|].
    rewrite Eo in E1. injection E1 as <- <-.
    destruct (IH _ _ _ _ E2) as (-> & Hf2 & Hframe & Hpost).
    split; [reflexivity|]. split; [congruence|]. split.
    + intros r0 Hni. rewrite Hframe by (intros Hin; apply Hni; right; exact Hin).
      apply Hoth. intros ->. apply Hni. left. reflexivity.
    + intros r0 x0 Hin Hx0. destruct (in_dec Nat.eq_dec r0 tl) as [Htl|Hntl].
      * exact (Hpost r0 x0 Htl Hx0).
      * destruct Hin as [->|Hin]; [|contradiction].
        rewrite (Hframe r0 Hntl), Hx' in Hx0. injection Hx0 as <-. auto.
Qed.

Lemma sync_fold_throws d L :
  forall l s,
    (forall r, In r L -> exists x, nth_error (Tree.mns s) r = Some x) ->
    (exists r x, In r L /\ nth_error (Tree.mns s) r = Some x /\ Spec.unknown_sibling x = true) ->
    exists s', Js.fold L (TreeSync.sync_node d) l s
               = Js.Throw (Js.ReferenceError "node is not defined") s'.
Proof.
  induction L as [|r tl IH]; intros l s Hst (r0 & x0 & Hin & Hx0 & Hu0); [destruct Hin|].
  cbn [Js.fold]. unfold Js.bind.
  destruct (Hst r (or_introl eq_refl)) as (x & Hx).
  destruct (@sync_node_cases d r l s x Hx) as [[_ Et]|(Hu & s1 & x' & Eo & Hf & Hoth & Hx' & _)].
  - rewrite Et. eauto.
  - rewrite Eo. apply IH.
    + intros r1 Hin1. destruct (Nat.eq_dec r1 r) as [->|Hne]; [eauto|].
      rewrite (Hoth r1 Hne). apply Hst. right. exact Hin1.
    + assert (Hne : r0 <> r) by (intros ->; congruence).
      exists r0, x0. destruct Hin as [E|Hin]; [congruence|].
      split; [exact Hin|]. split; [rewrite (Hoth r0 Hne); exact Hx0 | exact Hu0].
Qed.

(** X16. [synchronize()] exists to resolve unknown siblings, and throws on
    them: when some record of the floating set has a mutated position with
    an [undefined] sibling or a promise, the call throws the ReferenceError
    of the free name [node]. *)
Theorem synchronize_throws_on_unknown_sibling (d : Dom.t) (s : Tree.t) :
  Spec.floating_stored s ->
  (exists n r x,
     In (n, r) (Tree.floating s)
     /\ nth_error (Tree.mns s) r = Some x
     /\ Spec.unknown_sibling x = true) ->
  exists s',
    TreeSync.synchronize d s = Js.Throw (Js.ReferenceError "node is not defined") s'.
Proof.
  intros Hst (n & r & x & Hin & Hx & Hu).
  destruct (@sync_fold_throws d (TreeMutations.mutations s) TreeSync.init_locals s) as (s' & E).
  - intros r1 Hin1. unfold TreeMutations.mutations, JsMap.values in Hin1.
    apply in_map_iff in Hin1. destruct Hin1 as ([n1 r1'] & <- & Hin1). exact (Hst _ _ Hin1).
  - exists r, x. split; [|auto]. unfold TreeMutations.mutations, JsMap.values.
    apply (in_map snd) in Hin. exact Hin.
  - exists s'. unfold TreeSync.synchronize. unfold Js.bind at 1. unfold Js.get.
    unfold Js.bind at 1.
    match goal with
    | |- match ?t with _ => _ end = _ =>
        replace t with (@Js.Throw Tree.t TreeSync.Locals
                          (Js.ReferenceError "node is not defined") s')
          by (symmetry; exact E)
    end.
    reflexivity.
Qed.

Lemma synchronize_throws_on_unknown_sibling_witness :
  exists s',
    TreeSync.synchronize Dom.empty Ex.tree_one_promise
    = Js.Throw (Js.ReferenceError "node is not defined") s'.
Proof.
  apply synchronize_throws_on_unknown_sibling.
  - intros n r Hin.
    assert (Hr : r < 2).
    { vm_compute in Hin. destruct Hin as [E|[E|[]]]; injection E as _ <-; lia. }
    destruct r as [|[|r]]; [eexists; vm_compute; reflexivity .. | lia].
  - exists 2, 0. eexists. split; [vm_compute; left; reflexivity|].
    split; vm_compute; reflexivity.
Defined.

(** X17. When [synchronize()] returns, the floating set is the same and
    every position is settled: a record with a mutated position knows both
    of its siblings, and a record without one belongs to a node that has no
    parent in the live tree. *)
Theorem synchronize_settles_positions (d : Dom.t) (s s' : Tree.t) :
  TreeSync.synchronize d s = Js.Ok tt s' ->
  Tree.floating s' = Tree.floating s
  /\ forall n r x,
       In (n, r) (Tree.floating s') ->
       nth_error (Tree.mns s') r = Some x ->
       Spec.position_settled d x.
Proof.
  unfold TreeSync.synchronize. intros E.
  apply bind_Ok in E. destruct E as (s0 & s1 & Eg & E). injection Eg as <- <-.
  apply bind_Ok in E. destruct E as (l & s1 & Ef & E).
  apply sync_fold_Ok in Ef. destruct Ef as (-> & Hf & _ & Hpost).
  cbn [TreeSync.init_locals TreeSync.next_promises TreeSync.prev_promises TreeSync.candidates
       JsMap.values JsMap.empty map Js.fold Js.for_each] in E.
  apply bind_Ok in E. destruct E as (l2 & s2 & El & E). injection El as <- <-.
  apply bind_Ok in E. destruct E as ([] & s2 & Eu & E). injection Eu as <-.
  apply bind_Ok in E. destruct E as ([] & s3 & Eu & E). injection Eu as <-.
  assert (s' = s1) as -> by (revert E; apply readonly_Ok, readonly_assert_valid_state).
  split; [exact Hf|]. intros n r x Hin Hx.
  apply (Hpost r x); [|exact Hx].
  rewrite Hf in Hin. unfold TreeMutations.mutations, JsMap.values.
  apply (in_map snd) in Hin. exact Hin.
Qed.

Lemma synchronize_settles_positions_witness :
  exists s',
    TreeSync.synchronize Ex.dom_adopted Ex.tree_adopted = Js.Ok tt s'
    /\ Tree.floating s' = Tree.floating Ex.tree_adopted.
Proof.
  eexists. split; [vm_compute; reflexivity|].
  refine (proj1 (@synchronize_settles_positions Ex.dom_adopted Ex.tree_adopted _ _)).
  vm_compute. reflexivity.
Defined.

(** ** [MutationDiff.synchronize] *)

(** An invariant of the caches that [mark] establishes and
    [PropertyCache.synchronize] keeps holds of every cache of every
    reachable tracker. *)
Section PropsInvariant.
Variable Q : PropertyCache.t -> Prop.
Hypothesis Q_mark :
  forall mode key value old c, Q (PropertyCache.mark mode key value old c).
Hypothesis Q_synchronize :
  forall c, Q c -> Q (Js.state_of (PropertyCache.synchronize c)).

Lemma all_on_env {A} (m : Js.M Env.t A) : preserves (Spec.props_all Q) (MutationDiff.on_env m).
Proof. intros w H. unfold Spec.props_all. rewrite on_env_props. exact H. Qed.

Lemma all_on_tree {A} (m : Js.M Tree.t A) : preserves (Spec.props_all Q) (MutationDiff.on_tree m).
Proof. intros w H. unfold Spec.props_all. rewrite on_tree_props. exact H. Qed.

Lemma all_set_props_empty : preserves (Spec.props_all Q) (MutationDiff.set_props JsMap.empty).
Proof. intros w _ node c []. Qed.

Lemma all_prop node mode key value old :
  preserves (Spec.props_all Q) (MutationDiff.prop node mode key value old).
Proof.
  intros w H. unfold MutationDiff.prop, Js.bind, Js.get. simpl.
  intros n c Hin. simpl in Hin.
  apply JsMap_In_set in Hin. destruct Hin as [E|Hin]; [|exact (H _ _ Hin)].
  injection E as _ ->. apply Q_mark.
Qed.

Lemma all_attribute node key old :
  preserves (Spec.props_all Q) (MutationDiff.attribute node key old).
Proof. apply preserves_bind; [apply all_on_env | intros v; apply all_prop]. Qed.

Lemma all_data node old : preserves (Spec.props_all Q) (MutationDiff.data node old).
Proof. apply preserves_bind; [apply preserves_get | intros w; apply all_prop]. Qed.

Lemma all_children parent removed added prev next :
  preserves (Spec.props_all Q) (MutationDiff.children parent removed added prev next).
Proof. apply preserves_bind; [apply all_on_tree | intros _; apply preserves_ret]. Qed.

Lemma all_record r : preserves (Spec.props_all Q) (MutationDiff.record r).
Proof.
  unfold MutationDiff.record.
  apply preserves_bind; [|intros _; apply preserves_ret].
  repeat apply preserves_if.
  - apply preserves_bind; [apply all_attribute | intros _; apply preserves_ret].
  - apply preserves_bind; [apply all_data | intros _; apply preserves_ret].
  - apply preserves_bind; [apply all_children | intros _; apply preserves_ret].
  - apply preserves_ret.
Qed.

Lemma all_mutated root : preserves (Spec.props_all Q) (MutationDiff.mutated root).
Proof.
  intros w H. rewrite readonly_mutated. exact H.
Qed.

Lemma all_diff filter getter : preserves (Spec.props_all Q) (MutationDiff.diff filter getter).
Proof.
  unfold MutationDiff.diff.
  apply preserves_if; [|apply preserves_ret].
  apply preserves_bind; [apply preserves_get | intros w].
  apply preserves_bind.
  - apply preserves_if; [apply all_on_env | apply preserves_ret].
  - intros out. apply preserves_if; [apply all_on_tree | apply preserves_ret].
Qed.

Lemma all_revert cb : preserves (Spec.props_all Q) (MutationDiff.revert cb).
Proof.
  unfold MutationDiff.revert.
  apply preserves_bind; [apply preserves_get | intros w].
  apply preserves_bind; [apply all_on_env | intros _].
  apply preserves_bind; [apply all_set_props_empty | intros _].
  apply preserves_bind; [apply all_on_tree | intros groups].
  apply preserves_bind; [apply all_on_env | intros _].
  apply preserves_bind; [apply all_on_tree | intros _; apply preserves_ret].
Qed.

Lemma all_clear : preserves (Spec.props_all Q) MutationDiff.clear.
Proof.
  unfold MutationDiff.clear.
  apply preserves_bind; [apply all_set_props_empty | intros _].
  apply preserves_bind; [apply all_on_tree | intros _; apply preserves_ret].
Qed.

Lemma all_synchronize_props : preserves (Spec.props_all Q) MutationDiff.synchronize_props.
Proof.
  unfold MutationDiff.synchronize_props.
  apply preserves_bind; [apply preserves_get | intros w0].
  apply preserves_for_each. intros node w H.
  unfold Js.bind, Js.get.
  destruct (JsMap.get node (MutationDiff.props (MutationDiff.this w))) as [c|] eqn:Hg;
    [|exact H].
  assert (Hc : Q c) by (apply (H node c), JsMap_get_In, Hg).
  pose proof (Q_synchronize Hc) as Hs.
  destruct (PropertyCache.synchronize c) as [n c'|e c']; simpl in Hs.
  - destruct (n =? 0)%Z; intros n1 c1 Hin; simpl in Hin.
    + apply JsMap_In_delete in Hin. exact (H _ _ Hin).
    + apply JsMap_In_set in Hin. destruct Hin as [E|Hin]; [|exact (H _ _ Hin)].
      injection E as _ ->. exact Hs.
  - simpl. intros n1 c1 Hin. simpl in Hin.
    apply JsMap_In_set in Hin. destruct Hin as [E|Hin]; [|exact (H _ _ Hin)].
    injection E as _ ->. exact Hs.
Qed.

Lemma reachable_props_all w : Spec.reachable w -> Spec.props_all Q w.
Proof.
  induction 1.
  - intros node c [].
  - exact IHreachable.
  - exact IHreachable.
  - apply all_record, IHreachable.
  - apply all_attribute, IHreachable.
  - apply all_data, IHreachable.
  - apply all_prop, IHreachable.
  - apply all_children, IHreachable.
  - apply all_mutated, IHreachable.
  - apply all_diff, IHreachable.
  - apply all_revert, IHreachable.
  - apply all_clear, IHreachable.
  - apply all_synchronize_props, IHreachable.
Qed.

End PropsInvariant.

Lemma mark_nonempty mode key value old c :
  Spec.cache_nonempty (PropertyCache.mark mode key value old c).
Proof.
  pose proof (mark_get_same mode key value old c) as H.
  unfold Spec.cache_nonempty.
  destruct mode; cbn [PropertyCache.get_map] in H; [left | right]; intros E; rewrite E in H;
    discriminate.
Qed.

Lemma synchronize_nonempty c :
  Spec.cache_nonempty c ->
  PropertyCache.synchronize c = Js.Throw (Js.TypeError "object is not iterable") c.
Proof.
  intros [H|H]; destruct c as [[|[k x] n] [|[k' x'] cu] cl di]; cbn in H; try congruence;
    reflexivity.
Qed.

Lemma JsMap_set_same_value {K V} `{EqKey K} (k : K) (v : V) (m : JsMap.t K V) :
  JsMap.get k m = Some v -> JsMap.set k v m = m.
Proof.
  induction m as [|[k' v'] m IH]; cbn [JsMap.get JsMap.set]; [discriminate|].
  destruct (eqk_spec k k') as [->|Hne].
  - intros E. injection E as ->. reflexivity.
  - intros Hg. rewrite IH by exact Hg. reflexivity.
Qed.

(** X18. Once a property change has been recorded, [synchronize()] cannot
    be used: in every reachable state whose property map is not empty the
    call throws the TypeError of [PropertyCache.synchronize], before it
    reaches the position tracker, and the state is as before. When the map
    is empty, the call is the one of [TreeMutations.synchronize]. *)
Theorem synchronize_throws_once_properties_are_tracked (w : MutationDiff.World) :
  Spec.reachable w ->
  (MutationDiff.props (MutationDiff.this w) <> [] ->
   MutationDiff.synchronize w = Js.Throw (Js.TypeError "object is not iterable") w)
  /\ (MutationDiff.props (MutationDiff.this w) = [] ->
      MutationDiff.synchronize w
      = (MutationDiff.on_tree (TreeSync.synchronize (Env.dom (MutationDiff.env w))) ;;;
         Js.ret v_undefined) w).
Proof.
  intros Hr. split.
  - intros Hne.
    pose proof (@reachable_props_all Spec.cache_nonempty mark_nonempty) as Hall.
    assert (Hq : Spec.props_all Spec.cache_nonempty w).
    { apply Hall; [|exact Hr]. intros c Hc. rewrite (synchronize_nonempty Hc). exact Hc. }
    destruct w as [e [p t]]. cbn [MutationDiff.this MutationDiff.props] in *.
    destruct p as [|[n c] rest]; [congruence|].
    assert (Hc : Spec.cache_nonempty c) by (apply (Hq n c); left; reflexivity).
    unfold MutationDiff.synchronize, MutationDiff.synchronize_props.
    unfold Js.bind at 1. unfold Js.bind at 1. unfold Js.get at 1.
    cbn [MutationDiff.this MutationDiff.props JsMap.keys map fst Js.for_each].
    unfold Js.bind at 1. unfold Js.bind at 1. unfold Js.get at 1.
    cbn [MutationDiff.this MutationDiff.props JsMap.get]. rewrite eqk_refl.
    rewrite (synchronize_nonempty Hc).
    unfold Js.bind, MutationDiff.set_props, Js.modify, Js.throw.
    cbn [MutationDiff.this MutationDiff.props MutationDiff.env MutationDiff.tree JsMap.set].
    rewrite eqk_refl. reflexivity.
  - intros He. destruct w as [e [p t]]. cbn [MutationDiff.this MutationDiff.props] in He.
    subst p. reflexivity.
Qed.

Lemma synchronize_throws_once_properties_are_tracked_witness :
  MutationDiff.synchronize Ex.world_class
  = Js.Throw (Js.TypeError "object is not iterable") Ex.world_class.
Proof.
  apply synchronize_throws_once_properties_are_tracked.
  - apply Spec.reach_record, Spec.reach_new.
  - vm_compute. discriminate.
Defined.

(** ** [mutation] on a fresh tracker, for arbitrary nodes *)

(** X19. On a fresh tracker, the record of the removal of a node [n] from
    between [prev] and [next] returns and makes [n] the one floating node:
    its record holds the original position [{parent, prev, next}] and no
    mutated position. *)
Theorem first_removal_records_original_position (parent n : Node) (prev next : option Node) :
  prev <> Some n -> next <> Some n ->
  exists s',
    TreeMutations.mutation parent [n] [] prev next Tree.new = Js.Ok tt s'
    /\ TreeMutations.nodes s' = [n]
    /\ exists r,
         TreeMutations.get n s' = Some r
         /\ nth_error (Tree.mns s') r
            = Some (MutatedNode.mk n
                      (Some (Position.mk (Some parent) (of_nullable prev) (of_nullable next)))
                      None).
Proof.
  intros Hp Hq. eexists. split; [apply removal_on_fresh_tracker; assumption|].
  split; [reflexivity|]. exists 0. split; [|reflexivity].
  unfold TreeMutations.get. cbn. rewrite Nat.eqb_refl. reflexivity.
Qed.

Lemma first_removal_records_original_position_witness :
  exists s',
    TreeMutations.mutation 0 [2] [] (Some 1) None Tree.new = Js.Ok tt s'
    /\ TreeMutations.nodes s' = [2].
Proof.
  destruct (@first_removal_records_original_position 0 2 (Some 1) None) as (s' & E & Hn & _);
    [discriminate | discriminate |].
  exists s'. split; [exact E | exact Hn].
Defined.

(** X20. A node that is removed and then inserted again between the same
    siblings of the same parent is forgotten: after the two records the
    floating set and both sibling indexes are empty. *)
Theorem reinsertion_in_place_is_forgotten (parent n : Node) (prev next : option Node) :
  prev <> Some n -> next <> Some n ->
  exists s1 s2,
    TreeMutations.mutation parent [n] [] prev next Tree.new = Js.Ok tt s1
    /\ TreeMutations.mutation parent [] [n] prev next s1 = Js.Ok tt s2
    /\ Tree.floating s2 = []
    /\ Tree.original s2 = IndexObj.empty
    /\ Tree.mutated s2 = IndexObj.empty.
Proof.
  intros Hp Hq.
  destruct prev as [p|], next as [q|];
    try (destruct (neq_Some_eqb Hp) as [Hp1 Hp2]);
    try (destruct (neq_Some_eqb Hq) as [Hq1 Hq2]);
    (eexists; eexists;
     split; [apply removal_on_fresh_tracker; assumption|];
     split; [unfold TreeMutations.mutation; run|]; repeat split; reflexivity).
Qed.

Lemma reinsertion_in_place_is_forgotten_witness :
  exists s1 s2,
    TreeMutations.mutation 0 [2] [] (Some 1) (Some 3) Tree.new = Js.Ok tt s1
    /\ TreeMutations.mutation 0 [] [2] (Some 1) (Some 3) s1 = Js.Ok tt s2
    /\ Tree.floating s2 = [].
Proof.
  destruct (@reinsertion_in_place_is_forgotten 0 2 (Some 1) (Some 3))
    as (s1 & s2 & E1 & E2 & Hf & _); [discriminate | discriminate |].
  exists s1, s2. split; [exact E1|]. split; [exact E2 | exact Hf].
Defined.

Lemma insertion_on_fresh_tracker (parent n : Node) (prev next : option Node) :
  prev <> Some n -> next <> Some n ->
  TreeMutations.mutation parent [] [n] prev next Tree.new
  = Js.Ok tt
      (Tree.mk [(n, 0)]
         IndexObj.empty
         (IndexObj.mk (match prev with Some p => [(p, 0)] | None => [] end)
                      (match next with Some q => [(q, 0)] | None => [] end))
         [MutatedNode.mk n None
            (Some (Position.mk (Some parent) (of_nullable prev) (of_nullable next)))]
         []).
Proof.
  intros Hp Hq.
  destruct prev as [p|], next as [q|];
    try (destruct (neq_Some_eqb Hp) as [Hp1 Hp2]);
    try (destruct (neq_Some_eqb Hq) as [Hq1 Hq2]);
    unfold TreeMutations.mutation; run.
Qed.

(** X21. A node that is inserted (first seen in an [addedNodes] list) and
    then removed from the same place cancels out: after the insertion it is
    floating with a mutated position and no original one, and after the
    removal the floating set and both sibling indexes are empty. *)
Theorem insertion_then_removal_cancels (parent n : Node) (prev next : option Node) :
  prev <> Some n -> next <> Some n ->
  exists s1 s2,
    TreeMutations.mutation parent [] [n] prev next Tree.new = Js.Ok tt s1
    /\ Tree.floating s1 = [(n, 0)]
    /\ nth_error (Tree.mns s1) 0
       = Some (MutatedNode.mk n None
                 (Some (Position.mk (Some parent) (of_nullable prev) (of_nullable next))))
    /\ TreeMutations.mutation parent [n] [] prev next s1 = Js.Ok tt s2
    /\ Tree.floating s2 = []
    /\ Tree.original s2 = IndexObj.empty
    /\ Tree.mutated s2 = IndexObj.empty.
Proof.
  intros Hp Hq.
  destruct prev as [p|], next as [q|];
    try (destruct (neq_Some_eqb Hp) as [Hp1 Hp2]);
    try (destruct (neq_Some_eqb Hq) as [Hq1 Hq2]);
    (eexists; eexists;
     split; [apply insertion_on_fresh_tracker; assumption|];
     split; [reflexivity|]; split; [reflexivity|];
     split; [unfold TreeMutations.mutation; run|]; repeat split; reflexivity).
Qed.

Lemma insertion_then_removal_cancels_witness :
  exists s1 s2,
    TreeMutations.mutation 0 [] [2] None (Some 3) Tree.new = Js.Ok tt s1
    /\ TreeMutations.mutation 0 [2] [] None (Some 3) s1 = Js.Ok tt s2
    /\ Tree.floating s2 = [].
Proof.
  destruct (@insertion_then_removal_cancels 0 2 None (Some 3))
    as (s1 & s2 & E1 & _ & _ & E2 & Hf & _); [discriminate | discriminate |].
  exists s1, s2. split; [exact E1|]. split; [exact E2 | exact Hf].
Defined.

(** X22. A node that is moved to another parent and later back between its
    original siblings is forgotten: after the four records (removal,
    insertion elsewhere, removal there, insertion at the original place) the
    floating set and both sibling indexes are empty. *)
Theorem move_away_and_back_is_forgotten (A B n p q p2 q2 : Node) :
  A <> B -> p <> n -> q <> n -> p2 <> n -> q2 <> n ->
  exists s1 s2 s3 s4,
    TreeMutations.mutation A [n] [] (Some p) (Some q) Tree.new = Js.Ok tt s1
    /\ TreeMutations.mutation B [] [n] (Some p2) (Some q2) s1 = Js.Ok tt s2
    /\ nth_error (Tree.mns s2) 0
       = Some (MutatedNode.mk n
                 (Some (Position.mk (Some A) (s_node p) (s_node q)))
                 (Some (Position.mk (Some B) (s_node p2) (s_node q2))))
    /\ TreeMutations.mutation B [n] [] (Some p2) (Some q2) s2 = Js.Ok tt s3
    /\ TreeMutations.mutation A [] [n] (Some p) (Some q) s3 = Js.Ok tt s4
    /\ Tree.floating s4 = []
    /\ Tree.original s4 = IndexObj.empty
    /\ Tree.mutated s4 = IndexObj.empty.
Proof.
  intros HAB Hp Hq Hp' Hq'.
  destruct (neq_eqb HAB) as [HAB1 HAB2].
  destruct (neq_eqb Hp) as [Hp1 Hp2]. destruct (neq_eqb Hq) as [Hq1 Hq2].
  destruct (neq_eqb Hp') as [Hp3 Hp4]. destruct (neq_eqb Hq') as [Hq3 Hq4].
  eexists. eexists. eexists. eexists.
  split; [apply removal_on_fresh_tracker; congruence|].
  cbn [of_nullable].
  split; [unfold TreeMutations.mutation; run|].
  split; [reflexivity|].
  split; [unfold TreeMutations.mutation; run|].
  split; [unfold TreeMutations.mutation; run|].
  repeat split; reflexivity.
Qed.

Lemma move_away_and_back_is_forgotten_witness :
  exists s1 s2 s3 s4,
    TreeMutations.mutation 0 [2] [] (Some 1) (Some 3) Tree.new = Js.Ok tt s1
    /\ TreeMutations.mutation 5 [] [2] (Some 6) (Some 7) s1 = Js.Ok tt s2
    /\ TreeMutations.mutation 5 [2] [] (Some 6) (Some 7) s2 = Js.Ok tt s3
    /\ TreeMutations.mutation 0 [] [2] (Some 1) (Some 3) s3 = Js.Ok tt s4
    /\ Tree.floating s4 = [].
Proof.
  destruct (@move_away_and_back_is_forgotten 0 5 2 1 3 6 7)
    as (s1 & s2 & s3 & s4 & E1 & E2 & _ & E3 & E4 & Hf & _); try discriminate.
  exists s1, s2, s3, s4. repeat split; assumption.
Defined.

(** ** What [diff] reports *)

Lemma fold_returns {S A L} (xs : list A) (body : A -> L -> Js.M S L) :
  (forall x l s, exists l' s', body x l s = Js.Ok l' s') ->
  forall l s, exists l' s', Js.fold xs body l s = Js.Ok l' s'.
Proof.
  intros Hb. induction xs as [|x xs IH]; intros l s; cbn [Js.fold].
  - exists l, s. reflexivity.
  - destruct (Hb x l s) as (l1 & s1 & E1). destruct (IH l1 s1) as (l2 & s2 & E2).
    exists l2, s2. unfold Js.bind. rewrite E1. exact E2.
Qed.

(** The custom block only adds the [custom] member. *)
Lemma diff_custom_Ok filter FO FM getter node cache acc e acc' e' :
  MutationDiff.diff_custom filter FO FM getter node cache acc e = Js.Ok acc' e' ->
  Log.children (snd acc') = Log.children (snd acc)
  /\ Log.data (snd acc') = Log.data (snd acc)
  /\ (fst acc = true -> fst acc' = true).
Proof.
  unfold MutationDiff.diff_custom.
  destruct (MutationDiff.nonzero _); [|intros E; injection E as <- <-; auto].
  intros E. apply bind_Ok in E. destruct E as (custom & e1 & _ & E).
  destruct custom; injection E as <- <-; auto.
Qed.

(** It returns when the calls of the getter do. *)
Lemma diff_custom_returns filter FO FM getter node cache acc e :
  Spec.getter_returns getter ->
  exists acc' e',
    MutationDiff.diff_custom filter FO FM getter node cache acc e = Js.Ok acc' e'.
Proof.
  intros Hg. unfold MutationDiff.diff_custom.
  destruct (MutationDiff.nonzero _); [|exists acc, e; reflexivity].
  unfold Js.bind at 1.
  match goal with
  | |- context [Js.fold ?xs ?body ?l0 e] =>
      destruct (@fold_returns _ _ _ xs body) with (l := l0) (s := e) as (custom & e1 & E)
  end.
  - intros [key op] custom e0.
    destruct (negb (CachedProp.dirty op)); [exists custom, e0; reflexivity|].
    destruct getter as [f|]; [|eexists; eexists; reflexivity].
    destruct (MutationDiff.nonzero FM); [|eexists; eexists; reflexivity].
    destruct (Hg node key e0) as (v & e1 & Ev).
    eexists. exists e1. unfold Js.bind. rewrite Ev. reflexivity.
  - rewrite E. destruct custom; eexists; eexists; reflexivity.
Qed.

(** What one round of the loop over the caches leaves in [out]. *)
Lemma diff_props_Ok filter FO FM getter entry out e out' e' :
  MutationDiff.diff_props filter FO FM getter entry out e = Js.Ok out' e' ->
  (forall n, n <> fst entry -> JsMap.get n out' = JsMap.get n out)
  /\ (JsMap.get (fst entry) out' = JsMap.get (fst entry) out
      \/ exists log,
           JsMap.get (fst entry) out' = Some log
           /\ Log.children log = None
           /\ Log.data log
              = Log.data (snd (MutationDiff.diff_data filter FO FM (Env.dom e) (fst entry)
                                 (snd entry) (false, Log.empty)))).
Proof.
  destruct entry as [node cache]. unfold MutationDiff.diff_props. cbn [fst snd].
  destruct (negb (MutationDiff.nonzero (PropertyCache.dirty cache))).
  - intros E. injection E as <- <-. split; [reflexivity | left; reflexivity].
  - intros E. apply bind_Ok in E. destruct E as (e0 & e1 & Eg & E).
    injection Eg as <- <-. cbv zeta in E.
    apply bind_Ok in E. destruct E as (acc1 & e1 & Ea & E).
    rewrite diff_attributes_skip in Ea. injection Ea as <- <-.
    apply bind_Ok in E. destruct E as (acc2 & e2 & Ec & E).
    destruct (diff_custom_Ok _ _ _ _ _ _ _ _ Ec) as (H2c & H2d & _).
    assert (H1 : Log.children
                   (snd (MutationDiff.diff_data filter FO FM (Env.dom e) node cache
                           (false, Log.empty))) = None).
    { unfold MutationDiff.diff_data.
      destruct (MutationDiff.nonzero (MutationDiff.band filter "DATA")); [|reflexivity].
      destruct (JsMap.get v_null (PropertyCache.native cache)) as [op|]; [|reflexivity].
      destruct (CachedProp.dirty op); reflexivity. }
    destruct (fst acc2); injection E as <- <-.
    + split.
      * intros n Hne. apply JsMap_get_set_other, Hne.
      * right. exists (snd acc2). split; [apply JsMap_get_set_same|].
        split; [congruence | exact H2d].
    + split; [reflexivity | left; reflexivity].
Qed.

Lemma diff_props_returns filter FO FM getter entry out e :
  Spec.getter_returns getter ->
  exists out' e', MutationDiff.diff_props filter FO FM getter entry out e = Js.Ok out' e'.
Proof.
  intros Hg. destruct entry as [node cache]. unfold MutationDiff.diff_props.
  destruct (negb (MutationDiff.nonzero (PropertyCache.dirty cache)));
    [exists out, e; reflexivity|].
  unfold Js.bind at 1. unfold Js.get. cbv zeta.
  rewrite diff_attributes_skip. unfold Js.bind at 1. unfold Js.ret at 1.
  match goal with
  | |- context [MutationDiff.diff_custom ?a ?b ?c ?d ?n ?ca ?acc] =>
      destruct (@diff_custom_returns a b c d n ca acc e Hg) as (acc2 & e2 & Ec)
  end.
  unfold Js.bind. rewrite Ec.
  destruct (fst acc2); eexists; eexists; reflexivity.
Qed.

Lemma diff_children_fold FO FM (fl : JsMap.t Node MnRef) (s : Tree.t) :
  NoDup (JsMap.keys fl) ->
  (forall n r, In (n, r) fl ->
               exists x, nth_error (Tree.mns s) r = Some x /\ MutatedNode.node x = n) ->
  forall out,
    exists out',
      Js.fold (JsMap.values fl) (MutationDiff.diff_children FO FM) out s = Js.Ok out' s
      /\ (forall n, ~ In n (JsMap.keys fl) -> JsMap.get n out' = JsMap.get n out)
      /\ (forall n r x, In (n, r) fl -> nth_error (Tree.mns s) r = Some x ->
            exists log,
              JsMap.get n out' = Some log
              /\ Log.children log
                 = Some (MutationDiff.delta FO FM (Some (MutatedNode.original x))
                           (Some (MutatedNode.mutated x)))
              /\ Log.data log
                 = match JsMap.get n out with Some l => Log.data l | None => None end).
Proof.
  unfold JsMap.keys, JsMap.values.
  induction fl as [|[n0 r0] fl IH]; intros Hnd Hag out; cbn [map fst snd Js.fold].
  - exists out. split; [reflexivity|]. split; [reflexivity|]. intros n r x [].
  - cbn [map fst] in Hnd. inversion Hnd as [|? ? Hni Hnd']; subst.
    destruct (Hag n0 r0 (or_introl eq_refl)) as (x0 & Hx0 & Hn0).
    set (log0 := match JsMap.get n0 out with Some l => l | None => Log.empty end).
    set (out1 := JsMap.set n0
                   (Log.mk (Log.data log0) (Log.attribute log0) (Log.custom log0)
                      (Some (MutationDiff.delta FO FM (Some (MutatedNode.original x0))
                               (Some (MutatedNode.mutated x0))))) out).
    assert (E1 : MutationDiff.diff_children FO FM r0 out s = Js.Ok out1 s).
    { unfold MutationDiff.diff_children, Js.bind, Tree.read_mn. rewrite Hx0, Hn0. reflexivity. }
    destruct (IH Hnd' (fun n r Hin => Hag n r (or_intror Hin)) out1) as (out' & E' & Hfr & Hpost).
    exists out'. unfold Js.bind. rewrite E1. split; [exact E'|]. split.
    + intros n Hn. rewrite Hfr by (intros Hin; apply Hn; right; exact Hin).
      subst out1. apply JsMap_get_set_other. intros ->. apply Hn. left. reflexivity.
    + intros n r x [E|Hin] Hx.
      * injection E as <- <-. rewrite Hx0 in Hx. injection Hx as <-.
        rewrite (Hfr n0 Hni). subst out1. rewrite JsMap_get_set_same.
        eexists. split; [reflexivity|]. split; [reflexivity|].
        cbn [Log.data]. subst log0. destruct (JsMap.get n0 out); reflexivity.
      * destruct (Hpost n r x Hin Hx) as (log & Hg & Hc & Hd).
        exists log. split; [exact Hg|]. split; [exact Hc|]. rewrite Hd.
        subst out1. rewrite JsMap_get_set_other; [reflexivity|].
        intros ->. apply Hni. apply (in_map fst) in Hin. exact Hin.
Qed.

(** X23. With the [CHILDREN] bit and one of [ORIGINAL], [MUTATED] in the
    filter: [diff] returns when every call of the getter returns (so always
    without a getter), whatever these calls do to the live tree and the
    console; and whenever it returns, its result has an entry for
    every node that is floating then, whose [children] delta holds a copy
    of the record's original position under [original] when [ORIGINAL] is
    set and of its mutated position under [mutated] when [MUTATED] is set
    ([null] for a position the record does not have). *)
Theorem diff_reports_every_floating_node (filter : Z) getter (w : MutationDiff.World) :
  MutationDiff.nonzero (MutationDiff.band filter "ORIGINAL")
  || MutationDiff.nonzero (MutationDiff.band filter "MUTATED") = true ->
  MutationDiff.nonzero (MutationDiff.band filter "CHILDREN") = true ->
  Spec.floating_agrees (MutationDiff.tree (MutationDiff.this w)) ->
  (Spec.getter_returns getter ->
   exists out w', MutationDiff.diff filter getter w = Js.Ok out w')
  /\ forall out w',
       MutationDiff.diff filter getter w = Js.Ok out w' ->
       forall n r x,
         In (n, r) (Tree.floating (MutationDiff.tree (MutationDiff.this w'))) ->
         nth_error (Tree.mns (MutationDiff.tree (MutationDiff.this w'))) r = Some x ->
         exists log,
           JsMap.get n out = Some log
           /\ Log.children log
              = Some (MutationDiff.delta (MutationDiff.band filter "ORIGINAL")
                        (MutationDiff.band filter "MUTATED")
                        (Some (MutatedNode.original x)) (Some (MutatedNode.mutated x))).
Proof.
  intros Hom Hch [Hnd Hag]. destruct w as [e [p t]].
  cbn [MutationDiff.this MutationDiff.tree] in *.
  unfold MutationDiff.diff. rewrite Hom, Hch.
  (* the loop over the floating records, from any [out] *)
  assert (Hc : forall out1 e1,
             exists out,
               MutationDiff.on_tree
                 (Js.fold (TreeMutations.mutations t)
                    (MutationDiff.diff_children (MutationDiff.band filter "ORIGINAL")
                       (MutationDiff.band filter "MUTATED")) out1)
                 (MutationDiff.mkWorld e1 (MutationDiff.mk p t))
               = Js.Ok out (MutationDiff.mkWorld e1 (MutationDiff.mk p t))
               /\ forall n r x,
                    In (n, r) (Tree.floating t) -> nth_error (Tree.mns t) r = Some x ->
                    exists log,
                      JsMap.get n out = Some log
                      /\ Log.children log
                         = Some (MutationDiff.delta (MutationDiff.band filter "ORIGINAL")
                                   (MutationDiff.band filter "MUTATED")
                                   (Some (MutatedNode.original x))
                                   (Some (MutatedNode.mutated x)))).
  { intros out1 e1.
    destruct (@diff_children_fold (MutationDiff.band filter "ORIGINAL")
                (MutationDiff.band filter "MUTATED") (Tree.floating t) t Hnd Hag out1)
      as (out & E & _ & Hpost).
    exists out. split.
    - unfold MutationDiff.on_tree, Js.zoom, TreeMutations.mutations.
      cbn [MutationDiff.env MutationDiff.this MutationDiff.tree MutationDiff.props].
      match goal with
      | |- match ?c1 with _ => _ end = _ =>
          replace c1 with (@Js.Ok Tree.t (JsMap.t Node Log.t) out t)
            by (symmetry; exact E)
      end.
      reflexivity.
    - intros n r x Hin Hx. destruct (Hpost n r x Hin Hx) as (log & Hg & Hl & _).
      exists log. auto. }
  (* the loop over the caches leaves the tracker alone *)
  assert (Hp : forall out1 w1,
             (if MutationDiff.nonzero (MutationDiff.band filter "PROPERTY")
              then MutationDiff.on_env
                     (Js.fold (JsMap.entries p)
                        (MutationDiff.diff_props filter (MutationDiff.band filter "ORIGINAL")
                           (MutationDiff.band filter "MUTATED") getter) JsMap.empty)
              else Js.ret JsMap.empty)
               (MutationDiff.mkWorld e (MutationDiff.mk p t)) = Js.Ok out1 w1 ->
             exists e1, w1 = MutationDiff.mkWorld e1 (MutationDiff.mk p t)).
  { intros out1 w1.
    destruct (MutationDiff.nonzero (MutationDiff.band filter "PROPERTY")).
    - unfold MutationDiff.on_env, Js.zoom. cbn [MutationDiff.env MutationDiff.this].
      destruct (Js.fold _ _ _ e) as [o1 e1|ex e1]; [|discriminate].
      intros E. injection E as <- <-. exists e1. reflexivity.
    - intros E. injection E as <- <-. exists e. reflexivity. }
  split.
  - intros Hg.
    assert (H0 : exists out1 w1,
               (if MutationDiff.nonzero (MutationDiff.band filter "PROPERTY")
                then MutationDiff.on_env
                       (Js.fold (JsMap.entries p)
                          (MutationDiff.diff_props filter (MutationDiff.band filter "ORIGINAL")
                             (MutationDiff.band filter "MUTATED") getter) JsMap.empty)
                else Js.ret JsMap.empty)
                 (MutationDiff.mkWorld e (MutationDiff.mk p t)) = Js.Ok out1 w1).
    { destruct (MutationDiff.nonzero (MutationDiff.band filter "PROPERTY"));
        [|eexists; eexists; reflexivity].
      destruct (@fold_returns _ _ _ (JsMap.entries p)
                  (MutationDiff.diff_props filter (MutationDiff.band filter "ORIGINAL")
                     (MutationDiff.band filter "MUTATED") getter)
                  (fun x l s => @diff_props_returns filter _ _ getter x l s Hg) JsMap.empty e)
        as (out1 & e1 & E1).
      exists out1. eexists. unfold MutationDiff.on_env, Js.zoom.
      cbn [MutationDiff.env MutationDiff.this]. rewrite E1. reflexivity. }
    destruct H0 as (out1 & w1 & E1). destruct (Hp _ _ E1) as (e1 & ->).
    destruct (Hc out1 e1) as (out & E & _).
    exists out. eexists. unfold Js.bind at 1. unfold Js.get. unfold Js.bind at 1.
    cbn [MutationDiff.env MutationDiff.this MutationDiff.tree MutationDiff.props].
    match goal with
    | |- match ?c0 with _ => _ end = _ =>
        replace c0 with (@Js.Ok MutationDiff.World (JsMap.t Node Log.t) out1
                          (MutationDiff.mkWorld e1 (MutationDiff.mk p t)))
          by (symmetry; exact E1)
    end.
    exact E.
  - intros out w' E.
    apply bind_Ok in E. destruct E as (w0 & w0' & Eg & E). injection Eg as <- <-.
    apply bind_Ok in E. destruct E as (out1 & w1 & E1 & E).
    cbn [MutationDiff.env MutationDiff.this MutationDiff.tree MutationDiff.props] in E1, E.
    destruct (Hp _ _ E1) as (e1 & ->).
    destruct (Hc out1 e1) as (out' & E' & Hpost).
    assert (Heq : Js.Ok out w' = Js.Ok out' (MutationDiff.mkWorld e1 (MutationDiff.mk p t)))
      by (rewrite <- E, <- E'; reflexivity).
    injection Heq as -> ->. exact Hpost.
Qed.

Lemma diff_reports_every_floating_node_witness :
  exists out w' log,
    MutationDiff.diff MutationDiff.ALL (Some Ex.getter_loud) Ex.world_marked = Js.Ok out w'
    /\ JsMap.get 1 out = Some log
    /\ Log.children log
       = Some (Delta.mk (Some (Some (Position.mk (Some 0) s_null (s_node 2)))) (Some None)).
Proof.
  destruct (@diff_reports_every_floating_node MutationDiff.ALL (Some Ex.getter_loud)
              Ex.world_marked) as (Hret & Hpost).
  - reflexivity.
  - reflexivity.
  - split.
    + vm_compute. repeat constructor. intros [].
    + intros n r Hin. vm_compute in Hin. destruct Hin as [Ei|[]]. injection Ei as <- <-.
      eexists. split; vm_compute; reflexivity.
  - destruct Hret as (out & w' & E).
    { intros node key e. eexists. eexists. reflexivity. }
    assert (Hw : MutationDiff.this w' = MutationDiff.this Ex.world_marked).
    { assert (H := f_equal (fun c => MutationDiff.this (Js.state_of c)) E).
      cbn [Js.state_of] in H. rewrite <- H. vm_compute. reflexivity. }
    destruct (Hpost out w' E 1 0
                (MutatedNode.mk 1 (Some (Position.mk (Some 0) s_null (s_node 2))) None))
      as (log & Hg & Hc).
    + rewrite Hw. vm_compute. left. reflexivity.
    + rewrite Hw. vm_compute. reflexivity.
    + exists out, w', log. split; [exact E|]. split; [exact Hg | exact Hc].
Defined.

Lemma land_1_7 filter : Z.land filter 1 <> 0%Z -> Z.land filter 7 <> 0%Z.
Proof.
  intros H1 H7. apply H1.
  replace 1%Z with (Z.land 7 1) by reflexivity.
  rewrite Z.land_assoc, H7. reflexivity.
Qed.

Lemma diff_children_fold_keeps_data FO FM (l : list MnRef) (s : Tree.t) :
  (forall r, In r l -> exists x, nth_error (Tree.mns s) r = Some x) ->
  forall out,
    exists out',
      Js.fold l (MutationDiff.diff_children FO FM) out s = Js.Ok out' s
      /\ forall n log, JsMap.get n out = Some log ->
           exists log', JsMap.get n out' = Some log' /\ Log.data log' = Log.data log.
Proof.
  induction l as [|r l IH]; intros Hst out; cbn [Js.fold].
  - exists out. split; [reflexivity|]. intros n log Hg. exists log. auto.
  - destruct (Hst r (or_introl eq_refl)) as (x & Hx).
    set (log0 := match JsMap.get (MutatedNode.node x) out with Some l => l | None => Log.empty end).
    set (out1 := JsMap.set (MutatedNode.node x)
                   (Log.mk (Log.data log0) (Log.attribute log0) (Log.custom log0)
                      (Some (MutationDiff.delta FO FM (Some (MutatedNode.original x))
                               (Some (MutatedNode.mutated x))))) out).
    assert (E1 : MutationDiff.diff_children FO FM r out s = Js.Ok out1 s).
    { unfold MutationDiff.diff_children, Js.bind, Tree.read_mn. rewrite Hx. reflexivity. }
    destruct (IH (fun r' Hin => Hst r' (or_intror Hin)) out1) as (out' & E' & Hk).
    exists out'. unfold Js.bind. rewrite E1. split; [exact E'|].
    intros n log Hg.
    assert (H1 : exists log1, JsMap.get n out1 = Some log1 /\ Log.data log1 = Log.data log).
    { subst out1. destruct (Nat.eq_dec n (MutatedNode.node x)) as [->|Hne].
      - rewrite JsMap_get_set_same. eexists. split; [reflexivity|].
        cbn [Log.data]. subst log0. rewrite Hg. reflexivity.
      - rewrite JsMap_get_set_other by exact Hne. exists log. auto. }
    destruct H1 as (log1 & Hg1 & Hd1).
    destruct (Hk n log1 Hg1) as (log' & Hg' & Hd').
    exists log'. split; [exact Hg' | congruence].
Qed.

Lemma readonly_diff_props filter FO FM getter entry out :
  Spec.getter_reads getter ->
  readonly (MutationDiff.diff_props filter FO FM getter entry out).
Proof.
  intros Hg. destruct entry as [node cache]. unfold MutationDiff.diff_props.
  destruct (negb _); [apply readonly_ret|].
  apply readonly_bind; [apply readonly_get|]. intros e.
  apply readonly_bind.
  - rewrite diff_attributes_skip. apply readonly_ret.
  - intros acc. apply readonly_bind; [apply readonly_diff_custom, Hg|].
    intros acc'. destruct (fst _); apply readonly_ret.
Qed.

(** The round of a cache whose data entry is dirty. *)
Lemma diff_props_data filter FO FM getter node c p out e out' e' :
  MutationDiff.nonzero (MutationDiff.band filter "DATA") = true ->
  PropertyCache.dirty c <> 0%Z ->
  JsMap.get v_null (PropertyCache.native c) = Some p ->
  CachedProp.dirty p = true ->
  MutationDiff.diff_props filter FO FM getter (node, c) out e = Js.Ok out' e' ->
  exists log,
    JsMap.get node out' = Some log
    /\ Log.data log
       = Some (MutationDiff.delta FO FM (Some (CachedProp.value p))
                 (Some (Dom.get_data (Env.dom e) node))).
Proof.
  intros Hdata Hdirty Hg Hd E. unfold MutationDiff.diff_props in E.
  assert (Hnz : negb (MutationDiff.nonzero (PropertyCache.dirty c)) = false).
  { unfold MutationDiff.nonzero. rewrite Bool.negb_involutive. apply Z.eqb_neq, Hdirty. }
  rewrite Hnz in E.
  apply bind_Ok in E. destruct E as (e0 & e1 & Eg & E). injection Eg as <- <-.
  cbv zeta in E.
  apply bind_Ok in E. destruct E as (acc1 & e1 & Ea & E).
  rewrite diff_attributes_skip in Ea. injection Ea as <- <-.
  apply bind_Ok in E. destruct E as (acc2 & e2 & Ec & E).
  assert (H1 : MutationDiff.diff_data filter FO FM (Env.dom e) node c (false, Log.empty)
               = (true, Log.mk (Some (MutationDiff.delta FO FM (Some (CachedProp.value p))
                                        (Some (Dom.get_data (Env.dom e) node))))
                          None None None)).
  { unfold MutationDiff.diff_data. rewrite Hdata, Hg, Hd. reflexivity. }
  rewrite H1 in Ec.
  destruct (diff_custom_Ok _ _ _ _ _ _ _ _ Ec) as (_ & H2d & H2a).
  rewrite (H2a eq_refl) in E. injection E as <- <-.
  exists (snd acc2). split; [apply JsMap_get_set_same | exact H2d].
Qed.

(** The rounds of the other caches leave the entry of [node] alone. *)
Lemma diff_props_fold_other filter FO FM getter node (l : list (Node * PropertyCache.t)) :
  ~ In node (map fst l) ->
  forall out e out' e',
    Js.fold l (MutationDiff.diff_props filter FO FM getter) out e = Js.Ok out' e' ->
    JsMap.get node out' = JsMap.get node out.
Proof.
  induction l as [|[n1 c1] l IH]; intros Hni out e out' e' E; cbn [Js.fold] in E.
  - injection E as <- <-. reflexivity.
  - apply bind_Ok in E. destruct E as (out1 & e1 & E1 & E).
    rewrite (IH (fun Hin => Hni (or_intror Hin)) _ _ _ _ E).
    destruct (diff_props_Ok _ _ _ _ _ _ _ E1) as [Hoth _].
    apply Hoth. cbn [fst]. intros ->. apply Hni. left. reflexivity.
Qed.

Lemma diff_props_fold_data filter FO FM getter node c p (l : list (Node * PropertyCache.t)) :
  Spec.getter_reads getter ->
  MutationDiff.nonzero (MutationDiff.band filter "DATA") = true ->
  PropertyCache.dirty c <> 0%Z ->
  JsMap.get v_null (PropertyCache.native c) = Some p ->
  CachedProp.dirty p = true ->
  NoDup (map fst l) ->
  In (node, c) l ->
  forall out e out' e',
    Js.fold l (MutationDiff.diff_props filter FO FM getter) out e = Js.Ok out' e' ->
    exists log,
      JsMap.get node out' = Some log
      /\ Log.data log
         = Some (MutationDiff.delta FO FM (Some (CachedProp.value p))
                   (Some (Dom.get_data (Env.dom e) node))).
Proof.
  intros Hr Hdata Hdirty Hg Hd.
  induction l as [|[n0 c0] l IH]; intros Hnd Hin out e out' e' E; [destruct Hin|].
  cbn [map fst] in Hnd. inversion Hnd as [|? ? Hni Hnd']; subst.
  cbn [Js.fold] in E. apply bind_Ok in E. destruct E as (out1 & e1 & E1 & E).
  assert (e1 = e) as ->.
  { revert E1. apply readonly_Ok, readonly_diff_props, Hr. }
  destruct Hin as [Eq|Hin].
  - injection Eq as -> ->.
    destruct (@diff_props_data filter FO FM getter node c p out e out1 e Hdata Hdirty Hg Hd E1)
      as (log & Hgl & Hdl).
    exists log. split; [|exact Hdl].
    rewrite (@diff_props_fold_other filter FO FM getter node l Hni out1 e out' e' E). exact Hgl.
  - exact (IH Hnd' Hin _ _ _ _ E).
Qed.

(** X24. With the [DATA] bit and one of [ORIGINAL], [MUTATED] in the
    filter, and a getter (if any) whose calls change nothing: [diff]
    returns when every call of the getter returns, and whenever it returns
    it reports every node whose cached data entry is dirty: the [data]
    delta of the node holds the cached original under [original] when
    [ORIGINAL] is set, and the live [node.data] under [mutated] when
    [MUTATED] is set. *)
Theorem diff_reports_dirty_data (filter : Z) getter (w : MutationDiff.World)
    (node : Node) (c : PropertyCache.t) (p : CachedProp.t) :
  MutationDiff.nonzero (MutationDiff.band filter "ORIGINAL")
  || MutationDiff.nonzero (MutationDiff.band filter "MUTATED") = true ->
  MutationDiff.nonzero (MutationDiff.band filter "DATA") = true ->
  NoDup (JsMap.keys (MutationDiff.props (MutationDiff.this w))) ->
  Spec.floating_stored (MutationDiff.tree (MutationDiff.this w)) ->
  In (node, c) (MutationDiff.props (MutationDiff.this w)) ->
  PropertyCache.dirty c <> 0%Z ->
  JsMap.get v_null (PropertyCache.native c) = Some p ->
  CachedProp.dirty p = true ->
  Spec.getter_reads getter ->
  (Spec.getter_returns getter ->
   exists out, MutationDiff.diff filter getter w = Js.Ok out w)
  /\ forall out w',
       MutationDiff.diff filter getter w = Js.Ok out w' ->
       exists log,
         JsMap.get node out = Some log
         /\ Log.data log
            = Some (MutationDiff.delta (MutationDiff.band filter "ORIGINAL")
                      (MutationDiff.band filter "MUTATED")
                      (Some (CachedProp.value p))
                      (Some (Dom.get_data (Env.dom (MutationDiff.env w)) node))).
Proof.
  intros Hom Hdata Hnd Hst Hin Hdirty Hg Hd Hr.
  assert (Hret : Spec.getter_returns getter ->
                 exists out, MutationDiff.diff filter getter w = Js.Ok out w).
  { intros Hgr.
    assert (H : exists out w', MutationDiff.diff filter getter w = Js.Ok out w').
    { destruct w as [e [pr t]].
      cbn [MutationDiff.this MutationDiff.tree MutationDiff.props MutationDiff.env] in *.
      unfold MutationDiff.diff. rewrite Hom.
      unfold Js.bind at 1. unfold Js.get.
      assert (H0 : exists out1 e1,
                 (if MutationDiff.nonzero (MutationDiff.band filter "PROPERTY")
                  then MutationDiff.on_env
                         (Js.fold (JsMap.entries pr)
                            (MutationDiff.diff_props filter
                               (MutationDiff.band filter "ORIGINAL")
                               (MutationDiff.band filter "MUTATED") getter) JsMap.empty)
                  else Js.ret JsMap.empty)
                   (MutationDiff.mkWorld e (MutationDiff.mk pr t))
                 = Js.Ok out1 (MutationDiff.mkWorld e1 (MutationDiff.mk pr t))).
      { destruct (MutationDiff.nonzero (MutationDiff.band filter "PROPERTY"));
          [|eexists; eexists; reflexivity].
        destruct (@fold_returns _ _ _ (JsMap.entries pr)
                    (MutationDiff.diff_props filter (MutationDiff.band filter "ORIGINAL")
                       (MutationDiff.band filter "MUTATED") getter)
                    (fun x l s => @diff_props_returns filter _ _ getter x l s Hgr)
                    JsMap.empty e)
          as (out1 & e1 & E1).
        exists out1, e1. unfold MutationDiff.on_env, Js.zoom.
        cbn [MutationDiff.env MutationDiff.this]. rewrite E1. reflexivity. }
      destruct H0 as (out1 & e1 & E1).
      unfold Js.bind at 1.
      cbn [MutationDiff.env MutationDiff.this MutationDiff.tree MutationDiff.props].
      match goal with
      | |- exists _ _, match ?c0 with _ => _ end = _ =>
          replace c0 with (@Js.Ok MutationDiff.World (JsMap.t Node Log.t) out1
                            (MutationDiff.mkWorld e1 (MutationDiff.mk pr t)))
            by (symmetry; exact E1)
      end.
      destruct (MutationDiff.nonzero (MutationDiff.band filter "CHILDREN"));
        [|eexists; eexists; reflexivity].
      assert (Hst' : forall r, In r (TreeMutations.mutations t) ->
                               exists x, nth_error (Tree.mns t) r = Some x).
      { intros r Hr0. unfold TreeMutations.mutations, JsMap.values in Hr0.
        apply in_map_iff in Hr0. destruct Hr0 as ([n1 r1] & <- & Hr0). exact (Hst _ _ Hr0). }
      destruct (@diff_children_fold_keeps_data (MutationDiff.band filter "ORIGINAL")
                  (MutationDiff.band filter "MUTATED") (TreeMutations.mutations t) t Hst' out1)
        as (out2 & E2 & _).
      exists out2. eexists. unfold MutationDiff.on_tree, Js.zoom.
      cbn [MutationDiff.env MutationDiff.this MutationDiff.tree MutationDiff.props].
      match goal with
      | |- match ?c1 with _ => _ end = _ =>
          replace c1 with (@Js.Ok Tree.t (JsMap.t Node Log.t) out2 t) by (symmetry; exact E2)
      end.
      reflexivity. }
    destruct H as (out & w' & E). exists out.
    assert (w' = w) as -> by (revert E; apply readonly_Ok, readonly_diff, Hr).
    exact E. }
  split; [exact Hret|].
  intros out w' E. destruct w as [e [pr t]].
  cbn [MutationDiff.this MutationDiff.tree MutationDiff.props MutationDiff.env] in *.
  assert (Hprop : MutationDiff.nonzero (MutationDiff.band filter "PROPERTY") = true).
  { unfold MutationDiff.nonzero in *. apply Bool.negb_true_iff, Z.eqb_neq.
    apply Bool.negb_true_iff, Z.eqb_neq in Hdata. exact (land_1_7 _ Hdata). }
  unfold MutationDiff.diff in E. rewrite Hom, Hprop in E.
  apply bind_Ok in E. destruct E as (w0 & w0' & Eg & E). injection Eg as <- <-.
  apply bind_Ok in E. destruct E as (out1 & w1 & E1 & E).
  cbn [MutationDiff.env MutationDiff.this MutationDiff.tree MutationDiff.props] in E1, E.
  assert (H1 : exists log1,
             w1 = MutationDiff.mkWorld e (MutationDiff.mk pr t)
             /\ JsMap.get node out1 = Some log1
             /\ Log.data log1
                = Some (MutationDiff.delta (MutationDiff.band filter "ORIGINAL")
                          (MutationDiff.band filter "MUTATED")
                          (Some (CachedProp.value p))
                          (Some (Dom.get_data (Env.dom e) node)))).
  { unfold MutationDiff.on_env, Js.zoom in E1. cbn [MutationDiff.env MutationDiff.this] in E1.
    destruct (Js.fold _ _ _ e) as [o1 e1|ex e1] eqn:Ef; [|discriminate].
    injection E1 as <- <-.
    assert (e1 = e) as ->.
    { revert Ef. apply readonly_Ok, readonly_fold. intros x l.
      apply readonly_diff_props, Hr. }
    destruct (@diff_props_fold_data filter (MutationDiff.band filter "ORIGINAL")
                (MutationDiff.band filter "MUTATED") getter node c p (JsMap.entries pr)
                Hr Hdata Hdirty Hg Hd Hnd Hin JsMap.empty e o1 e Ef)
      as (log1 & Hg1 & Hd1).
    exists log1. auto. }
  destruct H1 as (log1 & -> & Hg1 & Hd1).
  destruct (MutationDiff.nonzero (MutationDiff.band filter "CHILDREN")).
  - assert (Hst' : forall r, In r (TreeMutations.mutations t) ->
                             exists x, nth_error (Tree.mns t) r = Some x).
    { intros r Hr0. unfold TreeMutations.mutations, JsMap.values in Hr0.
      apply in_map_iff in Hr0. destruct Hr0 as ([n1 r1] & <- & Hr0). exact (Hst _ _ Hr0). }
    destruct (@diff_children_fold_keeps_data (MutationDiff.band filter "ORIGINAL")
                (MutationDiff.band filter "MUTATED") (TreeMutations.mutations t) t Hst' out1)
      as (out2 & E2 & Hk).
    unfold MutationDiff.on_tree, Js.zoom in E.
    cbn [MutationDiff.env MutationDiff.this MutationDiff.tree MutationDiff.props] in E.
    match type of E with
    | match ?c1 with _ => _ end = _ =>
        replace c1 with (@Js.Ok Tree.t (JsMap.t Node Log.t) out2 t) in E
          by (symmetry; exact E2)
    end.
    injection E as <- <-.
    destruct (Hk node log1 Hg1) as (log2 & Hg2 & Hd2).
    exists log2. split; [exact Hg2 | congruence].
  - injection E as <- <-. exists log1. auto.
Qed.

Lemma diff_reports_dirty_data_witness :
  exists out log,
    MutationDiff.diff MutationDiff.ALL (Some Ex.getter_b) Ex.world_marked
    = Js.Ok out Ex.world_marked
    /\ JsMap.get 2 out = Some log
    /\ Log.data log = Some (Delta.mk (Some (v_string "hi")) (Some (v_string "hello"))).
Proof.
  destruct (@diff_reports_dirty_data MutationDiff.ALL (Some Ex.getter_b) Ex.world_marked 2
              (PropertyCache.mark m_custom (v_string "mark") (v_string "b") (v_string "a")
                 (PropertyCache.mark m_native v_null (v_string "hello") (v_string "hi")
                    PropertyCache.new))
              (CachedProp.mk (v_string "hi") true)) as (Hret & Hpost).
  - reflexivity.
  - reflexivity.
  - vm_compute. repeat constructor. intros [].
  - intros n r Hin. vm_compute in Hin. destruct Hin as [Ei|[]]. injection Ei as <- <-.
    eexists. vm_compute. reflexivity.
  - vm_compute. left. reflexivity.
  - vm_compute. discriminate.
  - reflexivity.
  - reflexivity.
  - intros node key e. reflexivity.
  - destruct Hret as (out & E).
    { intros node key e. eexists. eexists. reflexivity. }
    destruct (Hpost out Ex.world_marked E) as (log & Hg & Hd).
    exists out, log. split; [exact E|]. split; [exact Hg | exact Hd].
Defined.

(** ** [revert] after a single record, for arbitrary nodes *)

Lemma bind_step {S A B} (m : Js.M S A) (k : A -> Js.M S B) s a s1 :
  m s = Js.Ok a s1 -> Js.bind m k s = k a s1.
Proof. intros E. unfold Js.bind. rewrite E. reflexivity. Qed.

Lemma on_tree_Ok {A} (m : Js.M Tree.t A) w a t' :
  m (MutationDiff.tree (MutationDiff.this w)) = Js.Ok a t' ->
  MutationDiff.on_tree m w
  = Js.Ok a (MutationDiff.mkWorld (MutationDiff.env w)
               (MutationDiff.mk (MutationDiff.props (MutationDiff.this w)) t')).
Proof. intros E. unfold MutationDiff.on_tree, Js.zoom. rewrite E. reflexivity. Qed.

Lemma grouped_single_removal (parent n : Node) (prev next : option Node) :
  prev <> Some n -> next <> Some n ->
  let s1 := Tree.mk [(n, 0)]
              (IndexObj.mk (match prev with Some p => [(p, 0)] | None => [] end)
                           (match next with Some q => [(q, 0)] | None => [] end))
              IndexObj.empty
              [MutatedNode.mk n
                 (Some (Position.mk (Some parent) (of_nullable prev) (of_nullable next))) None]
              [PromiseObj.mk 0 Prev None; PromiseObj.mk 0 Next None] in
  MutationDiff.diff_grouped_children MutationDiff.ORIGINAL true s1
  = Js.Ok [Group.mk [n] (Some parent) (of_nullable prev) (of_nullable next)] s1.
Proof.
  intros Hp Hq s1. subst s1.
  destruct prev as [p|], next as [q|];
    try (destruct (neq_Some_eqb Hp) as [Hp1 Hp2]);
    try (destruct (neq_Some_eqb Hq) as [Hq1 Hq2]);
    (decide_tests; reflexivity).
Qed.

(** X25. After the record of the removal of a node [n] from between [prev]
    and [next], on a fresh tracker, [revert()] does to the live tree exactly
    [n.remove()] followed by [next.before(n)], or [parent.append(n)] when
    [n] was the last child; it returns [undefined] with an empty tracker,
    or passes on the exception of the tree operation. *)
Theorem revert_puts_removed_node_back (parent n : Node) (prev next : option Node)
    (e : Env.t) :
  prev <> Some n -> next <> Some n ->
  let w1 := Js.state_of (MutationDiff.children parent [n] [] prev next
                           (MutationDiff.mkWorld e MutationDiff.new)) in
  MutationDiff.revert None w1
  = match (Dom.remove n ;;;
           match next with
           | Some q => Dom.before q [n]
           | None => Dom.append parent [n]
           end) (Env.dom e) with
    | Js.Ok _ d =>
        Js.Ok v_undefined
          (MutationDiff.mkWorld (Env.mk d (Env.console e) (Env.calls e))
             (MutationDiff.mk JsMap.empty
                (Js.state_of (TreeMutations.clear (MutationDiff.tree (MutationDiff.this w1))))))
    | Js.Throw ex d =>
        Js.Throw ex
          (MutationDiff.mkWorld (Env.mk d (Env.console e) (Env.calls e))
             (MutationDiff.mk JsMap.empty (MutationDiff.tree (MutationDiff.this w1))))
    end.
Proof.
  intros Hp Hq w1.
  assert (Hw1 : w1 = MutationDiff.mkWorld e
                       (MutationDiff.mk JsMap.empty
                          (Tree.mk [(n, 0)]
                             (IndexObj.mk (match prev with Some p => [(p, 0)] | None => [] end)
                                          (match next with Some q => [(q, 0)] | None => [] end))
                             IndexObj.empty
                             [MutatedNode.mk n
                                (Some (Position.mk (Some parent) (of_nullable prev)
                                         (of_nullable next))) None]
                             [PromiseObj.mk 0 Prev None; PromiseObj.mk 0 Next None]))).
  { subst w1. unfold MutationDiff.children, MutationDiff.on_tree, Js.zoom, Js.bind.
    cbn [MutationDiff.tree MutationDiff.this MutationDiff.new MutationDiff.env MutationDiff.props].
    rewrite removal_on_fresh_tracker by assumption. reflexivity. }
  rewrite Hw1. clear Hw1 w1.
  unfold MutationDiff.revert.
  erewrite bind_step; [|reflexivity].
  erewrite bind_step; [|reflexivity].
  erewrite bind_step; [|reflexivity].
  erewrite bind_step; [|apply on_tree_Ok; apply grouped_single_removal; assumption].
  destruct e as [d co ca].
  destruct prev as [p|], next as [q|];
    cbv -[Dom.detach Dom.before Dom.append Dom.after Dom.prepend];
    match goal with
    | |- context [Dom.before ?a ?b ?c] => destruct (Dom.before a b c)
    | |- context [Dom.append ?a ?b ?c] => destruct (Dom.append a b c)
    end; reflexivity.
Qed.

Lemma revert_puts_removed_node_back_witness :
  MutationDiff.revert None
    (Js.state_of (MutationDiff.children 0 [2] [] (Some 1) (Some 3)
                    (MutationDiff.mkWorld (Env.of_dom (Dom.mk [(0, [1; 3])] [] [] []))
                       MutationDiff.new)))
  = Js.Ok v_undefined
      (MutationDiff.mkWorld (Env.of_dom (Dom.mk [(0, [1; 2; 3])] [] [] []))
         (MutationDiff.mk JsMap.empty
            (Js.state_of
               (TreeMutations.clear
                  (Js.state_of (TreeMutations.mutation 0 [2] [] (Some 1) (Some 3) Tree.new)))))).
Proof.
  etransitivity.
  - apply (@revert_puts_removed_node_back 0 2 (Some 1) (Some 3)
             (Env.of_dom (Dom.mk [(0, [1; 3])] [] [] []))); discriminate.
  - vm_compute. reflexivity.
Defined.

Lemma grouped_single_insertion (parent n : Node) (prev next : option Node) :
  let s1 := Tree.mk [(n, 0)]
              IndexObj.empty
              (IndexObj.mk (match prev with Some p => [(p, 0)] | None => [] end)
                           (match next with Some q => [(q, 0)] | None => [] end))
              [MutatedNode.mk n None
                 (Some (Position.mk (Some parent) (of_nullable prev) (of_nullable next)))]
              [] in
  MutationDiff.diff_grouped_children MutationDiff.ORIGINAL true s1
  = Js.Ok [Group.mk [n] None s_undefined s_undefined] s1.
Proof.
  intros s1. subst s1. decide_tests. reflexivity.
Qed.

(** X26. After the record of the insertion of a node [n] that was not
    tracked before, on a fresh tracker, [revert()] takes [n] out of the live
    tree and does nothing else to it; it returns [undefined] with an empty
    tracker. *)
Theorem revert_takes_inserted_node_out (parent n : Node) (prev next : option Node)
    (e : Env.t) :
  prev <> Some n -> next <> Some n ->
  let w1 := Js.state_of (MutationDiff.children parent [] [n] prev next
                           (MutationDiff.mkWorld e MutationDiff.new)) in
  MutationDiff.revert None w1
  = Js.Ok v_undefined
      (MutationDiff.mkWorld
         (Env.mk (Dom.detach n (Env.dom e)) (Env.console e) (Env.calls e))
         (MutationDiff.mk JsMap.empty
            (Js.state_of (TreeMutations.clear (MutationDiff.tree (MutationDiff.this w1)))))).
Proof.
  intros Hp Hq w1.
  assert (Hw1 : w1 = MutationDiff.mkWorld e
                       (MutationDiff.mk JsMap.empty
                          (Tree.mk [(n, 0)]
                             IndexObj.empty
                             (IndexObj.mk (match prev with Some p => [(p, 0)] | None => [] end)
                                          (match next with Some q => [(q, 0)] | None => [] end))
                             [MutatedNode.mk n None
                                (Some (Position.mk (Some parent) (of_nullable prev)
                                         (of_nullable next)))]
                             []))).
  { subst w1. unfold MutationDiff.children, MutationDiff.on_tree, Js.zoom, Js.bind.
    cbn [MutationDiff.tree MutationDiff.this MutationDiff.new MutationDiff.env MutationDiff.props].
    rewrite insertion_on_fresh_tracker by assumption. reflexivity. }
  rewrite Hw1. clear Hw1 w1.
  unfold MutationDiff.revert.
  erewrite bind_step; [|reflexivity].
  erewrite bind_step; [|reflexivity].
  erewrite bind_step; [|reflexivity].
  erewrite bind_step; [|apply on_tree_Ok; apply grouped_single_insertion].
  destruct e as [d co ca]. reflexivity.
Qed.

Lemma revert_takes_inserted_node_out_witness :
  MutationDiff.revert None
    (Js.state_of (MutationDiff.children 0 [] [2] (Some 1) None
                    (MutationDiff.mkWorld (Env.of_dom (Dom.mk [(0, [1; 2])] [] [] []))
                       MutationDiff.new)))
  = Js.Ok v_undefined
      (MutationDiff.mkWorld (Env.of_dom (Dom.mk [(0, [1])] [] [] []))
         (MutationDiff.mk JsMap.empty
            (Js.state_of
               (TreeMutations.clear
                  (Js.state_of (TreeMutations.mutation 0 [] [2] (Some 1) None Tree.new)))))).
Proof.
  etransitivity.
  - apply (@revert_takes_inserted_node_out 0 2 (Some 1) None
             (Env.of_dom (Dom.mk [(0, [1; 2])] [] [] []))); discriminate.
  - vm_compute. reflexivity.
Defined.
